(** * alice-aqua: cursor picking, the editor's object manager and brushes,
    and the game's stage manager

  A shallow embedding of the parts of [src/objs/cursor.ts] and
  [src/index.ts] (editor and game entry points) that the specification
  talks about, followed by the properties proved about them.

  JavaScript numbers are modelled as exact rationals ([Q]): rounding is
  not represented, and NaN only as what [parseInt] gives for a string that
  is no number.  Where the source divides, the statements that depend on
  the quotient assume a divisor different from zero; the cursor, which
  divides by a component of the picking ray, is also given with the
  numbers that are not finite ([CursorNum]), and it is the cursor of
  rationals as long as no divisor is zero.  What a stage does to the world
  outside (network, console, scene) is recorded as a trace of [Effect]s. *)

From Stdlib Require Import QArith Qround Qminmax Qabs ZArith Ascii String Lia Lqa.
From stdpp Require Import base list strings gmap pretty.

Open Scope Q_scope.

(** ** The parts of the Babylon library that the sources use *)

Module Babylon.

Record Vector3 := Vec3 { vx : Q; vy : Q; vz : Q }.

Inductive Axis := AxisX | AxisY | AxisZ.

(** [v[axis]] *)
Definition coord (v : Vector3) (a : Axis) : Q :=
  match a with AxisX => vx v | AxisY => vy v | AxisZ => vz v end.

Definition Zero : Vector3 := Vec3 0 0 0.

Definition add (a b : Vector3) : Vector3 :=
  Vec3 (vx a + vx b) (vy a + vy b) (vz a + vz b).

Definition subtract (a b : Vector3) : Vector3 :=
  Vec3 (vx a - vx b) (vy a - vy b) (vz a - vz b).

Definition scale (a : Vector3) (k : Q) : Vector3 :=
  Vec3 (vx a * k) (vy a * k) (vz a * k).

(** [Vector3.Minimize] and [Vector3.Maximize]: component by component. *)
Definition Minimize (a b : Vector3) : Vector3 :=
  Vec3 (Qmin (vx a) (vx b)) (Qmin (vy a) (vy b)) (Qmin (vz a) (vz b)).

Definition Maximize (a b : Vector3) : Vector3 :=
  Vec3 (Qmax (vx a) (vx b)) (Qmax (vy a) (vy b)) (Qmax (vz a) (vz b)).

(** [a.equals(b)] *)
Definition equals (a b : Vector3) : bool :=
  Qeq_bool (vx a) (vx b) && Qeq_bool (vy a) (vy b) && Qeq_bool (vz a) (vz b).

Record Ray := { origin : Vector3; direction : Vector3 }.

(** What the sources read from the result of [scene.pickWithRay]. *)
Record PickingInfo := {
  hit : bool;
  pickedPoint : Vector3;
  getNormal : Vector3;         (* pick.getNormal(true, false) *)
}.

(** What the cursor asks of the scene.  [Mesh] is the scene's mesh type. *)
Record Scene (Mesh : Type) := {
  createPickingRay : Q -> Q -> Ray;   (* (px, py, null, activeCamera) *)
  pickWithRay : Ray -> (Mesh -> bool) -> PickingInfo;
}.
Arguments createPickingRay {Mesh} _ _ _.
Arguments pickWithRay {Mesh} _ _ _.

End Babylon.

(** ** JavaScript helpers *)

Module Js.

(** [Math.floor] *)
Definition Math_floor (x : Q) : Q := inject_Z (Qfloor x).

(** [Math.max(a, b, c)] *)
Definition Math_max3 (a b c : Q) : Q := Qmax (Qmax a b) c.

(** [xs.indexOf(x)]: the first position holding [x], if any (the source
    gets [-1] otherwise, and [undefined] when it indexes an array with it). *)
Fixpoint indexOf (xs : list Q) (x : Q) : option nat :=
  match xs with
  | [] => None
  | y :: ys => if Qeq_bool y x then Some O else S <$> indexOf ys x
  end.

(** A number as [join] and a template string print it.  Exact on integers
    (the components of [CURSOR_NORMALS], the class ids); a fraction is
    printed with a decimal point, so that it differs from every integer. *)
Definition Number_toString (x : Q) : string :=
  if Qeq_bool x (Math_floor x) then pretty (Qfloor x)
  else pretty (Qfloor x) +:+ ".5".

(** [xs.join(sep)] on numbers *)
Definition join (sep : string) (xs : list Q) : string :=
  String.concat sep (Number_toString <$> xs).

(** JSON values, as far as the sources look into them. *)
Inductive jsval :=
| JNum (x : Q)
| JNaN
| JStr (s : string)
| JBool (b : bool).

(** An object used as a bag of named arguments. *)
Abbreviation Args := (gmap string jsval).

(** [Object.assign({ }, a, b)]: the keys of [b] win. *)
Definition Object_assign (a b : Args) : Args := b ∪ a.

(** Arguments that name no property which the object they are assigned to
    has of its own: they have no key [name], [position] or [dispose]. *)
Definition plain (a : Args) : bool :=
  match a !! "name", a !! "position", a !! "dispose" with
  | None, None, None => true
  | _, _, _ => false
  end.

(** How a call ends: it returns, or an exception is thrown; both leave a
    state behind. *)
Inductive Completion (S : Type) :=
| Returned (s : S)
| Threw (s : S).
Arguments Returned {S} _.
Arguments Threw {S} _.

Definition after {S} (o : Completion S) : S :=
  match o with Returned s | Threw s => s end.

(** [parseInt(s)] for an optional sign followed by decimal digits, read
    up to the first character that is not a digit; [None] is [NaN].
    (Leading blanks and the [0x] prefix are left out.) *)
Definition digit (a : ascii) : option Z :=
  let n := Z.of_nat (nat_of_ascii a) in
  if ((48 <=? n) && (n <=? 57))%Z then Some (n - 48)%Z else None.

Fixpoint digits (acc : option Z) (s : string) : option Z :=
  match s with
  | EmptyString => acc
  | String a s' =>
    match digit a with
    | Some d => digits (Some (10 * default 0 acc + d)%Z) s'
    | None => acc
    end
  end.

Definition parseInt (s : string) : option Z :=
  match s with
  | String "+" s' => digits None s'
  | String "-" s' => Z.opp <$> digits None s'
  | _ => digits None s
  end.

(** [for (let m = lo; m < hi; m ++) body(m)], at most [fuel] rounds. *)
Fixpoint for_fuel {S} (fuel : nat) (m hi : Q) (body : Q -> S -> S) (s : S) : S :=
  match fuel with
  | O => s
  | Datatypes.S fuel' =>
    if Qle_bool hi m then s else for_fuel fuel' (m + 1) hi body (body m s)
  end.

(** The number of rounds the loop makes: [hi - lo] rounded up. *)
Definition rounds (lo hi : Q) : nat := Z.to_nat (Qceiling (hi - lo)).

Definition for_lt {S} (lo hi : Q) (body : Q -> S -> S) (s : S) : S :=
  for_fuel (rounds lo hi) lo hi body s.

(** A property read on an object literal whose keys are strings. *)
Fixpoint prop {A} (o : list (string * A)) (k : string) : option A :=
  match o with
  | [] => None
  | (k', v) :: o' => if String.eqb k' k then Some v else prop o' k
  end.

End Js.

(** ** src/objs/cursor.ts *)

Module CursorTs.
Import Babylon Js.

Definition CURSOR_NORMALS : list Vector3 := [
  Vec3 1 0 0;
  Vec3 (-1) 0 0;
  Vec3 0 1 0;
  Vec3 0 (-1) 0;
  Vec3 0 0 1;
  Vec3 0 0 (-1)
].

(** [position.copyFromFloats(Math.floor(position.x + 0.5), ...)] *)
Definition snap (p : Vector3) : Vector3 :=
  Vec3 (Math_floor (vx p + (1#2))) (Math_floor (vy p + (1#2)))
       (Math_floor (vz p + (1#2))).

(** The point and normal picked before snapping: the hit, or the ray
    continued to the ground with the normal pointing up. *)
Definition pickOrGround (ray : Ray) (pick : PickingInfo) : Vector3 * Vector3 :=
  if hit pick then (pickedPoint pick, getNormal pick)
  else (add (origin ray)
            (scale (direction ray) (- vy (origin ray) / vy (direction ray))),
        Vec3 0 1 0).

(** [getMousePickOnMesh]: the snapped position, and the entry of
    [CURSOR_NORMALS] chosen for the normal ([None] is [undefined]). *)
Definition getMousePickOnMesh {Mesh} (scene : Scene Mesh) (px py : Q)
    (filter : Mesh -> bool) : Vector3 * option Vector3 :=
  let ray := createPickingRay scene px py in
  let pick := pickWithRay scene ray filter in
  let '(position, normal) := pickOrGround ray pick in
  let position := snap position in
  let '(x, y, z) := (vx normal, vy normal, vz normal) in
  let max := Math_max3 (Qabs x) (Qabs y) (Qabs z) in
  let norm := indexOf [x; - x; y; - y; z; - z] max ≫= (CURSOR_NORMALS !!.) in
  (position, norm).

(** [getMousePickOnPlane] *)
Definition getMousePickOnPlane {Mesh} (scene : Scene Mesh) (px py : Q)
    (axis : Axis) (val : Q) : Vector3 :=
  let ray := createPickingRay scene px py in
  let scale_ := (val - coord (origin ray) axis) / coord (direction ray) axis in
  let position := add (origin ray) (scale (direction ray) scale_) in
  snap position.

Definition VECTOR_ONE : Vector3 := Vec3 1 1 1.
Definition VECTOR_HALF : Vector3 := Vec3 (1#2) (1#2) (1#2).

(** An entry of [DIRECTIONS]: rotation in quarter turns, delta, axis, and
    the order in which the scaling is read. *)
Definition DirEntry : Type := Vector3 * Vector3 * Axis * (Axis * Axis * Axis).

Definition DIRECTIONS : list (string * DirEntry) := [
  ("1/0/0",  (Vec3 0 0 (-1), Vec3 1 1 1,    AxisX, (AxisY, AxisX, AxisZ)));
  ("-1/0/0", (Vec3 0 0 1,    Vec3 (-1) 1 1, AxisX, (AxisY, AxisX, AxisZ)));
  ("0/1/0",  (Vec3 0 0 0,    Vec3 1 1 1,    AxisY, (AxisX, AxisY, AxisZ)));
  ("0/-1/0", (Vec3 0 0 (-2), Vec3 1 (-1) 1, AxisY, (AxisX, AxisY, AxisZ)));
  ("0/0/1",  (Vec3 1 0 0,    Vec3 1 1 1,    AxisZ, (AxisX, AxisZ, AxisY)));
  ("0/0/-1", (Vec3 (-1) 0 0, Vec3 1 1 (-1), AxisZ, (AxisX, AxisZ, AxisY)))
].

Record MouseEvent := { clientX : Q; clientY : Q }.

(** The fields of [Cursor] (with the mesh's own position, rotation and
    scaling; the rotation is kept in quarter turns, the source stores it
    times [Math.PI / 2]). *)
Record Cursor (Mesh : Type) := {
  scene : Scene Mesh;
  pickFilter : Mesh -> bool;
  offset : Q * Q;
  hover : Vector3;
  minimum : Vector3;
  maximum : Vector3;
  start : Vector3;
  _direction : string;
  _isKeyDown : bool;
  position : Vector3;
  rotation : Vector3;
  scaling : Vector3;
}.
Arguments scene {Mesh} _.
Arguments pickFilter {Mesh} _.
Arguments offset {Mesh} _.
Arguments hover {Mesh} _.
Arguments minimum {Mesh} _.
Arguments maximum {Mesh} _.
Arguments start {Mesh} _.
Arguments _direction {Mesh} _.
Arguments _isKeyDown {Mesh} _.
Arguments position {Mesh} _.
Arguments rotation {Mesh} _.
Arguments scaling {Mesh} _.

(** The cursor as its constructor leaves it. *)
Definition new_Cursor {Mesh} (sc : Scene Mesh) (filter : Mesh -> bool) : Cursor Mesh :=
  {| scene := sc; pickFilter := filter;
     offset := (0, 0);
     hover := Zero;
     minimum := Zero;
     maximum := Vec3 1 1 1;
     start := Zero;
     _direction := "";
     _isKeyDown := false;
     position := VECTOR_HALF;
     rotation := Zero;
     scaling := Vec3 1 1 1 |}.

(** A method of the cursor returns, or throws a [TypeError] on reading a
    property of [undefined]. *)
Abbreviation Outcome Mesh := (Completion (Cursor Mesh)).

Definition set_direction {Mesh} (c : Cursor Mesh) (d : string) : Cursor Mesh :=
  {| scene := scene c; pickFilter := pickFilter c; offset := offset c;
     hover := hover c; minimum := minimum c; maximum := maximum c;
     start := start c; _direction := d; _isKeyDown := _isKeyDown c;
     position := position c; rotation := rotation c; scaling := scaling c |}.

(** [updateFromPickTarget] *)
Definition updateFromPickTarget {Mesh} (c : Cursor Mesh) (evt : MouseEvent)
    : Outcome Mesh :=
  let '(position_, norm) :=
    getMousePickOnMesh (scene c) (clientX evt + fst (offset c))
                       (clientY evt + snd (offset c)) (pickFilter c) in
  match norm with
  | None => Threw c
  | Some norm =>
    let dir := join "/" [vx norm; vy norm; vz norm] in
    let c := set_direction c dir in
    match prop DIRECTIONS dir with
    | None => Threw c
    | Some (rot, delta, _, _) =>
      let start_ := Minimize position_ (add position_ delta) in
      Returned
        {| scene := scene c; pickFilter := pickFilter c; offset := offset c;
           hover := start_;
           minimum := start_;
           maximum := add start_ VECTOR_ONE;
           start := start_;
           _direction := dir; _isKeyDown := _isKeyDown c;
           position := add start_ VECTOR_HALF;
           rotation := rot;
           scaling := VECTOR_ONE |}
    end
  end.

(** [updateWithMouseDown] *)
Definition updateWithMouseDown {Mesh} (c : Cursor Mesh) (evt : MouseEvent)
    : Outcome Mesh :=
  match prop DIRECTIONS (_direction c) with
  | None => Threw c
  | Some (rot, delta, axis, (i, j, k)) =>
    let position_ :=
      getMousePickOnPlane (scene c) (clientX evt + fst (offset c))
                          (clientY evt + snd (offset c)) axis
                          (coord (start c) axis) in
    let minimum_ := Minimize (start c) position_ in
    let maximum_ := add (Maximize (start c) position_) VECTOR_ONE in
    let scaling_ := subtract maximum_ minimum_ in
    Returned
      {| scene := scene c; pickFilter := pickFilter c; offset := offset c;
         hover := position_;
         minimum := minimum_;
         maximum := maximum_;
         start := start c;
         _direction := _direction c; _isKeyDown := _isKeyDown c;
         position := scale (add minimum_ maximum_) (1#2);
         rotation := rotation c;
         scaling := Vec3 (coord scaling_ i) (coord scaling_ j) (coord scaling_ k) |}
  end.

(** [resetKeyDown], and the three listeners the constructor installs. *)
Definition set_isKeyDown {Mesh} (c : Cursor Mesh) (b : bool) : Cursor Mesh :=
  {| scene := scene c; pickFilter := pickFilter c; offset := offset c;
     hover := hover c; minimum := minimum c; maximum := maximum c;
     start := start c; _direction := _direction c; _isKeyDown := b;
     position := position c; rotation := rotation c; scaling := scaling c |}.

Definition onMouseDown {Mesh} (c : Cursor Mesh) (evt : MouseEvent) : Outcome Mesh :=
  match updateFromPickTarget c evt with
  | Returned c' => Returned (set_isKeyDown c' true)
  | Threw c' => Threw c'
  end.

Definition onMouseMove {Mesh} (c : Cursor Mesh) (evt : MouseEvent) : Outcome Mesh :=
  if _isKeyDown c then updateWithMouseDown c evt else updateFromPickTarget c evt.

Definition onMouseUp {Mesh} (c : Cursor Mesh) : Cursor Mesh := set_isKeyDown c false.

(** [cursor.offset.x = x; cursor.offset.y = y], as the editor does while the
    tool bar is dragged. *)
Definition set_offset {Mesh} (c : Cursor Mesh) (o : Q * Q) : Cursor Mesh :=
  {| scene := scene c; pickFilter := pickFilter c; offset := o;
     hover := hover c; minimum := minimum c; maximum := maximum c;
     start := start c; _direction := _direction c; _isKeyDown := _isKeyDown c;
     position := position c; rotation := rotation c; scaling := scaling c |}.

(** What happens to a cursor: the three listeners, and what the editor
    does to it from outside. *)
Inductive CursorEvent :=
| MouseDown (evt : MouseEvent)
| MouseMove (evt : MouseEvent)
| MouseUp
| PickTarget (evt : MouseEvent)          (* cursor.updateFromPickTarget(evt) *)
| SetOffset (o : Q * Q)
| ResetKeyDown.

Definition cursorStep {Mesh} (c : Cursor Mesh) (e : CursorEvent) : Cursor Mesh :=
  match e with
  | MouseDown evt => after (onMouseDown c evt)
  | MouseMove evt => after (onMouseMove c evt)
  | MouseUp => onMouseUp c
  | PickTarget evt => after (updateFromPickTarget c evt)
  | SetOffset o => set_offset c o
  | ResetKeyDown => set_isKeyDown c false
  end.

Definition cursorRun {Mesh} (es : list CursorEvent) (c : Cursor Mesh) : Cursor Mesh :=
  fold_left cursorStep es c.

(** *** Reading a cursor *)

(** A number that is an integer, a vector of integers. *)
Definition integral (x : Q) : Prop := exists z : Z, x == inject_Z z.

Definition integralV (v : Vector3) : Prop :=
  integral (vx v) /\ integral (vy v) /\ integral (vz v).

(** The corners are integers and the volume between them is at least one
    unit wide along every axis. *)
Definition wellFormed {Mesh} (c : Cursor Mesh) : Prop :=
  integralV (minimum c) /\ integralV (maximum c) /\ integralV (start c)
  /\ forall axis, coord (minimum c) axis + 1 <= coord (maximum c) axis.

(** *** The divisors *)

(** Whether the ray of an event meets the plane it is continued to.  A pick
    is continued to the ground when it hits no mesh: its ray must not be
    parallel to the ground.  A move while the mouse is down is continued to
    the drag plane of the direction, across [axis]: its ray must not be
    parallel to that plane.  These are the two divisors of the cursor. *)
Definition meetsGround {Mesh} (sc : Scene Mesh) (filter : Mesh -> bool)
    (o : Q * Q) (evt : MouseEvent) : bool :=
  let ray := createPickingRay sc (clientX evt + fst o) (clientY evt + snd o) in
  hit (pickWithRay sc ray filter) || negb (Qeq_bool (vy (direction ray)) 0).

Definition meetsPlane {Mesh} (sc : Scene Mesh) (o : Q * Q) (dir : string)
    (evt : MouseEvent) : bool :=
  let ray := createPickingRay sc (clientX evt + fst o) (clientY evt + snd o) in
  match prop DIRECTIONS dir with
  | Some (_, _, axis, _) => negb (Qeq_bool (coord (direction ray) axis) 0)
  | None => true
  end.

Definition meets {Mesh} (sc : Scene Mesh) (filter : Mesh -> bool) (o : Q * Q)
    (down : bool) (dir : string) (e : CursorEvent) : bool :=
  match e with
  | MouseDown evt | PickTarget evt => meetsGround sc filter o evt
  | MouseMove evt =>
    if down then meetsPlane sc o dir evt else meetsGround sc filter o evt
  | _ => true
  end.

Definition regular {Mesh} (c : Cursor Mesh) (e : CursorEvent) : bool :=
  meets (scene c) (pickFilter c) (offset c) (_isKeyDown c) (_direction c) e.

(** Every event of a run meets its plane, in the state it comes to. *)
Fixpoint regularRun {Mesh} (es : list CursorEvent) (c : Cursor Mesh) : bool :=
  match es with
  | [] => true
  | e :: es' => regular c e && regularRun es' (cursorStep c e)
  end.

End CursorTs.

(** ** Numbers that are not finite *)

Module Num.

(** A JavaScript number: a rational, an infinity, or NaN.  Rounding is not
    modelled, and a zero has no sign: it divides as the positive zero
    does. *)
Inductive number :=
| Fin (q : Q)
| PInf
| NInf
| NaN.

(** [- a] *)
Definition neg (a : number) : number :=
  match a with
  | Fin q => Fin (- q)
  | PInf => NInf
  | NInf => PInf
  | NaN => NaN
  end.

(** [a + b] *)
Definition add (a b : number) : number :=
  match a, b with
  | Fin x, Fin y => Fin (x + y)
  | NaN, _ | _, NaN => NaN
  | PInf, NInf | NInf, PInf => NaN
  | PInf, _ | _, PInf => PInf
  | NInf, _ | _, NInf => NInf
  end.

(** [a - b] *)
Definition sub (a b : number) : number :=
  match a, b with
  | Fin x, Fin y => Fin (x - y)
  | _, _ => add a (neg b)
  end.

(** An infinity times a finite number. *)
Definition signed (inf : number) (x : Q) : number :=
  match x ?= 0 with
  | Eq => NaN
  | Gt => inf
  | Lt => neg inf
  end.

(** [a * b] *)
Definition mul (a b : number) : number :=
  match a, b with
  | Fin x, Fin y => Fin (x * y)
  | NaN, _ | _, NaN => NaN
  | Fin x, inf => signed inf x
  | inf, Fin y => signed inf y
  | PInf, PInf | NInf, NInf => PInf
  | PInf, NInf | NInf, PInf => NInf
  end.

(** [a / b] *)
Definition div (a b : number) : number :=
  match a, b with
  | NaN, _ | _, NaN => NaN
  | Fin x, Fin y =>
    if Qeq_bool y 0 then signed PInf x else Fin (x / y)
  | Fin _, _ => Fin 0
  | inf, Fin y => match y ?= 0 with Lt => neg inf | _ => inf end
  | _, _ => NaN
  end.

(** [Math.floor(a)] *)
Definition floor (a : number) : number :=
  match a with
  | Fin q => Fin (Js.Math_floor q)
  | _ => a
  end.

(** [a < b] *)
Definition lt (a b : number) : bool :=
  match a, b with
  | NaN, _ | _, NaN => false
  | Fin x, Fin y => match x ?= y with Lt => true | _ => false end
  | NInf, NInf | PInf, _ | _, NInf => false
  | _, _ => true
  end.

(** [a <= b] *)
Definition le (a b : number) : bool :=
  match a, b with
  | NaN, _ | _, NaN => false
  | Fin x, Fin y => match x ?= y with Gt => false | _ => true end
  | NInf, _ | _, PInf => true
  | _, _ => false
  end.

(** A number that is an integer. *)
Definition integral (a : number) : Prop :=
  match a with
  | Fin q => CursorTs.integral q
  | _ => False
  end.

End Num.

(** ** src/objs/cursor.ts, with the numbers that are not finite *)

Module CursorNum.
Import Babylon Js Num.

(** A [Vector3] whose components are any numbers. *)
Record Vector := Vec { nx : number; ny : number; nz : number }.

Definition ofVector3 (v : Vector3) : Vector :=
  Vec (Fin (vx v)) (Fin (vy v)) (Fin (vz v)).

Definition coord (v : Vector) (a : Axis) : number :=
  match a with AxisX => nx v | AxisY => ny v | AxisZ => nz v end.

Definition add (a b : Vector) : Vector :=
  Vec (Num.add (nx a) (nx b)) (Num.add (ny a) (ny b)) (Num.add (nz a) (nz b)).

Definition subtract (a b : Vector) : Vector :=
  Vec (Num.sub (nx a) (nx b)) (Num.sub (ny a) (ny b)) (Num.sub (nz a) (nz b)).

Definition scale (a : Vector) (k : number) : Vector :=
  Vec (Num.mul (nx a) k) (Num.mul (ny a) k) (Num.mul (nz a) k).

(** [Vector3.Minimize(left, right)] and [Vector3.Maximize(left, right)], as
    the library has them: a component of [right] replaces the one of [left]
    when it is smaller (larger); when the two do not compare, the one of
    [left] stays. *)
Definition minimize (left right : number) : number :=
  if Num.lt right left then right else left.

Definition maximize (left right : number) : number :=
  if Num.lt left right then right else left.

Definition Minimize (a b : Vector) : Vector :=
  Vec (minimize (nx a) (nx b)) (minimize (ny a) (ny b)) (minimize (nz a) (nz b)).

Definition Maximize (a b : Vector) : Vector :=
  Vec (maximize (nx a) (nx b)) (maximize (ny a) (ny b)) (maximize (nz a) (nz b)).

(** [position.copyFromFloats(Math.floor(position.x + 0.5), ...)] *)
Definition snap (p : Vector) : Vector :=
  Vec (floor (Num.add (nx p) (Fin (1#2)))) (floor (Num.add (ny p) (Fin (1#2))))
      (floor (Num.add (nz p) (Fin (1#2)))).

(** The point and normal picked before snapping; the ray and what the
    scene picks are finite. *)
Definition pickOrGround (ray : Ray) (pick : PickingInfo) : Vector * Vector3 :=
  if hit pick then (ofVector3 (pickedPoint pick), getNormal pick)
  else (add (ofVector3 (origin ray))
            (scale (ofVector3 (direction ray))
                   (div (neg (Fin (vy (origin ray)))) (Fin (vy (direction ray))))),
        Vec3 0 1 0).

(** [getMousePickOnMesh] *)
Definition getMousePickOnMesh {Mesh} (scene : Scene Mesh) (px py : Q)
    (filter : Mesh -> bool) : Vector * option Vector3 :=
  let ray := createPickingRay scene px py in
  let pick := pickWithRay scene ray filter in
  let '(position, normal) := pickOrGround ray pick in
  let position := snap position in
  let '(x, y, z) := (vx normal, vy normal, vz normal) in
  let max := Math_max3 (Qabs x) (Qabs y) (Qabs z) in
  let norm :=
    indexOf [x; - x; y; - y; z; - z] max ≫= (CursorTs.CURSOR_NORMALS !!.) in
  (position, norm).

(** [getMousePickOnPlane] *)
Definition getMousePickOnPlane {Mesh} (scene : Scene Mesh) (px py : Q)
    (axis : Axis) (val : number) : Vector :=
  let ray := createPickingRay scene px py in
  let scale_ :=
    div (sub val (Fin (Babylon.coord (origin ray) axis)))
        (Fin (Babylon.coord (direction ray) axis)) in
  let position := add (ofVector3 (origin ray)) (scale (ofVector3 (direction ray)) scale_) in
  snap position.

Definition VECTOR_ONE : Vector := ofVector3 CursorTs.VECTOR_ONE.
Definition VECTOR_HALF : Vector := ofVector3 CursorTs.VECTOR_HALF.

(** The fields of [Cursor], as in [CursorTs]; the vectors that the updates
    write hold any numbers. *)
Record Cursor (Mesh : Type) := {
  scene : Scene Mesh;
  pickFilter : Mesh -> bool;
  offset : Q * Q;
  hover : Vector;
  minimum : Vector;
  maximum : Vector;
  start : Vector;
  _direction : string;
  _isKeyDown : bool;
  position : Vector;
  rotation : Vector3;
  scaling : Vector;
}.
Arguments scene {Mesh} _.
Arguments pickFilter {Mesh} _.
Arguments offset {Mesh} _.
Arguments hover {Mesh} _.
Arguments minimum {Mesh} _.
Arguments maximum {Mesh} _.
Arguments start {Mesh} _.
Arguments _direction {Mesh} _.
Arguments _isKeyDown {Mesh} _.
Arguments position {Mesh} _.
Arguments rotation {Mesh} _.
Arguments scaling {Mesh} _.


(** The cursor as its constructor leaves it. *)
Definition new_Cursor {Mesh} (sc : Scene Mesh) (filter : Mesh -> bool) : Cursor Mesh :=
  {| scene := sc; pickFilter := filter;
     offset := (0, 0);
     hover := ofVector3 Zero;
     minimum := ofVector3 Zero;
     maximum := ofVector3 (Vec3 1 1 1);
     start := ofVector3 Zero;
     _direction := "";
     _isKeyDown := false;
     position := VECTOR_HALF;
     rotation := Zero;
     scaling := ofVector3 (Vec3 1 1 1) |}.

Abbreviation Outcome Mesh := (Completion (Cursor Mesh)).

Definition set_direction {Mesh} (c : Cursor Mesh) (d : string) : Cursor Mesh :=
  {| scene := scene c; pickFilter := pickFilter c; offset := offset c;
     hover := hover c; minimum := minimum c; maximum := maximum c;
     start := start c; _direction := d; _isKeyDown := _isKeyDown c;
     position := position c; rotation := rotation c; scaling := scaling c |}.

(** [updateFromPickTarget] *)
Definition updateFromPickTarget {Mesh} (c : Cursor Mesh) (evt : CursorTs.MouseEvent)
    : Outcome Mesh :=
  let '(position_, norm) :=
    getMousePickOnMesh (scene c) (CursorTs.clientX evt + fst (offset c))
                       (CursorTs.clientY evt + snd (offset c)) (pickFilter c) in
  match norm with
  | None => Threw c
  | Some norm =>
    let dir := join "/" [vx norm; vy norm; vz norm] in
    let c := set_direction c dir in
    match prop CursorTs.DIRECTIONS dir with
    | None => Threw c
    | Some (rot, delta, _, _) =>
      let start_ := Minimize position_ (add position_ (ofVector3 delta)) in
      Returned
        {| scene := scene c; pickFilter := pickFilter c; offset := offset c;
           hover := start_;
           minimum := start_;
           maximum := add start_ VECTOR_ONE;
           start := start_;
           _direction := dir; _isKeyDown := _isKeyDown c;
           position := add start_ VECTOR_HALF;
           rotation := rot;
           scaling := VECTOR_ONE |}
    end
  end.

(** [updateWithMouseDown] *)
Definition updateWithMouseDown {Mesh} (c : Cursor Mesh) (evt : CursorTs.MouseEvent)
    : Outcome Mesh :=
  match prop CursorTs.DIRECTIONS (_direction c) with
  | None => Threw c
  | Some (rot, delta, axis, (i, j, k)) =>
    let position_ :=
      getMousePickOnPlane (scene c) (CursorTs.clientX evt + fst (offset c))
                          (CursorTs.clientY evt + snd (offset c)) axis
                          (coord (start c) axis) in
    let minimum_ := Minimize (start c) position_ in
    let maximum_ := add (Maximize (start c) position_) VECTOR_ONE in
    let scaling_ := subtract maximum_ minimum_ in
    Returned
      {| scene := scene c; pickFilter := pickFilter c; offset := offset c;
         hover := position_;
         minimum := minimum_;
         maximum := maximum_;
         start := start c;
         _direction := _direction c; _isKeyDown := _isKeyDown c;
         position := scale (add minimum_ maximum_) (Fin (1#2));
         rotation := rotation c;
         scaling := Vec (coord scaling_ i) (coord scaling_ j) (coord scaling_ k) |}
  end.

Definition set_isKeyDown {Mesh} (c : Cursor Mesh) (b : bool) : Cursor Mesh :=
  {| scene := scene c; pickFilter := pickFilter c; offset := offset c;
     hover := hover c; minimum := minimum c; maximum := maximum c;
     start := start c; _direction := _direction c; _isKeyDown := b;
     position := position c; rotation := rotation c; scaling := scaling c |}.

Definition onMouseDown {Mesh} (c : Cursor Mesh) (evt : CursorTs.MouseEvent)
    : Outcome Mesh :=
  match updateFromPickTarget c evt with
  | Returned c' => Returned (set_isKeyDown c' true)
  | Threw c' => Threw c'
  end.

Definition onMouseMove {Mesh} (c : Cursor Mesh) (evt : CursorTs.MouseEvent)
    : Outcome Mesh :=
  if _isKeyDown c then updateWithMouseDown c evt else updateFromPickTarget c evt.

Definition onMouseUp {Mesh} (c : Cursor Mesh) : Cursor Mesh := set_isKeyDown c false.

Definition set_offset {Mesh} (c : Cursor Mesh) (o : Q * Q) : Cursor Mesh :=
  {| scene := scene c; pickFilter := pickFilter c; offset := o;
     hover := hover c; minimum := minimum c; maximum := maximum c;
     start := start c; _direction := _direction c; _isKeyDown := _isKeyDown c;
     position := position c; rotation := rotation c; scaling := scaling c |}.

Definition cursorStep {Mesh} (c : Cursor Mesh) (e : CursorTs.CursorEvent) : Cursor Mesh :=
  match e with
  | CursorTs.MouseDown evt => after (onMouseDown c evt)
  | CursorTs.MouseMove evt => after (onMouseMove c evt)
  | CursorTs.MouseUp => onMouseUp c
  | CursorTs.PickTarget evt => after (updateFromPickTarget c evt)
  | CursorTs.SetOffset o => set_offset c o
  | CursorTs.ResetKeyDown => set_isKeyDown c false
  end.

Definition cursorRun {Mesh} (es : list CursorTs.CursorEvent) (c : Cursor Mesh)
    : Cursor Mesh :=
  fold_left cursorStep es c.

(** *** Reading a cursor *)

(** The ray of an event meets the plane it is continued to, and so for
    every event of a run, as [CursorTs.regular] and [CursorTs.regularRun]. *)
Definition regular {Mesh} (c : Cursor Mesh) (e : CursorTs.CursorEvent) : bool :=
  CursorTs.meets (scene c) (pickFilter c) (offset c) (_isKeyDown c) (_direction c) e.

Fixpoint regularRun {Mesh} (es : list CursorTs.CursorEvent) (c : Cursor Mesh) : bool :=
  match es with
  | [] => true
  | e :: es' => regular c e && regularRun es' (cursorStep c e)
  end.

Definition integralV (v : Vector) : Prop :=
  integral (nx v) /\ integral (ny v) /\ integral (nz v).

(** The corners are integers and the volume between them is at least one
    unit wide along every axis. *)
Definition wellFormed {Mesh} (c : Cursor Mesh) : Prop :=
  integralV (minimum c) /\ integralV (maximum c) /\ integralV (start c)
  /\ forall axis,
       le (Num.add (coord (minimum c) axis) (Fin 1)) (coord (maximum c) axis) = true.

End CursorNum.

(** ** src/index.ts, the editor: object manager and rectangle brush *)

Module Editor.
Import Babylon Js.

(** An entry of [assets.classes] (the constructor and the icon are left
    to the scene). *)
Record ClassDef := { clsId : Q; clsName : string; args : Args }.

(** A mesh of the scene, as far as the object manager looks at it: [uid]
    stands for the identity of the JavaScript object.  The name is a string
    as long as no argument has replaced it. *)
Record SceneMesh := {
  uid : nat;
  name : jsval;
  mesh_position : Vector3;
  props : Args;                 (* what Object.assign(object, args) wrote *)
  isObject : bool;              (* carries the tag TAGS.object *)
}.

(** An entry of [map.objectsData]; [create] writes no coordinates. *)
Record SavedObject := {
  so_clsId : Q;
  so_args : Args;
  so_xyz : option Vector3;
}.

Record World := {
  meshes : list SceneMesh;                 (* the meshes of the scene *)
  nextUid : nat;
  objectsData : gmap string SavedObject;   (* map.objectsData *)
  selectedObject : option nat;             (* the selected mesh, if any *)
  console : list string;                   (* what console.warn printed *)
}.

(** [assets.classes.find(c => c.clsId === clsId)] *)
Definition findClass (classes : list ClassDef) (id : Q) : option ClassDef :=
  find (fun c => Qeq_bool (clsId c) id) classes.

(** [mesh.name === id] *)
Definition named (id : string) (m : SceneMesh) : bool :=
  match name m with
  | JStr s => String.eqb s id
  | _ => false
  end.

(** [scene.getMeshByName(id)] *)
Definition getMeshByName (w : World) (id : string) : option SceneMesh :=
  find (named id) (meshes w).

(** [objectManager.destroy] *)
Definition destroy (id : string) (w : World) : World :=
  let w1 :=
    match getMeshByName w id with
    | Some object =>
      {| meshes := filter (fun m => uid m ≠ uid object) (meshes w);
         nextUid := nextUid w;
         objectsData := objectsData w;
         selectedObject :=
           if decide (selectedObject w = Some (uid object)) then None
           else selectedObject w;
         console := console w |}
    | None => w
    end in
  {| meshes := meshes w1; nextUid := nextUid w1;
     objectsData := delete id (objectsData w1);
     selectedObject := selectedObject w1; console := console w1 |}.

Definition warning (id : Q) (object : string) : string :=
  "class " +:+ Number_toString id +:+ " is not found! ignoring object #" +:+ object.

(** [objectManager.create]; [restoreArgs] is empty when it is left out.
    The mesh is made with the name [id] and put at [position]; then
    [Object.assign(object, args)] writes the arguments on it, and an
    argument [name] replaces its name.  (An argument [position] would
    replace the position by a value that is no vector, and an argument
    [dispose] the method that [destroy] calls: the model has no such
    meshes, and what is stated of a mesh that [create] made is stated for
    arguments that are [plain].) *)
Definition create (classes : list ClassDef) (id : string) (clsId_ : Q)
    (position : Vector3) (restoreArgs : Args) (w : World) : Completion World :=
  let w := destroy id w in
  match findClass classes clsId_ with
  | Some clsFound =>
    let args_ := Object_assign (args clsFound) restoreArgs in
    let object :=
      {| uid := nextUid w; name := default (JStr id) (args_ !! "name");
         mesh_position := position;
         props := args_; isObject := true |} in
    Returned
      {| meshes := meshes w ++ [object];
         nextUid := S (nextUid w);
         objectsData :=
           <[id := {| so_clsId := clsId_; so_args := args_; so_xyz := None |}]>
             (objectsData w);
         selectedObject := Some (uid object);
         console := console w |}
  | None =>
    Returned
      {| meshes := meshes w; nextUid := nextUid w;
         objectsData := objectsData w;
         selectedObject := selectedObject w;
         console := console w ++ [warning clsId_ id] |}
  end.

(** *** The rectangle brush (shift and drag) *)

Record Pixel := { t : jsval; h : jsval }.

Inductive Action :=
| SetPixelAction (m n : Q) (pixel : Pixel).

(** Modelled from the spec: the editor history of [./editor/history],
    which is not among the sources.  A push joins the pending batch and
    drops what could be redone; a commit moves a pending batch that is
    not empty onto the stack of batches to undo. *)
Record EditorHistory := {
  pending : list Action;
  undone : list (list Action);
  redone : list (list Action);
}.

Definition push (a : Action) (hist : EditorHistory) : EditorHistory :=
  {| pending := pending hist ++ [a]; undone := undone hist; redone := [] |}.

Definition commit (hist : EditorHistory) : EditorHistory :=
  match pending hist with
  | [] => hist
  | batch => {| pending := []; undone := batch :: undone hist; redone := [] |}
  end.

(** [h && maximum.y - 1 + parseInt(h)]: an empty [h] is handed on as it is. *)
Definition flatHeight (maximum_y : Q) (h_ : string) : jsval :=
  if String.eqb h_ "" then JStr ""
  else match parseInt h_ with
       | Some k => JNum (maximum_y - 1 + inject_Z k)
       | None => JNaN
       end.

(** The handler for the end of a shift-drag, up to its commit: [h_] is
    [ui.selectedTilePixel.h]. *)
Definition rectangle_fill {Mesh} (cursor : CursorTs.Cursor Mesh) (h_ : string)
    (selectedPixel : Pixel) (editorHistory : EditorHistory) : EditorHistory :=
  let minimum := CursorTs.minimum cursor in
  let maximum := CursorTs.maximum cursor in
  let pixel := {| t := t selectedPixel; h := flatHeight (vy maximum) h_ |} in
  for_lt (vx minimum) (vx maximum) (fun m hist =>
    for_lt (vz minimum) (vz maximum) (fun n hist =>
      push (SetPixelAction m n pixel) hist) hist)
    editorHistory.

Definition rectangle_onUp {Mesh} (cursor : CursorTs.Cursor Mesh) (h_ : string)
    (selectedPixel : Pixel) (editorHistory : EditorHistory) : EditorHistory :=
  commit (rectangle_fill cursor h_ selectedPixel editorHistory).

(** *** Reading the history *)

(** The values that the counter of a loop takes: [m], [m + 1], ... *)
Fixpoint counts (n : nat) (m : Q) : list Q :=
  match n with
  | O => []
  | S n' => m :: counts n' (m + 1)
  end.

(** The cells between two corners, column by column, each with [pixel]. *)
Definition cells (minimum maximum : Vector3) (pixel : Pixel) : list Action :=
  m ← counts (rounds (vx minimum) (vx maximum)) (vx minimum);
  n ← counts (rounds (vz minimum) (vz maximum)) (vz minimum);
  [SetPixelAction m n pixel].

End Editor.

(** ** src/index.ts, the game: stages and the stage manager *)

Module Game.
Import Babylon Js.

(** An entry of [opts.classes]: the class tells whether its objects have
    the hooks of [ObjectPlayListener]. *)
Record ClassDef := {
  clsId : Q;
  startPlaying : bool;
  stopPlaying : bool;
  args : Args;
}.

Record StageOptions := { classes : list ClassDef }.

(** The saved map that [fetch(url)] delivers; the objects come in the
    order of [Object.keys]. *)
Record ObjData := {
  od_clsId : Q;
  od_x : Q;
  od_y : Q;
  od_z : Q;
  od_args : Args;
}.

Record SavedMap := {
  chunksData : list (string * list Q);
  objectsData : list (string * ObjData);
}.

Record ObjectBase := {
  name : string;                (* the id it was made with *)
  obj_position : Vector3;
  props : Args;
  hasStartPlaying : bool;
  hasStopPlaying : bool;
}.

Record Chunks := {
  ch_name : string;
  ch_data : list (string * list Q);
  ch_position : Vector3;
}.

Record Stage := {
  url : string;
  position : Vector3;
  chunks : Chunks;
  objects : list ObjectBase;
}.

(** What a stage does to the world outside. *)
Inductive Effect :=
| EFetch (url : string)
| EWarn (msg : string)
| ENewChunks (name : string)
| ENewObject (id : string)
| EStartPlaying (id : string)
| EStopPlaying (id : string)
| EDisposeObject (id : string)
| EDisposeChunks (name : string).

(** [s.split(sep)] for a separator of one character *)
Fixpoint split (sep : ascii) (s : string) : list string :=
  match s with
  | EmptyString => [EmptyString]
  | String a s' =>
    if Ascii.eqb a sep then EmptyString :: split sep s'
    else match split sep s' with
         | p :: ps => String a p :: ps
         | [] => [String a EmptyString]
         end
  end.

(** [url.split('.').slice(-2).shift()] *)
Definition stageName (url_ : string) : string :=
  let parts := split "." url_ in
  default EmptyString (head (drop (length parts - 2) parts)).

Definition isEntry (od : ObjData) : bool :=
  match od_args od !! "editorSingletonId" with
  | Some (JStr s) => String.eqb s "stage/entry"
  | _ => false
  end.

(** [args.offsetY || 0], for an [offsetY] that is a number or is left out
    (what is added to [y] else, as a text that is appended to it, is not
    modelled). *)
Definition offsetY (a : Args) : Q :=
  match a !! "offsetY" with
  | Some (JNum y) => y
  | _ => 0
  end.

Definition entryPosition (position_ : Vector3) (map : SavedMap) : Vector3 :=
  match find (fun e => isEntry (snd e)) (objectsData map) with
  | Some (entryId, od) =>
    if String.eqb entryId "" then position_
    else subtract position_
           (Vec3 (Math_floor (od_x od))
                 (Math_floor (od_y od + offsetY (od_args od)))
                 (Math_floor (od_z od)))
  | None => position_
  end.

Definition findClass (opts : StageOptions) (id : Q) : option ClassDef :=
  find (fun c => Qeq_bool (clsId c) id) (classes opts).

Definition warning (id : Q) (object : string) : string :=
  "class " +:+ Number_toString id +:+ " is not found! ignoring object #" +:+ object.

(** The body of the loop over [Object.keys(map.objectsData)]. *)
Definition createObject (opts : StageOptions) (entry : Vector3)
    (st : list ObjectBase * list Effect) (e : string * ObjData)
    : list ObjectBase * list Effect :=
  let '(objects_, tr) := st in
  let '(id, objData) := e in
  match findClass opts (od_clsId objData) with
  | Some clsFound =>
    let object :=
      {| name := id;
         obj_position :=
           add (Vec3 (od_x objData) (od_y objData) (od_z objData)) entry;
         props := Object_assign (args clsFound) (od_args objData);
         hasStartPlaying := startPlaying clsFound;
         hasStopPlaying := stopPlaying clsFound |} in
    (objects_ ++ [object], tr ++ [ENewObject id])
  | None => (objects_, tr ++ [EWarn (warning (od_clsId objData) id)])
  end.

(** [new Stage(url, position, map, opts)]: the stage, and the trace
    continued. *)
Definition new_Stage (url_ : string) (position_ : Vector3) (map : SavedMap)
    (opts : StageOptions) (tr : list Effect) : Stage * list Effect :=
  let entry := entryPosition position_ map in
  let name_ := stageName url_ in
  let chunks_ :=
    {| ch_name := name_; ch_data := chunksData map; ch_position := entry |} in
  let tr := tr ++ [ENewChunks name_] in
  let '(objects_, tr) :=
    fold_left (createObject opts entry) (objectsData map) ([], tr) in
  let tr :=
    fold_left (fun tr object =>
                 if hasStartPlaying object
                 then tr ++ [EStartPlaying (name object)] else tr)
              objects_ tr in
  ({| url := url_; position := position_; chunks := chunks_;
      objects := objects_ |}, tr).

(** [Stage.dispose] *)
Definition Stage_dispose (stage : Stage) (tr : list Effect) : list Effect :=
  let tr :=
    fold_left (fun tr object =>
                 if hasStopPlaying object
                 then tr ++ [EStopPlaying (name object)] else tr)
              (objects stage) tr in
  let tr :=
    fold_left (fun tr object => tr ++ [EDisposeObject (name object)])
              (objects stage) tr in
  tr ++ [EDisposeChunks (ch_name (chunks stage))].

(** *** The stage manager *)

(** A call of [loadFromURL] in the queue; its ticket tells the calls
    apart. *)
Record Job := { ticket : nat; job_url : string; job_position : Vector3 }.

Inductive Settled :=
| Resolved (url : string)
| Rejected.

(** The manager ([stages], [isDisposed]), its queue ([running] is the
    [doLoad] that waits for its fetch, [waiting] the calls behind it), the
    static [_oldestURL] with the local storage, and what has been observed
    so far: the effects, and how each call of [loadFromURL] ended. *)
Record World := {
  stages : list Stage;
  isDisposed : bool;
  running : option Job;
  waiting : list Job;
  _oldestURL : string;
  localStorage : gmap string string;
  trace : list Effect;
  settled : list (nat * Settled);
  calls : nat;
}.

(** The static initialiser and the fields of a new manager. *)
Definition new_StageManager (storage : gmap string string) : World :=
  {| stages := []; isDisposed := false;
     running := None; waiting := [];
     _oldestURL := default EmptyString (storage !! "stage-oldest-url");
     localStorage := storage;
     trace := []; settled := []; calls := O |}.

Definition matches (url_ : string) (position_ : Vector3) (stage : Stage) : bool :=
  String.eqb (url stage) url_ && equals (position stage) position_.

(** [this.stages.find(stage => ...)] *)
Definition findStage (w : World) (url_ : string) (position_ : Vector3)
    : option Stage :=
  find (matches url_ position_) (stages w).

(** [doLoad] after [await fetch(url)] has delivered [map]: the part
    guarded by [!this.isDisposed]. *)
Definition doLoad_loaded (opts : StageOptions) (url_ : string)
    (position_ : Vector3) (map : SavedMap) (w : World) : World :=
  if isDisposed w then w
  else
    let '(stage, tr) := new_Stage url_ position_ map opts (trace w) in
    let pushed := stages w ++ [stage] in
    let '(stages_, tr) :=
      match pushed with
      | oldest :: rest =>
        if (2 <? length pushed)%nat then (rest, Stage_dispose oldest tr)
        else (pushed, tr)
      | [] => (pushed, tr)
      end in
    match stages_ with
    | first :: _ =>
      {| stages := stages_; isDisposed := isDisposed w;
         running := running w; waiting := waiting w;
         _oldestURL := url first;
         localStorage := <["stage-oldest-url" := url first]> (localStorage w);
         trace := tr; settled := settled w; calls := calls w |}
    | [] =>
      {| stages := stages_; isDisposed := isDisposed w;
         running := running w; waiting := waiting w;
         _oldestURL := _oldestURL w; localStorage := localStorage w;
         trace := tr; settled := settled w; calls := calls w |}
    end.

Definition settle (j : Job) (r : Settled) (w : World) : World :=
  {| stages := stages w; isDisposed := isDisposed w;
     running := running w; waiting := waiting w;
     _oldestURL := _oldestURL w; localStorage := localStorage w;
     trace := trace w; settled := settled w ++ [(ticket j, r)];
     calls := calls w |}.

(** Modelled from the spec: [queue()] of [./utils], which is not among
    the sources; a single-flight sequential queue, the calls are served
    one at a time in the order they came.  [startJobs js w] starts the
    jobs [js] while none is running: a [doLoad] that finds its stage
    returns at once, the first that does not issues its fetch and waits. *)
Fixpoint startJobs (js : list Job) (w : World) : World :=
  match js with
  | [] =>
    {| stages := stages w; isDisposed := isDisposed w;
       running := None; waiting := [];
       _oldestURL := _oldestURL w; localStorage := localStorage w;
       trace := trace w; settled := settled w; calls := calls w |}
  | j :: rest =>
    match findStage w (job_url j) (job_position j) with
    | Some _ => startJobs rest (settle j (Resolved (job_url j)) w)
    | None =>
      {| stages := stages w; isDisposed := isDisposed w;
         running := Some j; waiting := rest;
         _oldestURL := _oldestURL w; localStorage := localStorage w;
         trace := trace w ++ [EFetch (job_url j)];
         settled := settled w; calls := calls w |}
    end
  end.

(** [loadFromURL]: the call joins the queue. *)
Definition loadFromURL (url_ : string) (position_ : Vector3) (w : World) : World :=
  let j := {| ticket := calls w; job_url := url_; job_position := position_ |} in
  let w' :=
    {| stages := stages w; isDisposed := isDisposed w;
       running := running w; waiting := waiting w ++ [j];
       _oldestURL := _oldestURL w; localStorage := localStorage w;
       trace := trace w; settled := settled w; calls := S (calls w) |} in
  match running w' with
  | Some _ => w'
  | None => startJobs (waiting w') w'
  end.

(** What [loadFromLoader] reads from a [StageLoader]. *)
Record StageLoader := {
  stageURL : string;
  loader_position : Vector3;
  loader_offsetY : Q;
}.

Definition loadFromLoader (loader : StageLoader) (w : World) : World :=
  let p := loader_position loader in
  loadFromURL (stageURL loader)
    (Vec3 (Math_floor (vx p)) (Math_floor (vy p + loader_offsetY loader))
          (Math_floor (vz p))) w.

(** The fetch of the running [doLoad] settles: with a map, or with a
    failure that rejects the call.  The queue then goes on. *)
Definition fetchSettled (opts : StageOptions) (r : option SavedMap) (w : World)
    : World :=
  match running w with
  | None => w
  | Some j =>
    let w1 :=
      match r with
      | Some map =>
        settle j (Resolved (job_url j))
               (doLoad_loaded opts (job_url j) (job_position j) map w)
      | None => settle j Rejected w
      end in
    startJobs (waiting w1) w1
  end.

(** [StageManager.dispose] *)
Definition dispose (w : World) : World :=
  {| stages := stages w; isDisposed := true;
     running := running w; waiting := waiting w;
     _oldestURL := _oldestURL w; localStorage := localStorage w;
     trace := fold_left (fun tr stage => Stage_dispose stage tr) (stages w) (trace w);
     settled := settled w; calls := calls w |}.

(** What can happen to a manager, in any order. *)
Inductive Event :=
| CallLoadFromURL (url : string) (position : Vector3)
| CallLoadFromLoader (loader : StageLoader)
| FetchSettled (r : option SavedMap)
| CallDispose.

Definition step (opts : StageOptions) (w : World) (e : Event) : World :=
  match e with
  | CallLoadFromURL u p => loadFromURL u p w
  | CallLoadFromLoader l => loadFromLoader l w
  | FetchSettled r => fetchSettled opts r w
  | CallDispose => dispose w
  end.

Definition run (opts : StageOptions) (es : list Event) (w : World) : World :=
  fold_left (step opts) es w.

(** *** Reading a trace *)

(** The calls of the hooks and the releases that [Stage.dispose] makes. *)
Definition stopHooks (stage : Stage) : list Effect :=
  (fun o => EStopPlaying (name o)) <$> List.filter hasStopPlaying (objects stage).

Definition releases (stage : Stage) : list Effect :=
  ((fun o => EDisposeObject (name o)) <$> objects stage)
  ++ [EDisposeChunks (ch_name (chunks stage))].

Definition isStop (e : Effect) : bool :=
  match e with EStopPlaying _ => true | _ => false end.

Definition isRelease (e : Effect) : bool :=
  match e with EDisposeObject _ | EDisposeChunks _ => true | _ => false end.

(** An entry of the saved map whose class is registered. *)
Definition known (opts : StageOptions) (e : string * ObjData) : bool :=
  match findClass opts (od_clsId (snd e)) with Some _ => true | None => false end.

(** The effects that only the constructor of a stage has. *)
Definition isConstruction (e : Effect) : bool :=
  match e with
  | ENewChunks _ | ENewObject _ | EStartPlaying _ => true
  | _ => false
  end.

Definition isFetch (e : Effect) : bool :=
  match e with EFetch _ => true | _ => false end.

Definition fetches (w : World) : nat := length (List.filter isFetch (trace w)).

(** *** Reading the queue *)

(** The tickets in use are below the number of calls made. *)
Definition ticketed (w : World) : Prop :=
  (forall j, running w = Some j -> (ticket j < calls w)%nat)
  /\ Forall (fun j => (ticket j < calls w)%nat) (waiting w)
  /\ Forall (fun s => (s.1 < calls w)%nat) (settled w).

(** An event that neither disposes the manager nor is a fetch that fails. *)
Definition live (e : Event) : bool :=
  match e with
  | CallDispose | FetchSettled None => false
  | _ => true
  end.

Definition isFetchSettled (e : Event) : bool :=
  match e with FetchSettled _ => true | _ => false end.

(** A call for (url, position) with the ticket [t]; a pair of calls has
    the tickets [t] and [t + 1], and [other t] is a call that is not of it. *)
Definition pairJob (u : string) (p : Vector3) (t : nat) : Job :=
  {| ticket := t; job_url := u; job_position := p |}.

Definition other (t : nat) (j : Job) : Prop := ticket j <> t /\ ticket j <> S t.

Definition unsettled (t : nat) (w : World) : Prop :=
  Forall (fun s => s.1 <> t /\ s.1 <> S t) (settled w).

Definition bothResolved (u : string) (t : nat) (w : World) : Prop :=
  (t, Resolved u) ∈ settled w /\ (S t, Resolved u) ∈ settled w
  /\ Forall (fun s => s.1 = t \/ s.1 = S t -> s.2 = Resolved u) (settled w).

(** Where the pair whose first call has the ticket [t] is in the queue:
    both calls wait, behind the running call and at most [n - 2] others; or
    the first is the running call, no stage matching, and the second waits
    right behind it; or both are resolved with the url, and out of the
    queue. *)
Definition served (u : string) (p : Vector3) (t : nat) (n : nat) (w : World) : Prop :=
  isDisposed w = false /\ (S t < calls w)%nat
  /\ ((exists j0 ws1 ws2,
         running w = Some j0 /\ waiting w = ws1 ++ pairJob u p t :: pairJob u p (S t) :: ws2
         /\ other t j0 /\ Forall (other t) ws1 /\ Forall (other t) ws2
         /\ unsettled t w /\ (length ws1 + 2 <= n)%nat)
      \/ (exists ws2,
            running w = Some (pairJob u p t) /\ waiting w = pairJob u p (S t) :: ws2
            /\ Forall (other t) ws2 /\ unsettled t w /\ (1 <= n)%nat
            /\ findStage w u p = None)
      \/ ((forall j, running w = Some j -> other t j)
          /\ Forall (other t) (waiting w) /\ bothResolved u t w)).

End Game.

(** ** Sample data *)

Module Samples.
Import Babylon Js.

(** Two classes, the first with the play hooks; the class 7 of [orphan] is
    not registered. *)
Definition door : Game.ClassDef :=
  {| Game.clsId := 1; Game.startPlaying := true; Game.stopPlaying := true;
     Game.args := ∅ |}.

Definition tree : Game.ClassDef :=
  {| Game.clsId := 2; Game.startPlaying := false; Game.stopPlaying := false;
     Game.args := ∅ |}.

Definition opts : Game.StageOptions := {| Game.classes := [door; tree] |}.

Definition object (cls : Q) : Game.ObjData :=
  {| Game.od_clsId := cls; Game.od_x := 1; Game.od_y := 2; Game.od_z := 3;
     Game.od_args := ∅ |}.

Definition map : Game.SavedMap :=
  {| Game.chunksData := [];
     Game.objectsData := [("o1", object 1); ("o2", object 2); ("orphan", object 7)] |}.

(** The stage built from [map] for a url. *)
Definition stageOf (url : string) : Game.Stage :=
  (Game.new_Stage url Zero map opts []).1.

(** A manager with the stages of [a.json] and [b.json], at rest. *)
Definition twoStages : Game.World :=
  Game.run opts
    [Game.CallLoadFromURL "a.json" Zero; Game.FetchSettled (Some map);
     Game.CallLoadFromURL "b.json" Zero; Game.FetchSettled (Some map)]
    (Game.new_StageManager ∅).

(** The same manager after the load of [c.json]. *)
Definition thirdLoaded : Game.World :=
  Game.run opts
    [Game.CallLoadFromURL "c.json" Zero; Game.FetchSettled (Some map)]
    twoStages.

(** Two calls for [a.json] on a new manager that is disposed before the
    first fetch comes back. *)
Definition disposedMeanwhile : Game.World :=
  Game.run opts
    [Game.CallLoadFromURL "a.json" Zero; Game.CallLoadFromURL "a.json" Zero;
     Game.CallDispose;
     Game.FetchSettled (Some map); Game.FetchSettled (Some map)]
    (Game.new_StageManager ∅).

(** A scene with nothing to hit: the camera looks down from height 10,
    along (1/10, -2, 0). *)
Definition emptyScene : Scene unit :=
  {| createPickingRay := fun px py =>
       {| origin := Vec3 px 10 py; direction := Vec3 (1#10) (-2) 0 |};
     pickWithRay := fun _ _ =>
       {| hit := false; pickedPoint := Zero; getNormal := Zero |} |}.

(** A cursor on it, after the mouse went down at (3/10, 1/5). *)
Definition pressed : CursorTs.Cursor unit :=
  CursorTs.cursorRun
    [CursorTs.MouseDown {| CursorTs.clientX := 3#10; CursorTs.clientY := 1#5 |}]
    (CursorTs.new_Cursor emptyScene (fun _ => true)).

(** The same cursor dragged to (-21/10, 4). *)
Definition dragTo : CursorTs.MouseEvent :=
  {| CursorTs.clientX := -21#10; CursorTs.clientY := 4 |}.

Definition dragged : CursorTs.Cursor unit :=
  CursorTs.cursorRun [CursorTs.MouseMove dragTo] pressed.



(** The editor with one class and one object of it, selected. *)
Definition editorClasses : list Editor.ClassDef :=
  [{| Editor.clsId := 1; Editor.clsName := "door"; Editor.args := ∅ |}].

Definition editorWorld : Editor.World :=
  after (Editor.create editorClasses "object/door/1" 1 Zero ∅
           {| Editor.meshes := []; Editor.nextUid := O; Editor.objectsData := ∅;
              Editor.selectedObject := None; Editor.console := [] |}).

Definition emptyHistory : Editor.EditorHistory :=
  {| Editor.pending := []; Editor.undone := []; Editor.redone := [] |}.

Definition grass : Editor.Pixel := {| Editor.t := JNum 3; Editor.h := JNum 0 |}.

End Samples.

(** ** Reading a cursor, continued *)

Module CursorReading.
Import Babylon Js CursorTs.

(** Two vectors of the same numbers. *)
Definition sameV (a b : Vector3) : Prop :=
  vx a == vx b /\ vy a == vy b /\ vz a == vz b.

Definition dot (a b : Vector3) : Q := vx a * vx b + vy a * vy b + vz a * vz b.

(** The corners are those of the box between the start and the point
    hovered over, grown by one unit. *)
Definition spanned {Mesh} (c : Cursor Mesh) : Prop :=
  sameV (minimum c) (Minimize (start c) (hover c))
  /\ sameV (maximum c) (add (Maximize (start c) (hover c)) VECTOR_ONE).

(** The direction of the cursor is a key of [DIRECTIONS]. *)
Definition directed {Mesh} (c : Cursor Mesh) : Prop :=
  is_Some (prop DIRECTIONS (_direction c)).

(** While the mouse is down, the cursor has a direction. *)
Definition armed {Mesh} (c : Cursor Mesh) : Prop :=
  _isKeyDown c = true -> directed c.





End CursorReading.

(** ** Reading a stage and a trace, continued *)

Module GameReading.
Import Babylon Js Game.

(** The object that the constructor of a stage makes of an entry of the
    saved map, if its class is registered. *)
Definition objectOf (opts : StageOptions) (entry : Vector3) (e : string * ObjData)
    : option ObjectBase :=
  match findClass opts (od_clsId (snd e)) with
  | Some clsFound =>
    Some {| name := fst e;
            obj_position :=
              add (Vec3 (od_x (snd e)) (od_y (snd e)) (od_z (snd e))) entry;
            props := Object_assign (args clsFound) (od_args (snd e));
            hasStartPlaying := startPlaying clsFound;
            hasStopPlaying := stopPlaying clsFound |}
  | None => None
  end.

(** What the constructor does for an entry: it makes the object or warns. *)
Definition entryEffect (opts : StageOptions) (e : string * ObjData) : Effect :=
  match findClass opts (od_clsId (snd e)) with
  | Some _ => ENewObject (fst e)
  | None => EWarn (warning (od_clsId (snd e)) (fst e))
  end.

(** The calls of [startPlaying] for the objects of a stage. *)
Definition startHooks (stage : Stage) : list Effect :=
  (fun o => EStartPlaying (name o)) <$> List.filter hasStartPlaying (objects stage).

(** The ids of the objects made, and of those disposed, in a trace. *)
Definition madeIds (tr : list Effect) : list string :=
  omap (fun e => match e with ENewObject id => Some id | _ => None end) tr.

Definition disposedIds (tr : list Effect) : list string :=
  omap (fun e => match e with EDisposeObject id => Some id | _ => None end) tr.

(** The chunks made, and those disposed, in a trace. *)
Definition madeChunks (tr : list Effect) : list string :=
  omap (fun e => match e with ENewChunks n => Some n | _ => None end) tr.

Definition disposedChunks (tr : list Effect) : list string :=
  omap (fun e => match e with EDisposeChunks n => Some n | _ => None end) tr.

Definition isCallDispose (e : Event) : bool :=
  match e with CallDispose => true | _ => false end.

(** Of the chunks made, the first ones are disposed and the others are
    those of the stages held. *)
Definition accounted (w : World) : Prop :=
  isDisposed w = false
  /\ madeChunks (trace w)
     = disposedChunks (trace w) ++ ((fun st => ch_name (chunks st)) <$> stages w).

(** The url recorded is the one stored, and the url of the first stage
    when there is one. *)
Definition recorded (w : World) : Prop :=
  _oldestURL w = default EmptyString (localStorage w !! "stage-oldest-url")
  /\ forall first rest, stages w = first :: rest -> _oldestURL w = url first.

(** The fractional part that [Math.floor] cuts off. *)
Definition frac (x : Q) : Q := x - Math_floor x.

(** [args.offsetY] is a number, or it is left out. *)
Definition numericOffsetY (a : Args) : bool :=
  match a !! "offsetY" with
  | None | Some (JNum _) | Some JNaN => true
  | _ => false
  end.

End GameReading.

(** ** The editor, continued: selecting objects, and reading a world *)

Module EditorReading.
Import Babylon Js Editor.

(** [scene.getMeshesByTags(TAGS.object)] *)
Definition objectMeshes (w : World) : list SceneMesh :=
  List.filter isObject (meshes w).

(** The handler for the end of a shift-drag on the panel of objects: the
    objects inside the box of the cursor are listed, and the one after the
    selected one is selected (the first one when the selected one is not in
    the list).  [inBox] is [box.intersectsPoint] for the box between the
    corners of the cursor.  In an empty list the source reads the entry
    [NaN], which is [undefined]: nothing is selected. *)
Definition objectsInBox (inBox : Vector3 -> bool) (w : World) : list SceneMesh :=
  List.filter (fun m => inBox (mesh_position m)) (objectMeshes w).

(** [objs.indexOf(selectedObject) + 1] *)
Fixpoint indexAfter (objs : list SceneMesh) (sel : option nat) : nat :=
  match objs with
  | [] => O
  | m :: objs' =>
    if decide (sel = Some (uid m)) then 1%nat
    else match indexAfter objs' sel with
         | O => O
         | S i => S (S i)
         end
  end.

Definition selectNextInBox (inBox : Vector3 -> bool) (w : World) : World :=
  let objs := objectsInBox inBox w in
  let next :=
    match length objs with
    | O => None
    | n => uid <$> objs !! (indexAfter objs (selectedObject w) mod n)%nat
    end in
  {| meshes := meshes w; nextUid := nextUid w; objectsData := objectsData w;
     selectedObject := next; console := console w |}.

(** The handler of the button that cancels the selection. *)
Definition cancelSelect (w : World) : World :=
  {| meshes := meshes w; nextUid := nextUid w; objectsData := objectsData w;
     selectedObject := None; console := console w |}.

(** What the editor does to its objects. *)
Inductive ObjOp :=
| OpCreate (id : string) (cls : Q) (position : Vector3) (restoreArgs : Args)
| OpDestroy (id : string)
| OpSelectNext (inBox : Vector3 -> bool)
| OpCancelSelect.

Definition objStep (classes : list ClassDef) (w : World) (op : ObjOp) : World :=
  match op with
  | OpCreate id cls p a => after (create classes id cls p a w)
  | OpDestroy id => destroy id w
  | OpSelectNext inBox => selectNextInBox inBox w
  | OpCancelSelect => cancelSelect w
  end.

Definition objRun (classes : list ClassDef) (ops : list ObjOp) (w : World) : World :=
  fold_left (objStep classes) ops w.

(** The editor before any object is made. *)
Definition emptyWorld : World :=
  {| meshes := []; nextUid := O; objectsData := ∅; selectedObject := None;
     console := [] |}.

(** Every mesh has its own identity and its own name. *)
Definition wellNamed (w : World) : Prop :=
  NoDup (uid <$> meshes w)
  /\ Forall (fun m => (uid m < nextUid w)%nat) (meshes w)
  /\ NoDup (name <$> meshes w).

(** The saved objects are those that have a mesh with the tag of the
    objects, the name of every such mesh is a string, and what is selected
    is such a mesh of the scene. *)
Definition consistent (w : World) : Prop :=
  wellNamed w
  /\ (forall id, is_Some (objectsData w !! id) <-> JStr id ∈ name <$> objectMeshes w)
  /\ Forall (fun m => exists id, name m = JStr id) (objectMeshes w)
  /\ (forall u, selectedObject w = Some u -> u ∈ uid <$> objectMeshes w).

(** The arguments of the classes, and those that [create] is called with,
    are [plain]. *)
Definition plainClasses (classes : list ClassDef) : Prop :=
  Forall (fun c => plain (args c) = true) classes.

Definition plainOp (op : ObjOp) : Prop :=
  match op with
  | OpCreate _ _ _ a => plain a = true
  | _ => True
  end.

(** *** Making the saved objects again *)

(** The mesh that [create] makes for the class [c]. *)
Definition made (id : string) (p : Vector3) (a : Args) (w : World) (c : ClassDef)
    : SceneMesh :=
  {| uid := nextUid w;
     name := default (JStr id) (Object_assign (args c) a !! "name");
     mesh_position := p;
     props := Object_assign (args c) a; isObject := true |}.

(** The loop at the end of the start of the editor, over
    [Object.keys(map.objectsData)], which is read before the loop begins:
    every entry is read from the saved objects as they are by then, and
    handed to [create].  The result is [None] where the model has no value
    for what the source does: an entry that is not there cannot be taken
    apart (the source throws), and one without coordinates gives a vector
    of [undefined]. *)
Definition restoreStep (classes : list ClassDef) (w : World) (id : string)
    : option World :=
  so ← objectsData w !! id;
  p ← so_xyz so;
  Some (after (create classes id (so_clsId so) p (so_args so) w)).

Fixpoint restoreLoop (classes : list ClassDef) (keys : list string) (w : World)
    : option World :=
  match keys with
  | [] => Some w
  | id :: keys' => w' ← restoreStep classes w id; restoreLoop classes keys' w'
  end.

(** The loop, and [selectedObject = null] after it. *)
Definition restore (classes : list ClassDef) (keys : list string) (w : World)
    : option World :=
  cancelSelect <$> restoreLoop classes keys w.

(** What [restore] leaves of a saved entry: nothing when its class is not
    registered, and else the class with the arguments of the class under
    the saved ones. *)
Definition restored (classes : list ClassDef) (so : SavedObject)
    : option SavedObject :=
  c ← findClass classes (so_clsId so);
  Some {| so_clsId := so_clsId so;
          so_args := Object_assign (args c) (so_args so);
          so_xyz := None |}.

(** The warning that [restore] prints for a saved entry, if any. *)
Definition warningOf (classes : list ClassDef) (saved : gmap string SavedObject)
    (id : string) : option string :=
  so ← saved !! id;
  match findClass classes (so_clsId so) with
  | Some _ => None
  | None => Some (warning (so_clsId so) id)
  end.

End EditorReading.

(** ** src/index.ts, the editor: the box of the last selection *)

Module Brush.
Import Babylon Js Editor.

(** [lastSelection], the box that shows what was selected last. *)
Record SelectionBox := { position : Vector3; scaling : Vector3 }.




(** *** Drawing pixels (ctrl and drag) *)

(** [t === '?' ? chunks.getPixel(x, z).t : t && parseInt(t)]: [t_] is
    [ui.selectedTilePixel.t] and [there] is the tile of the pixel hovered
    over. *)
Definition strokeTile (t_ : string) (there : jsval) : jsval :=
  if String.eqb t_ "?" then there
  else if String.eqb t_ "" then JStr ""
  else match parseInt t_ with
       | Some k => JNum (inject_Z k)
       | None => JNaN
       end.

(** [h && cursor.hover.y + parseInt(h)] *)
Definition strokeHeight (hover_y : Q) (h_ : string) : jsval :=
  if String.eqb h_ "" then JStr ""
  else match parseInt h_ with
       | Some k => JNum (hover_y + inject_Z k)
       | None => JNaN
       end.

(** What the three handlers share and change. *)
Record Drawing := {
  selectedPixel : Pixel;
  editorHistory : EditorHistory;
  cursor_alpha : Q;
  lastSelection : SelectionBox;
}.

Definition half : Vector3 := Vec3 (1#2) (1#2) (1#2).

(** The handler of the mouse going down; [getPixel_t] is
    [chunks.getPixel(x, z).t]. *)
Definition draw_onDown (t_ h_ : string) (getPixel_t : Q -> Q -> jsval)
    (hover : Vector3) (d : Drawing) : Drawing :=
  let pixel := {| t := strokeTile t_ (getPixel_t (vx hover) (vz hover));
                  h := strokeHeight (vy hover) h_ |} in
  {| selectedPixel := pixel;
     editorHistory := push (SetPixelAction (vx hover) (vz hover) pixel)
                           (editorHistory d);
     cursor_alpha := 0;
     lastSelection := {| scaling := Vec3 1 1 1; position := add hover half |} |}.

(** The handler of a move *)
Definition draw_onMove (hover : Vector3) (d : Drawing) : Drawing :=
  {| selectedPixel := selectedPixel d;
     editorHistory := push (SetPixelAction (vx hover) (vz hover) (selectedPixel d))
                           (editorHistory d);
     cursor_alpha := cursor_alpha d;
     lastSelection := {| scaling := scaling (lastSelection d);
                         position := add hover half |} |}.

(** The handler of the mouse going up *)
Definition draw_onUp (d : Drawing) : Drawing :=
  {| selectedPixel := selectedPixel d;
     editorHistory := commit (editorHistory d);
     cursor_alpha := 1;
     lastSelection := lastSelection d |}.

(** A stroke: the mouse goes down at [hover], moves over [hovers], and goes
    up. *)
Definition stroke (t_ h_ : string) (getPixel_t : Q -> Q -> jsval)
    (hover : Vector3) (hovers : list Vector3) (d : Drawing) : Drawing :=
  draw_onUp (fold_left (fun d hv => draw_onMove hv d) hovers
               (draw_onDown t_ h_ getPixel_t hover d)).


End Brush.

(** ** The dom utilities: [attachDragable] *)

Module Dragable.

Section Attach.
Context {Evt : Type}.

(** The arguments: [elemOrFilter] is [None] for an element, on which the
    listener of [mousedown] is then put, and a filter else; [onMove] and
    [onUp] may be left out.  The callbacks are taken to return, and not to
    call the function that [attachDragable] returns: that function is
    called between two events of the page. *)
Record Args := {
  elemOrFilter : option (Evt -> bool);
  hasOnMove : bool;
  hasOnUp : bool;
}.

(** Which listeners are registered: [handleMouseDown] on the element or
    the window, and [handleMouseMove] with [handleMouseUp] on the window
    (the two are added and removed together). *)
Record Listeners := { onElem : bool; onWindow : bool }.

(** The calls of the callbacks. *)
Inductive Call :=
| OnDown (evt : Evt)
| OnMove (evt : Evt)
| OnUp (evt : Evt).

Definition State : Type := Listeners * list Call.

(** [typeof elemOrFilter !== 'function' || elemOrFilter(evt)] *)
Definition accepted (a : Args) (evt : Evt) : bool :=
  match elemOrFilter a with None => true | Some f => f evt end.

Definition handleMouseDown (a : Args) (evt : Evt) (s : State) : State :=
  let tr := snd s in
  let l := {| onElem := onElem (fst s); onWindow := false |} in
  if accepted a evt
  then ({| onElem := onElem l; onWindow := true |}, tr ++ [OnDown evt])
  else (l, tr).

Definition handleMouseMove (a : Args) (evt : Evt) (s : State) : State :=
  if hasOnMove a then (fst s, snd s ++ [OnMove evt]) else s.

Definition handleMouseUp (a : Args) (evt : Evt) (s : State) : State :=
  let l := {| onElem := onElem (fst s); onWindow := false |} in
  if hasOnUp a then (l, snd s ++ [OnUp evt]) else (l, snd s).

(** [attachDragable(...)]: the listener of [mousedown] is registered. *)
Definition attachDragable : State :=
  ({| onElem := true; onWindow := false |}, []).

(** The function that [attachDragable] returns. *)
Definition detach (s : State) : State :=
  ({| onElem := false; onWindow := false |}, snd s).

(** What happens on the page: a [mousedown] that reaches the element (or
    the window, with a filter), a [mousemove] and a [mouseup] on the window,
    and a call of the function returned, from outside the callbacks. *)
Inductive PageEvent :=
| MouseDown (evt : Evt)
| MouseMove (evt : Evt)
| MouseUp (evt : Evt)
| Detach.

Definition dispatch (a : Args) (s : State) (e : PageEvent) : State :=
  match e with
  | MouseDown evt => if onElem (fst s) then handleMouseDown a evt s else s
  | MouseMove evt => if onWindow (fst s) then handleMouseMove a evt s else s
  | MouseUp evt => if onWindow (fst s) then handleMouseUp a evt s else s
  | Detach => detach s
  end.

Definition dragRun (a : Args) (es : list PageEvent) (s : State) : State :=
  fold_left (dispatch a) es s.

(** *** Reading the calls *)

Definition isDown (c : Call) : bool :=
  match c with OnDown _ => true | _ => false end.

Definition isMove (c : Call) : bool :=
  match c with OnMove _ => true | _ => false end.

Definition isMouseDown (e : PageEvent) : bool :=
  match e with MouseDown _ => true | _ => false end.

(** The last of the calls that is not a move. *)
Definition lastOther (calls : list Call) : option Call :=
  last (List.filter (fun c => negb (isMove c)) calls).

(** The event a call was made with, and the event of what happened. *)
Definition callEvent (c : Call) : Evt :=
  match c with OnDown evt | OnMove evt | OnUp evt => evt end.

Definition pageEvent (e : PageEvent) : option Evt :=
  match e with
  | MouseDown evt | MouseMove evt | MouseUp evt => Some evt
  | Detach => None
  end.

(** A call that the arguments allow: [onDown] with an event that is
    accepted, and the callbacks that may be left out only when given. *)
Definition allowed (a : Args) (c : Call) : Prop :=
  match c with
  | OnDown evt => accepted a evt = true
  | OnMove _ => hasOnMove a = true
  | OnUp _ => hasOnUp a = true
  end.

(** Every call of [onMove] or [onUp] comes after a call of [onDown], with
    nothing but moves between the two. *)
Definition bracketed (calls : list Call) : Prop :=
  forall pre c post, calls = pre ++ c :: post -> isDown c = false ->
    exists evt, lastOther pre = Some (OnDown evt).

(** While the listeners of the window are registered, the last call that
    is not a move is a call of [onDown]. *)
Definition dragging (s : State) : Prop :=
  onWindow (fst s) = true -> exists evt, lastOther (snd s) = Some (OnDown evt).

End Attach.

Arguments Args : clear implicits.
Arguments Call : clear implicits.
Arguments PageEvent : clear implicits.
Arguments State : clear implicits.

End Dragable.

(** ** src/index.ts, the game: the names of the classes of a state *)

Module Names.

(** [[a-z]] and [[A-Z]] *)
Definition isLower (c : ascii) : bool :=
  let n := nat_of_ascii c in (97 <=? n)%nat && (n <=? 122)%nat.

Definition isUpper (c : ascii) : bool :=
  let n := nat_of_ascii c in (65 <=? n)%nat && (n <=? 90)%nat.

(** [c.toLowerCase()] for one character (of the first 128) *)
Definition toLowerCase (c : ascii) : ascii :=
  if isUpper c then ascii_of_nat (nat_of_ascii c + 32) else c.

(** [str.replace(/[a-z][A-Z]{1}/g, m => m[0] + '-' + m[1].toLowerCase())]:
    the matches are looked for from the left and do not overlap. *)
Fixpoint camelCaseToHyphen (str : string) : string :=
  match str with
  | String a (String b rest as tail) =>
    if isLower a && isUpper b
    then String a (String "-" (String (toLowerCase b) (camelCaseToHyphen rest)))
    else String a (camelCaseToHyphen tail)
  | _ => str
  end.

(** A string read without its hyphens and without the case of its letters. *)
Fixpoint squash (str : string) : string :=
  match str with
  | EmptyString => EmptyString
  | String a rest =>
    if Ascii.eqb a "-" then squash rest else String (toLowerCase a) (squash rest)
  end.

(** No capital letter comes right after a small one. *)
Fixpoint noHump (str : string) : bool :=
  match str with
  | String a (String b _ as tail) => negb (isLower a && isUpper b) && noHump tail
  | _ => true
  end.

(** How many capital letters come right after a small one. *)
Fixpoint humps (str : string) : nat :=
  match str with
  | String a (String b _ as tail) =>
    (if isLower a && isUpper b then 1 else 0) + humps tail
  | _ => 0
  end.

End Names.

(** ** src/index.ts, the editor: what is done before every frame *)

Module Frame.
Import Babylon Js.

(** [a < b] *)
Definition lt (a b : Q) : bool := negb (Qle_bool b a).

(** *** The camera of the panel [play] *)

(** The camera, as far as the listener reads it. *)
Record Camera := { beta : Q; radius : Q }.

Definition maxRadius : Q := 40.

(** [if (x < limit - 1e-3 && !cursor.isKeyDown) x = x * 0.9 + limit * 0.1] *)
Definition easeUp (limit : Q) (isKeyDown : bool) (x : Q) : Q :=
  if lt x (limit - (1#1000)) && negb isKeyDown
  then x * (9#10) + limit * (1#10)
  else x.

(** [if (x > limit + 1e-3 && !cursor.isKeyDown) x = x * 0.9 + limit * 0.1] *)
Definition easeDown (limit : Q) (isKeyDown : bool) (x : Q) : Q :=
  if lt (limit + (1#1000)) x && negb isKeyDown
  then x * (9#10) + limit * (1#10)
  else x.

(** The listener of the panel [play]; [minBeta] is the number that
    [Math.PI * 0.35] gives, and [isKeyDown] is [cursor.isKeyDown]. *)
Definition playFrame (minBeta : Q) (isKeyDown : bool) (camera : Camera) : Camera :=
  {| beta := easeUp minBeta isKeyDown (beta camera);
     radius := easeDown maxRadius isKeyDown (radius camera) |}.

(** *** The buttons that turn the camera *)




(** *** The grid under the cursor *)

(** One coordinate of the grid: [x] is that of [cursor.hover], [g] is
    [chunks.chunkSize], [s] the scaling and [p] the position of the grid.
    The second test reads the position that the first one has written. *)
Definition recenter (x g s p : Q) : Q :=
  let p := if lt x (p - s / 2) then p - g else p in
  if lt (p + s / 2) x then p + g else p.

Record Grid := { position : Vector3; scaling : Vector3 }.

(** The part of the listener for the grid, run when [cursor.isVisible]. *)
Definition gridFrame (isVisible : bool) (hover : Vector3) (g : Q) (grid : Grid)
    : Grid :=
  if isVisible then
    let p := position grid in
    let s := scaling grid in
    {| position := Vec3 (recenter (vx hover) g (vx s) (vx p)) (vy p)
                        (recenter (vz hover) g (vz s) (vz p));
       scaling := s |}
  else grid.

(** [x] is over the grid at [p]. *)
Definition over (x s p : Q) : Prop := p - s / 2 <= x /\ x <= p + s / 2.

End Frame.

(** ** The dom utilities: [MenuManager] *)

Module Menu.

(** The lists of a class of the page in the order of the document, each
    with its items: what [MenuManager] reads and writes are the classes
    [active] and [hidden]. *)
Record Item := { itemActive : bool; itemHidden : bool }.

Record MenuList := { listActive : bool; items : list Item }.

Abbreviation Page := (list MenuList).

(** [xs.findIndex(f)], and so the first element a selector finds *)
Fixpoint findIndex {A} (f : A -> bool) (xs : list A) : option nat :=
  match xs with
  | [] => None
  | x :: xs' => if f x then Some O else S <$> findIndex f xs'
  end.

(** [elem.classList.add('active')] and [remove] on an item of a list *)
Definition setItem (b : bool) (i : nat) (its : list Item) : list Item :=
  alter (fun it => {| itemActive := b; itemHidden := itemHidden it |}) i its.

Definition setItemOf (b : bool) (li i : nat) (page : Page) : Page :=
  alter (fun l => {| listActive := listActive l; items := setItem b i (items l) |})
        li page.

(** The items that are not hidden, by their places in the list. *)
Fixpoint visibleFrom (i : nat) (its : list Item) : list nat :=
  match its with
  | [] => []
  | it :: its' =>
    (if itemHidden it then [] else [i]) ++ visibleFrom (S i) its'
  end.

Definition visible (its : list Item) : list nat := visibleFrom O its.

(** [MenuManager.activeList()]: the first list that is active. *)
Definition activeList (page : Page) : option nat := findIndex listActive page.

(** [MenuManager.activeItem()]: the first active item of an active list. *)
Fixpoint activeItemFrom (li : nat) (page : Page) : option (nat * nat) :=
  match page with
  | [] => None
  | l :: page' =>
    match (if listActive l then findIndex itemActive (items l) else None) with
    | Some i => Some (li, i)
    | None => activeItemFrom (S li) page'
    end
  end.

Definition activeItem (page : Page) : option (nat * nat) := activeItemFrom O page.

(** [xs.indexOf(x)] on places, [-1] when it is not there *)
Fixpoint indexOfNat (xs : list nat) (x : nat) : Z :=
  match xs with
  | [] => (-1)%Z
  | y :: xs' =>
    if decide (y = x) then 0%Z
    else match indexOfNat xs' x with
         | Zneg _ => (-1)%Z
         | k => (k + 1)%Z
         end
  end.

(** [xs[k]] for an integer [k]; with a negative one the source gets
    [undefined]. *)
Definition at_ (xs : list nat) (k : Z) : option nat :=
  if (k <? 0)%Z then None else xs !! Z.to_nat k.

(** [its[i]] is there and not hidden. *)
Definition isShown (its : list Item) (i : nat) : bool :=
  match its !! i with
  | Some it => negb (itemHidden it)
  | None => false
  end.

(** [MenuManager.activate(list, itemSelector)]: [list] is the place of the
    list that is found for the first argument, if any, and [itemSelector]
    is [None] when it is left out and else the item that the selector
    finds in the list, if any. *)
Definition activate (list_ : option nat) (itemSelector : option (option nat))
    (page : Page) : Page :=
  let page := (fun l => {| listActive := false; items := items l |}) <$> page in
  match list_ ≫= (fun la => pair la <$> page !! la) with
  | None => page
  | Some (la, listElem) =>
    let lastActive := findIndex itemActive (items listElem) in
    let its :=
      match lastActive with
      | Some i => setItem false i (items listElem)
      | None => items listElem
      end in
    let listItem :=
      match itemSelector with
      | Some found => found
      | None =>
        head (List.filter (isShown its)
                          (option_list lastActive ++ seq O (length its)))
      end in
    let its :=
      match listItem with
      | Some i => setItem true i its
      | None => its
      end in
    <[la := {| listActive := true; items := its |}]> page
  end.

(** [MenuManager.selectNext(delta)] for an integer [delta]; the remainder
    has the sign of what is divided, and with no item to show the source
    reads the entry [NaN], which is [undefined]. *)
Definition selectNext (delta : Z) (page : Page) : Page :=
  match activeList page ≫= (fun la => pair la <$> page !! la) with
  | None => page
  | Some (la, list_) =>
    let active := activeItem page in
    let allItems := visible (items list_) in
    let index :=
      match active with
      | Some (li, i) => if decide (li = la) then indexOfNat allItems i else (-1)%Z
      | None => (-1)%Z
      end in
    let n := Z.of_nat (length allItems) in
    let nextItem :=
      if (n =? 0)%Z then None else at_ allItems (Z.rem (index + delta + n) n) in
    let page :=
      match active with
      | Some (li, i) => setItemOf false li i page
      | None => page
      end in
    match nextItem with
    | Some i => setItemOf true la i page
    | None => page
    end
  end.

(** What is done to the menus. *)
Inductive MenuOp :=
| Activate (list_ : option nat) (itemSelector : option (option nat))
| SelectNext (delta : Z).

Definition menuStep (page : Page) (op : MenuOp) : Page :=
  match op with
  | Activate l s => activate l s page
  | SelectNext d => selectNext d page
  end.

Definition menuRun (ops : list MenuOp) (page : Page) : Page :=
  fold_left menuStep ops page.

(** *** Reading a page *)

Definition countActive (its : list Item) : nat :=
  length (List.filter itemActive its).

(** At most one list is active, and a list has at most one active item. *)
Definition tidy (page : Page) : Prop :=
  (length (List.filter listActive page) <= 1)%nat
  /\ Forall (fun l => (countActive (items l) <= 1)%nat) page.

(** The place of the active item among the items shown of the active
    list. *)
Definition shown (page : Page) : option nat :=
  la ← activeList page;
  l ← page !! la;
  i ← findIndex itemActive (items l);
  match indexOfNat (visible (items l)) i with
  | Zneg _ => None
  | k => Some (Z.to_nat k)
  end.

(** How many items of the active list are shown. *)
Definition shownCount (page : Page) : nat :=
  match activeList page ≫= (fun la => page !! la) with
  | Some l => length (visible (items l))
  | None => O
  end.

End Menu.

(** ** More sample data *)

Module MoreSamples.
Import Babylon Js.

(** A saved map whose only object is the entry of the stage, half a unit
    off the grid. *)
Definition entryObject : Game.ObjData :=
  {| Game.od_clsId := 1; Game.od_x := 3#2; Game.od_y := 2; Game.od_z := 3;
     Game.od_args := {[ "editorSingletonId" := JStr "stage/entry" ]} |}.

Definition entryMap : Game.SavedMap :=
  {| Game.chunksData := []; Game.objectsData := [("gate", entryObject)] |}.

(** Three loads that are answered, on a manager that is not disposed. *)
Definition threeLoads : list Game.Event :=
  [Game.CallLoadFromURL "a.json" Zero; Game.FetchSettled (Some Samples.map);
   Game.CallLoadFromURL "b.json" Zero; Game.FetchSettled (Some Samples.map);
   Game.CallLoadFromURL "c.json" Zero; Game.FetchSettled (Some Samples.map)].

(** The mouse goes down at (3/10, 1/5). *)
Definition press : list CursorTs.CursorEvent :=
  [CursorTs.MouseDown {| CursorTs.clientX := 3#10; CursorTs.clientY := 1#5 |}].



(** The editor with two doors, the second one selected. *)
Definition twoDoors : Editor.World :=
  EditorReading.objRun Samples.editorClasses
    [EditorReading.OpCreate "a" 1 Zero ∅;
     EditorReading.OpCreate "b" 1 (Vec3 1 0 0) ∅]
    EditorReading.emptyWorld.

(** The editor at its start: the scene has the mesh of the cursor, and the
    saved map has a door and an object of a class that is not registered. *)
Definition savedDoor : Editor.SavedObject :=
  {| Editor.so_clsId := 1; Editor.so_args := ∅; Editor.so_xyz := Some (Vec3 1 2 3) |}.

Definition savedGhost : Editor.SavedObject :=
  {| Editor.so_clsId := 7; Editor.so_args := ∅; Editor.so_xyz := Some Zero |}.

Definition atStart : Editor.World :=
  {| Editor.meshes :=
       [{| Editor.uid := O; Editor.name := JStr "cursor"; Editor.mesh_position := Zero;
           Editor.props := ∅; Editor.isObject := false |}];
     Editor.nextUid := 1%nat;
     Editor.objectsData := <["a" := savedDoor]> (<["ghost" := savedGhost]> ∅);
     Editor.selectedObject := None;
     Editor.console := [] |}.

(** What the handlers of a drag with ctrl start from. *)
Definition blank : Brush.Drawing :=
  {| Brush.selectedPixel := Samples.grass;
     Brush.editorHistory := Samples.emptyHistory;
     Brush.cursor_alpha := 1;
     Brush.lastSelection := {| Brush.position := Zero; Brush.scaling := Vec3 1 1 1 |} |}.

(** A drag that is attached with a filter: an event tells whether shift
    is held, and is accepted when it is. *)
Definition withShift : Dragable.Args bool :=
  {| Dragable.elemOrFilter := Some (fun shift => shift);
     Dragable.hasOnMove := true; Dragable.hasOnUp := true |}.

(** A grid of 32 by 32 at the origin, for chunks of 16. *)
Definition grid : Frame.Grid :=
  {| Frame.position := Zero; Frame.scaling := Vec3 32 1 32 |}.

(** A menu of three items, the second one hidden and the first active. *)
Definition menu : Menu.Page :=
  [{| Menu.listActive := true;
      Menu.items := [{| Menu.itemActive := true; Menu.itemHidden := false |};
                     {| Menu.itemActive := false; Menu.itemHidden := true |};
                     {| Menu.itemActive := false; Menu.itemHidden := false |}] |}].

End MoreSamples.

(** * Properties *)

(** ** The definitions on small inputs *)

Module Checks.
Import Babylon Js.

Example stageName_drops_extension : Game.stageName "maps/a.json" = "maps/a".
Proof. reflexivity. Qed.

Example stageName_two_dots : Game.stageName "maps/a.b.json" = "b".
Proof. reflexivity. Qed.

Example stageName_no_dot : Game.stageName "stage" = "stage".
Proof. reflexivity. Qed.

Example parseInt_heights :
  parseInt "+1" = Some 1%Z /\ parseInt "-1" = Some (-1)%Z
  /\ parseInt "0" = Some 0%Z /\ parseInt "" = None.
Proof. repeat split. Qed.

Example join_normal : join "/" [0; -1; 0] = "0/-1/0".
Proof. reflexivity. Qed.

Example flatHeight_none : Editor.flatHeight 3 "" = JStr "".
Proof. reflexivity. Qed.

Example flatHeight_down : Editor.flatHeight 3 "-1" = JNum 1.
Proof. reflexivity. Qed.

(** The load of [c.json] ends with the disposal of the stage of [a.json]. *)
Example third_load_trace :
  drop 12 (Game.trace Samples.thirdLoaded)
  = [Game.EFetch "c.json"; Game.ENewChunks "c";
     Game.ENewObject "o1"; Game.ENewObject "o2";
     Game.EWarn "class 7 is not found! ignoring object #orphan";
     Game.EStartPlaying "o1";
     Game.EStopPlaying "o1";
     Game.EDisposeObject "o1"; Game.EDisposeObject "o2";
     Game.EDisposeChunks "a"].
Proof. reflexivity. Qed.

(** A drag from (1, 0, 0) to (-2, 0, 4) on the ground. *)
Example dragged_corners :
  CursorTs.start Samples.dragged = Vec3 1 0 0
  /\ CursorTs.hover Samples.dragged = Vec3 (-2) 0 4
  /\ CursorTs.scaling Samples.dragged = Vec3 4 1 5.
Proof. repeat split. Qed.

End Checks.

(** ** Traces *)

Module TraceFacts.

Lemma fold_emit {A E} (p : A -> bool) (f : A -> E) (l : list A) (tr : list E) :
  fold_left (fun tr x => if p x then tr ++ [f x] else tr) l tr
  = tr ++ (f <$> List.filter p l).
Proof.
  revert tr. induction l as [|x l IH]; intros tr; simpl.
  - by rewrite app_nil_r.
  - rewrite IH. destruct (p x); simpl; [|done].
    by rewrite <- app_assoc.
Qed.

Lemma fold_emit_all {A E} (f : A -> E) (l : list A) (tr : list E) :
  fold_left (fun tr x => tr ++ [f x]) l tr = tr ++ (f <$> l).
Proof.
  revert tr. induction l as [|x l IH]; intros tr; simpl.
  - by rewrite app_nil_r.
  - rewrite IH. by rewrite <- app_assoc.
Qed.

(** A property of every effect of a list put together from the images of
    lists and from single effects, when it holds of each by computation. *)
Ltac each_effect :=
  repeat first
    [ apply Forall_app; split
    | apply Forall_fmap, Forall_forall; done
    | by repeat constructor ].

End TraceFacts.

(** ** Stages *)

Module StageProps.
Import Babylon Js Game TraceFacts.

Lemma Stage_dispose_eq stage tr :
  Stage_dispose stage tr = tr ++ stopHooks stage ++ releases stage.
Proof.
  unfold Stage_dispose, stopHooks, releases.
  rewrite fold_emit, fold_emit_all. by rewrite <- !app_assoc.
Qed.

Lemma createObject_names opts entry l objs tr :
  name <$> (fold_left (createObject opts entry) l (objs, tr)).1
  = (name <$> objs) ++ (fst <$> List.filter (known opts) l).
Proof.
  revert objs tr. induction l as [|[id od] l IH]; intros objs tr; simpl.
  - by rewrite app_nil_r.
  - assert (K : known opts (id, od)
                = match findClass opts (od_clsId od) with
                  | Some _ => true
                  | None => false
                  end)
      by reflexivity.
    rewrite K.
    destruct (findClass opts (od_clsId od)) as [c|]; rewrite IH.
    + rewrite fmap_app. simpl. by rewrite <- app_assoc.
    + done.
Qed.

Lemma new_Stage_url u p map opts tr : url (new_Stage u p map opts tr).1 = u.
Proof.
  unfold new_Stage.
  destruct (fold_left _ _ _) as [objs tr']. done.
Qed.

Lemma new_Stage_position u p map opts tr :
  position (new_Stage u p map opts tr).1 = p.
Proof.
  unfold new_Stage.
  destruct (fold_left _ _ _) as [objs tr']. done.
Qed.

Lemma new_Stage_objects u p map opts tr :
  name <$> objects (new_Stage u p map opts tr).1
  = fst <$> List.filter (known opts) (objectsData map).
Proof.
  unfold new_Stage.
  pose proof (createObject_names opts (entryPosition p map) (objectsData map)
                [] (tr ++ [ENewChunks (stageName u)])) as H.
  destruct (fold_left _ _ _) as [objs tr']. done.
Qed.

End StageProps.

(** ** The stage manager *)

Module ManagerProps.
Import Babylon Js Game TraceFacts StageProps.

Lemma equals_refl p : equals p p = true.
Proof.
  unfold equals. rewrite !andb_true_iff.
  repeat split; apply Qeq_bool_iff; reflexivity.
Qed.

Lemma matches_new_Stage u p map opts tr :
  matches u p (new_Stage u p map opts tr).1 = true.
Proof.
  unfold matches. rewrite new_Stage_url, new_Stage_position, equals_refl.
  rewrite andb_true_r. by apply String.eqb_eq.
Qed.

(** Starting jobs touches the queue, the trace and the settled calls
    only; it issues at most one fetch. *)
Lemma startJobs_stages js w : stages (startJobs js w) = stages w.
Proof.
  revert w. induction js as [|j js IH]; intros w; simpl; [done|].
  destruct (findStage w _ _); [|done]. by rewrite IH.
Qed.

Lemma startJobs_isDisposed js w : isDisposed (startJobs js w) = isDisposed w.
Proof.
  revert w. induction js as [|j js IH]; intros w; simpl; [done|].
  destruct (findStage w _ _); [|done]. by rewrite IH.
Qed.

Lemma startJobs_oldestURL js w : _oldestURL (startJobs js w) = _oldestURL w.
Proof.
  revert w. induction js as [|j js IH]; intros w; simpl; [done|].
  destruct (findStage w _ _); [|done]. by rewrite IH.
Qed.

Lemma startJobs_trace js w :
  exists suf, trace (startJobs js w) = trace w ++ suf
              /\ Forall (fun e => isFetch e = true) suf.
Proof.
  revert w. induction js as [|j js IH]; intros w; simpl.
  - exists []. by rewrite app_nil_r.
  - destruct (findStage w _ _).
    + destruct (IH (settle j (Resolved (job_url j)) w)) as (suf & E & F).
      by exists suf.
    + exists [EFetch (job_url j)]. simpl. split; [done|]. by repeat constructor.
Qed.

(** *** The cap *)

Lemma doLoad_loaded_cap opts u p map w :
  (length (stages w) <= 2)%nat ->
  (length (stages (doLoad_loaded opts u p map w)) <= 2)%nat.
Proof.
  intros Hle. unfold doLoad_loaded.
  destruct (isDisposed w); [done|].
  destruct (new_Stage u p map opts (trace w)) as [st tr].
  destruct (stages w) as [|a [|b [|c l]]]; simpl in *; lia.
Qed.

Lemma step_cap opts w e :
  (length (stages w) <= 2)%nat -> (length (stages (step opts w e)) <= 2)%nat.
Proof.
  intros Hle. destruct e as [u p|l|r|]; simpl.
  - unfold loadFromURL. simpl. destruct (running w); simpl; [done|].
    by rewrite startJobs_stages.
  - unfold loadFromLoader, loadFromURL. simpl. destruct (running w); simpl; [done|].
    by rewrite startJobs_stages.
  - unfold fetchSettled. destruct (running w) as [j|]; [|done].
    rewrite startJobs_stages. destruct r as [map|]; simpl; [|done].
    by apply doLoad_loaded_cap.
  - done.
Qed.

Lemma run_cap opts es w :
  (length (stages w) <= 2)%nat -> (length (stages (run opts es w)) <= 2)%nat.
Proof.
  revert w. induction es as [|e es IH]; intros w Hle; simpl; [done|].
  apply IH. by apply step_cap.
Qed.

(** *** A third load, from a manager at rest with two stages *)

Lemma third_load opts w a b u p map :
  stages w = [a; b] -> isDisposed w = false ->
  running w = None -> waiting w = [] -> findStage w u p = None ->
  let w' := run opts [CallLoadFromURL u p; FetchSettled (Some map)] w in
  let built := new_Stage u p map opts (trace w ++ [EFetch u]) in
  stages w' = [b; built.1]
  /\ trace w' = Stage_dispose a built.2
  /\ _oldestURL w' = url b
  /\ localStorage w' !! "stage-oldest-url" = Some (url b)
  /\ settled w' = settled w ++ [(calls w, Resolved u)]
  /\ running w' = None.
Proof.
  intros Hst Hd Hr Hw Hf. simpl.
  unfold loadFromURL. simpl. rewrite Hr, Hw. simpl.
  unfold findStage in *. simpl. rewrite Hf.
  unfold fetchSettled. simpl.
  unfold doLoad_loaded. simpl. rewrite Hd.
  destruct (new_Stage u p map opts (trace w ++ [EFetch u])) as [st tr].
  rewrite Hst. simpl.
  repeat split; try done.
  by rewrite lookup_insert_eq.
Qed.

(** *** The load in flight completes, on a manager with two stages *)

Lemma load_completes opts w a b j map :
  stages w = [a; b] -> isDisposed w = false -> running w = Some j ->
  let w' := fetchSettled opts (Some map) w in
  let built := new_Stage (job_url j) (job_position j) map opts (trace w) in
  stages w' = [b; built.1]
  /\ (exists later, trace w' = Stage_dispose a built.2 ++ later
                    /\ Forall (fun e => isFetch e = true) later)
  /\ _oldestURL w' = url b.
Proof.
  intros Hst Hd Hr. simpl. unfold fetchSettled. rewrite Hr.
  rewrite startJobs_stages, startJobs_oldestURL.
  match goal with
  | |- context [startJobs ?js ?w1] =>
    destruct (startJobs_trace js w1) as (later & E & F); rewrite E; clear E
  end.
  simpl. unfold doLoad_loaded. rewrite Hd.
  destruct (new_Stage (job_url j) (job_position j) map opts (trace w)) as [st tr].
  rewrite Hst. simpl. repeat split; try done. by exists later.
Qed.

End ManagerProps.

(** ** Fetches in a trace *)

Module FetchFacts.
Import Babylon Js Game TraceFacts StageProps ManagerProps.

(** No fetch is issued by building or disposing a stage. *)
Lemma createObject_trace opts entry l objs tr :
  exists ev, (fold_left (createObject opts entry) l (objs, tr)).2 = tr ++ ev
             /\ Forall (fun e => isFetch e = false) ev.
Proof.
  revert objs tr. induction l as [|[id od] l IH]; intros objs tr; simpl.
  - exists []. by rewrite app_nil_r.
  - destruct (findClass opts (od_clsId od)) as [c|].
    + match goal with
      | |- context [fold_left _ _ (?o, ?t)] => destruct (IH o t) as (ev & E & F)
      end.
      exists (ENewObject id :: ev). rewrite E. rewrite <- app_assoc.
      split; [done|]. by constructor.
    + destruct (IH objs (tr ++ [EWarn (warning (od_clsId od) id)])) as (ev & E & F).
      exists (EWarn (warning (od_clsId od) id) :: ev). rewrite E, <- app_assoc.
      split; [done|]. by constructor.
Qed.

Lemma new_Stage_trace u p map opts tr :
  exists ev, (new_Stage u p map opts tr).2 = tr ++ ev
             /\ Forall (fun e => isFetch e = false) ev.
Proof.
  unfold new_Stage.
  destruct (createObject_trace opts (entryPosition p map) (objectsData map) []
              (tr ++ [ENewChunks (stageName u)])) as (ev & E & F).
  destruct (fold_left _ _ _) as [objs tr']. simpl in *. subst tr'.
  rewrite fold_emit. rewrite <- !app_assoc.
  eexists. split; [reflexivity|].
  simpl. constructor; [done|]. apply Forall_app. split; [done|].
  each_effect.
Qed.

Lemma Stage_dispose_no_fetch stage :
  Forall (fun e => isFetch e = false) (stopHooks stage ++ releases stage).
Proof. unfold stopHooks, releases. each_effect. Qed.

Lemma filter_none {A} (f : A -> bool) l :
  Forall (fun e => f e = false) l -> List.filter f l = [].
Proof.
  induction 1 as [|x l Hx _ IH]; simpl; [done|]. by rewrite Hx.
Qed.

Lemma find_last {A} (f : A -> bool) l x : f x = true -> is_Some (find f (l ++ [x])).
Proof.
  intros Hx. induction l as [|y l IH]; simpl.
  - rewrite Hx. by eexists.
  - destruct (f y); [by eexists|done].
Qed.

End FetchFacts.

(** ** A disposed manager *)

Module DisposeFacts.
Import Babylon Js Game TraceFacts StageProps ManagerProps FetchFacts.

(** Once disposed, a manager stays disposed, keeps its list of stages, and
    no step builds anything. *)
Lemma step_disposed opts w e :
  isDisposed w = true ->
  let w' := step opts w e in
  isDisposed w' = true /\ stages w' = stages w
  /\ exists later, trace w' = trace w ++ later
                   /\ Forall (fun e => isConstruction e = false) later.
Proof.
  intros Hd.
  assert (Hload : forall u p,
    let w' := loadFromURL u p w in
    isDisposed w' = true /\ stages w' = stages w
    /\ exists later, trace w' = trace w ++ later
                     /\ Forall (fun e => isConstruction e = false) later).
  { intros u p. unfold loadFromURL. simpl.
    destruct (running w); simpl.
    - repeat split; try done. exists []. by rewrite app_nil_r.
    - rewrite startJobs_isDisposed, startJobs_stages. simpl.
      repeat split; try done.
      destruct (startJobs_trace (waiting w ++ [{| ticket := calls w; job_url := u;
                                                  job_position := p |}])
        {| stages := stages w; isDisposed := isDisposed w; running := None;
           waiting := waiting w ++ [{| ticket := calls w; job_url := u;
                                       job_position := p |}];
           _oldestURL := _oldestURL w; localStorage := localStorage w;
           trace := trace w; settled := settled w; calls := S (calls w) |})
        as (suf & E & F).
      exists suf. split; [done|].
      eapply Forall_impl; [exact F|]. by intros [] . }
  destruct e as [u p|l|r|]; simpl.
  - apply Hload.
  - apply Hload.
  - unfold fetchSettled. destruct (running w) as [j|].
    + rewrite startJobs_isDisposed, startJobs_stages.
      set (w1 := match r with
                 | Some map => settle j (Resolved (job_url j))
                                 (doLoad_loaded opts (job_url j) (job_position j) map w)
                 | None => settle j Rejected w
                 end).
      assert (H1 : isDisposed w1 = true /\ stages w1 = stages w /\ trace w1 = trace w).
      { unfold w1. destruct r as [map|]; simpl; [|done].
        unfold doLoad_loaded. by rewrite Hd. }
      destruct H1 as (H1 & H2 & H3).
      destruct (startJobs_trace (waiting w1) w1) as (suf & E & F).
      repeat split; try done.
      exists suf. rewrite E, H3. split; [done|].
      eapply Forall_impl; [exact F|]. by intros [].
    + repeat split; try done. exists []. by rewrite app_nil_r.
  - repeat split; try done.
    clear Hload Hd. generalize (trace w). induction (stages w) as [|st l IH]; intros tr; simpl.
    + exists []. by rewrite app_nil_r.
    + destruct (IH (Stage_dispose st tr)) as (later & E & F).
      rewrite E, Stage_dispose_eq, <- app_assoc.
      eexists. split; [reflexivity|].
      apply Forall_app. split; [|done].
      unfold stopHooks, releases. each_effect.
Qed.

Lemma run_disposed opts es w :
  isDisposed w = true ->
  let w' := run opts es w in
  isDisposed w' = true /\ stages w' = stages w
  /\ exists later, trace w' = trace w ++ later
                   /\ Forall (fun e => isConstruction e = false) later.
Proof.
  revert w. induction es as [|e es IH]; intros w Hd; simpl.
  - repeat split; try done. exists []. by rewrite app_nil_r.
  - destruct (step_disposed opts w e Hd) as (H1 & H2 & l1 & E1 & F1).
    destruct (IH (step opts w e) H1) as (H3 & H4 & l2 & E2 & F2).
    simpl in *. repeat split; try congruence.
    exists (l1 ++ l2). rewrite E2, E1, <- app_assoc. split; [done|].
    by apply Forall_app.
Qed.

Lemma dispose_trace w :
  trace (dispose w)
  = trace w ++ concat ((fun stage => stopHooks stage ++ releases stage) <$> stages w).
Proof.
  simpl. generalize (trace w).
  induction (stages w) as [|st l IH]; intros tr; simpl.
  - by rewrite app_nil_r.
  - rewrite IH, Stage_dispose_eq. by rewrite <- !app_assoc.
Qed.

End DisposeFacts.

(** ** Calls on the queue *)

Module QueueFacts.
Import Babylon Js Game TraceFacts StageProps ManagerProps FetchFacts.

(** A call on a manager at rest whose stage is there returns at once. *)
Lemma load_found w u p :
  running w = None -> waiting w = [] -> is_Some (findStage w u p) ->
  loadFromURL u p w
  = {| stages := stages w; isDisposed := isDisposed w;
       running := None; waiting := [];
       _oldestURL := _oldestURL w; localStorage := localStorage w;
       trace := trace w;
       settled := settled w ++ [(calls w, Resolved u)];
       calls := S (calls w) |}.
Proof.
  intros Hr Hw [st Hf]. unfold loadFromURL. simpl. rewrite Hr, Hw. simpl.
  unfold findStage in *. simpl. by rewrite Hf.
Qed.

(** A call on a manager at rest whose stage is missing issues the fetch. *)
Lemma load_fetches w u p :
  running w = None -> waiting w = [] -> findStage w u p = None ->
  loadFromURL u p w
  = {| stages := stages w; isDisposed := isDisposed w;
       running := Some {| ticket := calls w; job_url := u; job_position := p |};
       waiting := [];
       _oldestURL := _oldestURL w; localStorage := localStorage w;
       trace := trace w ++ [EFetch u];
       settled := settled w;
       calls := S (calls w) |}.
Proof.
  intros Hr Hw Hf. unfold loadFromURL. simpl. rewrite Hr, Hw. simpl.
  unfold findStage in *. simpl. by rewrite Hf.
Qed.

(** A call on a manager that waits for a fetch joins the queue. *)
Lemma load_waits w u p j :
  running w = Some j ->
  loadFromURL u p w
  = {| stages := stages w; isDisposed := isDisposed w;
       running := Some j;
       waiting := waiting w ++ [{| ticket := calls w; job_url := u; job_position := p |}];
       _oldestURL := _oldestURL w; localStorage := localStorage w;
       trace := trace w;
       settled := settled w;
       calls := S (calls w) |}.
Proof. intros Hr. unfold loadFromURL. simpl. by rewrite Hr. Qed.

(** What [doLoad] leaves once its map is there, on a manager that is not
    disposed: the new stage is the last one, and no fetch was issued. *)
Lemma doLoad_loaded_live opts u p map w :
  isDisposed w = false ->
  let w' := doLoad_loaded opts u p map w in
  (exists l, stages w' = l ++ [(new_Stage u p map opts (trace w)).1])
  /\ List.filter isFetch (trace w') = List.filter isFetch (trace w)
  /\ isDisposed w' = false /\ running w' = running w /\ waiting w' = waiting w
  /\ settled w' = settled w /\ calls w' = calls w.
Proof.
  intros Hd. unfold doLoad_loaded. rewrite Hd.
  destruct (new_Stage_trace u p map opts (trace w)) as (ev & E & F).
  destruct (new_Stage u p map opts (trace w)) as [st tr]. simpl in E. subst tr.
  assert (Hev : List.filter isFetch (trace w ++ ev) = List.filter isFetch (trace w)).
  { rewrite List.filter_app, (filter_none _ _ F). by rewrite app_nil_r. }
  destruct (stages w) as [|a [|b l]]; simpl.
  - repeat split; try done. by exists [].
  - repeat split; try done. by exists [a].
  - rewrite length_app. simpl.
    replace (length l + 1)%nat with (S (length l)) by lia. simpl.
    repeat split; try done.
    + by exists (b :: l).
    + rewrite Stage_dispose_eq, List.filter_app, Hev.
      rewrite (filter_none _ _ (Stage_dispose_no_fetch a)). by rewrite app_nil_r.
Qed.

End QueueFacts.

(** ** A pair of calls on the queue *)

Module PairFacts.
Import Babylon Js Game TraceFacts StageProps ManagerProps FetchFacts QueueFacts.

Lemma startJobs_calls js w : calls (startJobs js w) = calls w.
Proof.
  revert w. induction js as [|j js IH]; intros w; simpl; [done|].
  destruct (findStage w _ _); [|done]. by rewrite IH.
Qed.

(** Starting calls that are not of the pair. *)
Lemma startJobs_others t js w :
  Forall (other t) js ->
  let w' := startJobs js w in
  (forall j, running w' = Some j -> other t j)
  /\ Forall (other t) (waiting w')
  /\ exists new, settled w' = settled w ++ new
                 /\ Forall (fun s => s.1 <> t /\ s.1 <> S t) new.
Proof.
  revert w. induction js as [|j js IH]; intros w Hjs; simpl.
  - split; [done|]. split; [done|]. exists []. by rewrite app_nil_r.
  - apply Forall_cons in Hjs as [Hj Hjs].
    destruct (findStage w _ _) eqn:Hf.
    + destruct (IH (settle j (Resolved (job_url j)) w) Hjs) as (H1 & H2 & new & E & F).
      split; [done|]. split; [done|].
      exists ((ticket j, Resolved (job_url j)) :: new). simpl in E.
      rewrite E, <- app_assoc. split; [done|]. by constructor.
    + simpl. split; [by intros ? [= <-]|]. split; [done|].
      exists []. by rewrite app_nil_r.
Qed.

Lemma startJobs_keeps js w :
  stages (startJobs js w) = stages w /\ isDisposed (startJobs js w) = isDisposed w
  /\ calls (startJobs js w) = calls w.
Proof. by rewrite startJobs_stages, startJobs_isDisposed, startJobs_calls. Qed.

Lemma unsettled_app t w new w' :
  unsettled t w -> settled w' = settled w ++ new ->
  Forall (fun s => s.1 <> t /\ s.1 <> S t) new -> unsettled t w'.
Proof. unfold unsettled. intros H -> F. by apply Forall_app. Qed.

Lemma bothResolved_app u t w new w' :
  bothResolved u t w -> settled w' = settled w ++ new ->
  Forall (fun s => s.1 <> t /\ s.1 <> S t) new -> bothResolved u t w'.
Proof.
  intros (H1 & H2 & H3) E F. unfold bothResolved. rewrite E.
  split; [apply elem_of_app; by left|]. split; [apply elem_of_app; by left|].
  apply Forall_app. split; [done|].
  eapply Forall_impl; [exact F|]. intros s [A B] [C|C]; congruence.
Qed.

(** Starting the calls of a queue that holds the pair. *)
Lemma startJobs_pair u p t n ws1 ws2 w :
  isDisposed w = false -> (S t < calls w)%nat ->
  Forall (other t) ws1 -> Forall (other t) ws2 -> unsettled t w ->
  (length ws1 + 1 <= n)%nat ->
  served u p t n (startJobs (ws1 ++ pairJob u p t :: pairJob u p (S t) :: ws2) w).
Proof.
  revert w n. induction ws1 as [|j ws1 IH]; intros w n Hd Hc H1 H2 Hu Hn.
  - cbn [app startJobs pairJob job_url job_position].
    destruct (findStage w u p) as [st|] eqn:Hf.
    + (* the first finds its stage, and so does the second *)
      cbn [startJobs job_url job_position].
      replace (findStage (settle (pairJob u p t) (Resolved u) w) u p) with (Some st)
        by (symmetry; exact Hf).
      match goal with |- served _ _ _ _ (startJobs ws2 ?w0) => set (w1 := w0) end.
      destruct (startJobs_others t ws2 w1 H2) as (R1 & R2 & new & E & F).
      destruct (startJobs_keeps ws2 w1) as (_ & K2 & K3).
      split; [by rewrite K2|]. split; [by rewrite K3|].
      right; right. split; [done|]. split; [done|].
      eapply (bothResolved_app u t w1); [|exact E|exact F].
      unfold bothResolved, w1. cbn [settled settle ticket pairJob].
      split; [set_solver|]. split; [set_solver|].
      rewrite !Forall_app, !Forall_singleton. split; [split|]; [|done|done].
      eapply Forall_impl; [exact Hu|]. intros s [A B] [C|C]; congruence.
    + (* the first fetches, the second waits behind it *)
      split; [done|]. split; [done|].
      right; left. exists ws2. split; [done|]. split; [done|].
      split; [done|]. split; [exact Hu|]. split; [simpl in Hn; lia|exact Hf].
  - apply Forall_cons in H1 as [Hj H1].
    cbn [app startJobs].
    destruct (findStage w (job_url j) (job_position j)) as [st|] eqn:Hf.
    + assert (S : served u p t (n - 1)
                (startJobs (ws1 ++ pairJob u p t :: pairJob u p (S t) :: ws2)
                           (settle j (Resolved (job_url j)) w))).
      { apply IH; try done.
        - unfold unsettled. cbn [settled settle]. apply Forall_app. split; [done|].
          by apply Forall_singleton.
        - simpl in Hn. lia. }
      destruct S as (S1 & S2 & S3). split; [done|]. split; [done|].
      destruct S3
        as [(j0 & a & b & ? & ? & ? & ? & ? & ? & ?)|[(b & ? & ? & ? & ? & ? & ?)|S3]].
      * left. exists j0, a, b. repeat (split; [done|]). lia.
      * right; left. exists b. repeat (split; [done|]). split; [lia|done].
      * by right; right.
    + split; [done|]. split; [done|].
      left. exists j, ws1, ws2. cbn [running waiting settled].
      repeat (split; [done|]). simpl in Hn. lia.
Qed.

Lemma served_weaken u p t n m w : (n <= m)%nat -> served u p t n w -> served u p t m w.
Proof.
  intros Hnm (H1 & H2 & H3). split; [done|]. split; [done|].
  destruct H3
    as [(j0 & a & b & ? & ? & ? & ? & ? & ? & ?)|[(b & ? & ? & ? & ? & ? & ?)|S3]].
  - left. exists j0, a, b. repeat (split; [done|]). lia.
  - right; left. exists b. repeat (split; [done|]). split; [lia|done].
  - by right; right.
Qed.

(** A later call joins the queue behind the pair. *)
Lemma served_load u p t n w u' p' :
  served u p t n w -> served u p t n (loadFromURL u' p' w).
Proof.
  intros (Hd & Hc & H). unfold loadFromURL. cbn [running waiting calls].
  set (j := {| ticket := calls w; job_url := u'; job_position := p' |}).
  assert (Hj : other t j) by (unfold other, j; cbn; lia).
  destruct H
    as [(j0 & a & b & Hr & Hw & ? & ? & ? & ? & ?)|[(b & Hr & Hw & ? & ? & ? & ?)|H]].
  - rewrite Hr. split; [done|]. split; [cbn; lia|].
    left. exists j0, a, (b ++ [j]). cbn [running waiting settled].
    split; [done|]. split; [by rewrite Hw, <- app_assoc|].
    repeat (split; [done|]). split; [|done]. apply Forall_app. split; [done|].
    by apply Forall_singleton.
  - rewrite Hr. split; [done|]. split; [cbn; lia|].
    right; left. exists (b ++ [j]). cbn [running waiting settled].
    split; [done|]. split; [by rewrite Hw|].
    split; [|done]. apply Forall_app. split; [done|]. by apply Forall_singleton.
  - destruct H as (Hr & Hw & Hb).
    assert (Hall : Forall (other t) (waiting w ++ [j])).
    { apply Forall_app. split; [done|]. by apply Forall_singleton. }
    destruct (running w) as [j0|] eqn:Er.
    + split; [done|]. split; [cbn; lia|].
      right; right. cbn [running waiting]. split; [intros ? [= <-]; by apply Hr|].
      split; [done|]. exact Hb.
    + match goal with |- served _ _ _ _ (startJobs _ ?w0) => set (w1 := w0) end.
      destruct (startJobs_others t _ w1 Hall) as (R1 & R2 & new & E & F).
      destruct (startJobs_keeps (waiting w ++ [j]) w1) as (_ & K2 & K3).
      split; [by rewrite K2|]. split; [rewrite K3; cbn; lia|].
      right; right. split; [done|]. split; [done|].
      by eapply (bothResolved_app u t w1).
Qed.

(** A fetch that comes back with its map serves the queue further. *)
Lemma served_fetch opts u p t n w map :
  served u p t n w -> served u p t (n - 1) (fetchSettled opts (Some map) w).
Proof.
  intros (Hd & Hc & H). unfold fetchSettled.
  destruct H
    as [(j0 & a & b & Hr & Hw & ? & ? & ? & Hu & ?)|[(b & Hr & Hw & ? & Hu & ? & _)|H]].
  - rewrite Hr.
    destruct (doLoad_loaded_live opts (job_url j0) (job_position j0) map w Hd)
      as (_ & _ & Hd' & Hr' & Hw' & Hse & Hc').
    set (w0 := doLoad_loaded opts (job_url j0) (job_position j0) map w) in *.
    cbn [waiting settle]. rewrite Hw', Hw.
    apply startJobs_pair; try done.
    + cbn. by rewrite Hc'.
    + unfold unsettled. cbn [settled settle]. rewrite Hse. apply Forall_app.
      split; [done|]. by apply Forall_singleton.
    + lia.
  - rewrite Hr. cbn [job_url job_position pairJob].
    destruct (doLoad_loaded_live opts u p map w Hd)
      as ((l & Hs) & _ & Hd' & Hr' & Hw' & Hse & Hc').
    set (w0 := doLoad_loaded opts u p map w) in *.
    cbn [waiting settle]. rewrite Hw', Hw.
    apply (served_weaken u p t 0); [lia|].
    change (pairJob u p (S t) :: b) with ([] ++ pairJob u p (S t) :: b).
    assert (Hfind : is_Some (findStage w0 u p)).
    { unfold findStage. rewrite Hs. apply find_last, matches_new_Stage. }
    destruct Hfind as [st Hst].
    cbn [app startJobs job_url job_position pairJob].
    replace (findStage _ u p) with (Some st) by (symmetry; exact Hst).
    match goal with |- served _ _ _ _ (startJobs b ?w2) => set (w1 := w2) end.
    destruct (startJobs_others t b w1 ltac:(done)) as (R1 & R2 & new & E & F).
    destruct (startJobs_keeps b w1) as (_ & K2 & K3).
    split; [by rewrite K2|]. split; [rewrite K3; cbn; by rewrite Hc'|].
    right; right. split; [done|]. split; [done|].
    eapply (bothResolved_app u t w1); [|exact E|exact F].
    unfold bothResolved, w1. cbn [settled settle ticket pairJob]. rewrite Hse.
    split; [set_solver|]. split; [set_solver|].
    rewrite !Forall_app, !Forall_singleton. split; [split|]; [|done|done].
    eapply Forall_impl; [exact Hu|]. intros s [A B] [C|C]; congruence.
  - destruct H as (Hr & Hw & Hb).
    destruct (running w) as [j0|] eqn:Er.
    + destruct (doLoad_loaded_live opts (job_url j0) (job_position j0) map w Hd)
        as (_ & _ & Hd' & Hr' & Hw' & Hse & Hc').
      set (w0 := doLoad_loaded opts (job_url j0) (job_position j0) map w) in *.
      cbn [waiting settle]. rewrite Hw'.
      match goal with |- served _ _ _ _ (startJobs _ ?w2) => set (w1 := w2) end.
      destruct (startJobs_others t _ w1 Hw) as (R1 & R2 & new & E & F).
      destruct (startJobs_keeps (waiting w) w1) as (_ & K2 & K3).
      split; [by rewrite K2|]. split; [rewrite K3; cbn; by rewrite Hc'|].
      right; right. split; [done|]. split; [done|].
      eapply (bothResolved_app u t w1); [|exact E|exact F].
      eapply (bothResolved_app u t w); [done| |].
      * unfold w1. cbn [settled settle]. rewrite Hse. reflexivity.
      * apply Forall_singleton. by apply Hr.
    + split; [done|]. split; [done|]. right; right. rewrite Er. done.
Qed.

Lemma served_step opts u p t n w e :
  live e = true -> served u p t n w ->
  served u p t (n - (if isFetchSettled e then 1 else 0)) (step opts w e).
Proof.
  intros Hl H. destruct e as [u' p'|l|[map|]|]; try discriminate; cbn [step isFetchSettled].
  - rewrite Nat.sub_0_r. by apply served_load.
  - rewrite Nat.sub_0_r. by apply served_load.
  - by apply served_fetch.
Qed.

Lemma served_run opts u p t n w es :
  forallb live es = true -> served u p t n w ->
  served u p t (n - length (List.filter isFetchSettled es)) (run opts es w).
Proof.
  revert n w. induction es as [|e es IH]; intros n w Hl H; cbn [run fold_left].
  - cbn. by rewrite Nat.sub_0_r.
  - cbn [forallb] in Hl. apply andb_true_iff in Hl as [Hl1 Hl2].
    pose proof (IH _ _ Hl2 (served_step opts u p t n w e Hl1 H)) as S.
    eapply served_weaken; [|exact S]. cbn [List.filter].
    destruct (isFetchSettled e); cbn [length]; lia.
Qed.

(** The first call of a pair on a manager whose queue does not run. *)
Lemma startJobs_first u p t ws w :
  isDisposed w = false -> Forall (other t) ws -> unsettled t w ->
  let w1 := startJobs (ws ++ [pairJob u p t]) w in
  (exists j0 ws1,
     running w1 = Some j0 /\ waiting w1 = ws1 ++ [pairJob u p t]
     /\ other t j0 /\ Forall (other t) ws1 /\ unsettled t w1
     /\ (length ws1 < length ws)%nat)
  \/ (running w1 = Some (pairJob u p t) /\ waiting w1 = [] /\ unsettled t w1
      /\ findStage w1 u p = None)
  \/ (running w1 = None /\ waiting w1 = [] /\ is_Some (findStage w1 u p)
      /\ exists s, settled w1 = s ++ [(t, Resolved u)]
                   /\ Forall (fun e => e.1 <> t /\ e.1 <> S t) s).
Proof.
  revert w. induction ws as [|j ws IH]; intros w Hd Hws Hu; cbn [app startJobs].
  - cbn [pairJob job_url job_position].
    destruct (findStage w u p) as [st|] eqn:Hf.
    + right; right. cbn. split; [done|]. split; [done|].
      split; [unfold findStage in *; cbn; by rewrite Hf|]. by exists (settled w).
    + right; left. done.
  - apply Forall_cons in Hws as [Hj Hws].
    destruct (findStage w (job_url j) (job_position j)) as [st|] eqn:Hf.
    + destruct (IH (settle j (Resolved (job_url j)) w)) as [H|[H|H]]; try done.
      * unfold unsettled. cbn. apply Forall_app. split; [done|]. by apply Forall_singleton.
      * left. destruct H as (j0 & ws1 & ? & ? & ? & ? & ? & ?).
        exists j0, ws1. repeat (split; [done|]). cbn [length]. lia.
      * by right; left.
      * by right; right.
    + left. exists j, ws. cbn [running waiting].
      split; [done|]. split; [done|]. split; [done|]. split; [done|].
      split; [exact Hu|]. cbn [length]. lia.
Qed.

(** The tickets of a world that is [ticketed] are not those of the next
    two calls. *)
Lemma ticketed_other w :
  ticketed w ->
  (forall j, running w = Some j -> other (calls w) j)
  /\ Forall (other (calls w)) (waiting w) /\ unsettled (calls w) w.
Proof.
  intros (H1 & H2 & H3). split; [|split].
  - intros j Hj. specialize (H1 j Hj). unfold other. lia.
  - eapply Forall_impl; [exact H2|]. intros j Hj. cbn in Hj. unfold other. lia.
  - eapply Forall_impl; [exact H3|]. intros s Hs. cbn in Hs. cbn. lia.
Qed.

(** Two calls for the same (url, position), one after the other. *)
Lemma served_pair opts u p w :
  isDisposed w = false -> ticketed w ->
  served u p (calls w) (length (waiting w) + 2)
         (run opts [CallLoadFromURL u p; CallLoadFromURL u p] w).
Proof.
  intros Hd Ht. destruct (ticketed_other w Ht) as (O1 & O2 & O3).
  set (t := calls w) in *.
  cbn [run fold_left step].
  destruct (running w) as [j0|] eqn:Hr.
  - rewrite (load_waits w u p j0 Hr). erewrite load_waits by reflexivity.
    cbn [calls waiting]. fold t.
    split; [done|]. split; [cbn; lia|].
    left. exists j0, (waiting w), []. cbn [running waiting settled].
    split; [done|]. split; [by rewrite <- app_assoc|].
    split; [by apply O1|]. repeat (split; [done|]). lia.
  - unfold loadFromURL at 2. cbn [running waiting calls]. rewrite Hr. fold t.
    match goal with |- context [startJobs _ ?w0] => set (w0' := w0) end.
    destruct (startJobs_first u p t (waiting w) w0' Hd O2 O3) as [H|[H|H]];
      destruct (startJobs_keeps (waiting w ++ [pairJob u p t]) w0') as (K1 & K2 & K3);
      fold (pairJob u p t) in *;
      set (w1 := startJobs (waiting w ++ [pairJob u p t]) w0') in *.
    + destruct H as (j0 & ws1 & Hr1 & Hw1 & ? & ? & ? & ?).
      rewrite (load_waits w1 u p j0 Hr1). rewrite K3. cbn [calls w0'].
      split; [cbn; by rewrite K2|]. split; [cbn; lia|].
      left. exists j0, ws1, []. cbn [running waiting settled].
      split; [done|]. split; [by rewrite Hw1, <- app_assoc|].
      repeat (split; [done|]). lia.
    + destruct H as (Hr1 & Hw1 & ? & Hf1).
      rewrite (load_waits w1 u p _ Hr1). rewrite K3, Hw1. cbn [calls w0'].
      split; [cbn; by rewrite K2|]. split; [cbn; lia|].
      right; left. exists []. cbn [running waiting settled].
      repeat (split; [done|]). split; [lia|exact Hf1].
    + destruct H as (Hr1 & Hw1 & Hf & s & Hs & Fs).
      rewrite (load_found w1 u p Hr1 Hw1 Hf). rewrite K3. cbn [calls w0'].
      split; [cbn; by rewrite K2|]. split; [cbn; lia|].
      right; right. cbn [running waiting]. split; [done|]. split; [done|].
      unfold bothResolved. cbn [settled]. rewrite Hs. fold t.
      split; [set_solver|]. split; [set_solver|].
      rewrite !Forall_app, !Forall_singleton. split; [split|]; [|done|done].
      eapply Forall_impl; [exact Fs|]. intros e [A B] [C|C]; congruence.
Qed.

(** *** The tickets *)

Lemma startJobs_ticketed js w :
  Forall (fun j => (ticket j < calls w)%nat) js ->
  Forall (fun s => (s.1 < calls w)%nat) (settled w) ->
  ticketed (startJobs js w).
Proof.
  revert w. induction js as [|j js IH]; intros w Hjs Hs; cbn [startJobs].
  - split; [done|]. split; [done|done].
  - apply Forall_cons in Hjs as [Hj Hjs].
    destruct (findStage w _ _).
    + apply IH; [done|]. cbn. apply Forall_app. split; [done|]. by apply Forall_singleton.
    + split; [by intros ? [= <-]|]. split; done.
Qed.

Lemma step_ticketed opts w e : ticketed w -> ticketed (step opts w e).
Proof.
  intros Ht. pose proof Ht as (H1 & H2 & H3).
  assert (Hload : forall u p, ticketed (loadFromURL u p w)).
  { intros u p. unfold loadFromURL. cbn [running waiting].
    assert (Hw : Forall (fun j => (ticket j < S (calls w))%nat)
                   (waiting w ++ [{| ticket := calls w; job_url := u; job_position := p |}])).
    { apply Forall_app. split.
      - eapply Forall_impl; [exact H2|]. cbn. lia.
      - apply Forall_singleton. cbn. lia. }
    assert (Hs : Forall (fun s => (s.1 < S (calls w))%nat) (settled w)).
    { eapply Forall_impl; [exact H3|]. cbn. lia. }
    destruct (running w) as [j0|] eqn:Hr.
    - split; [|split]; cbn [running waiting settled calls]; [|done|done].
      intros j [= <-]. specialize (H1 j0 eq_refl). lia.
    - by apply startJobs_ticketed. }
  destruct e as [u p|l|r|]; cbn [step].
  - apply Hload.
  - apply Hload.
  - unfold fetchSettled. destruct (running w) as [j|] eqn:Hr; [|done].
    assert (Hd : forall map, let w0 := doLoad_loaded opts (job_url j) (job_position j) map w in
              calls w0 = calls w /\ waiting w0 = waiting w /\ settled w0 = settled w).
    { intros map. unfold doLoad_loaded. destruct (isDisposed w); [done|].
      destruct (new_Stage _ _ _ _ _) as [st tr].
      destruct (stages w ++ [st]) as [|a l]; [done|].
      destruct (2 <? length (a :: l))%nat; [destruct l|]; done. }
    destruct r as [map|].
    + destruct (Hd map) as (E1 & E2 & E3).
      apply startJobs_ticketed; cbn; rewrite ?E1, ?E2, ?E3; [done|].
      apply Forall_app. split; [done|]. apply Forall_singleton. cbn. by apply H1.
    + apply startJobs_ticketed; cbn; [done|].
      apply Forall_app. split; [done|]. apply Forall_singleton. cbn. by apply H1.
  - exact Ht.
Qed.

Lemma run_ticketed opts es w : ticketed w -> ticketed (run opts es w).
Proof.
  revert w. induction es as [|e es IH]; intros w H; cbn [run fold_left]; [done|].
  apply IH. by apply step_ticketed.
Qed.

Lemma startJobs_localStorage js w : localStorage (startJobs js w) = localStorage w.
Proof.
  revert w. induction js as [|j js IH]; intros w; simpl; [done|].
  destruct (findStage w _ _); [|done]. by rewrite IH.
Qed.

(** What [doLoad] does once its map is there, on a manager with two stages. *)
Lemma doLoad_loaded_evicts opts u p map w a b :
  stages w = [a; b] -> isDisposed w = false ->
  let w' := doLoad_loaded opts u p map w in
  let built := new_Stage u p map opts (trace w) in
  stages w' = [b; built.1]
  /\ trace w' = built.2 ++ stopHooks a ++ releases a
  /\ _oldestURL w' = url b
  /\ localStorage w' !! "stage-oldest-url" = Some (url b).
Proof.
  intros Hst Hd. cbv zeta. unfold doLoad_loaded. rewrite Hd, Hst.
  destruct (new_Stage u p map opts (trace w)) as [st tr]. cbn.
  rewrite Stage_dispose_eq, lookup_insert_eq. done.
Qed.

(** The pair on a manager whose tickets are in order, whatever its queue
    holds. *)
Lemma pair_in_queue opts w u p es :
  isDisposed w = false -> ticketed w -> forallb live es = true ->
  let first := calls w in
  let second := S (calls w) in
  let w' := run opts es (run opts [CallLoadFromURL u p; CallLoadFromURL u p] w) in
  (forall j, running w' = Some j -> ticket j <> second)
  /\ (forall j, running w' = Some j -> ticket j = first -> findStage w' u p = None)
  /\ (forall r, (first, r) ∈ settled w' -> r = Resolved u)
  /\ (forall r, (second, r) ∈ settled w' -> r = Resolved u)
  /\ ((length (waiting w) + 2 <= length (List.filter isFetchSettled es))%nat ->
      (first, Resolved u) ∈ settled w' /\ (second, Resolved u) ∈ settled w').
Proof.
  intros Hd Ht Hl first second w'.
  pose proof (served_run opts u p first _ _ es Hl (served_pair opts u p w Hd Ht))
    as (_ & _ & S). fold w' in S.
  set (k := length (List.filter isFetchSettled es)) in *.
  destruct S as [(j0 & a & b & Hr & _ & Ho & _ & _ & Hu & Hn)
                |[(b & Hr & _ & _ & Hu & Hn & Hf)|(Hr & _ & H1 & H2 & H3)]].
  - split; [intros j; rewrite Hr; intros [= <-]; apply Ho|].
    split; [intros j; rewrite Hr; intros [= <-] E; by destruct Ho|].
    unfold unsettled in Hu. rewrite Forall_forall in Hu.
    split; [intros r Hin; by destruct (Hu _ Hin)|].
    split; [intros r Hin; by destruct (Hu _ Hin)|]. lia.
  - split; [intros j; rewrite Hr; intros [= <-]; cbn; unfold second, first; lia|].
    split; [intros j _ _; exact Hf|].
    unfold unsettled in Hu. rewrite Forall_forall in Hu.
    split; [intros r Hin; by destruct (Hu _ Hin)|].
    split; [intros r Hin; by destruct (Hu _ Hin)|]. lia.
  - rewrite Forall_forall in H3.
    split; [intros j Hj; by apply Hr|].
    split; [intros j Hj E; by destruct (Hr j Hj)|].
    split; [intros r Hin; apply (H3 _ Hin); by left|].
    split; [intros r Hin; apply (H3 _ Hin); by right|]. done.
Qed.

(** The pair on a manager at rest: the count of the fetches. *)
Lemma pair_at_rest opts w u p map :
  isDisposed w = false -> running w = None -> waiting w = [] ->
  let w' := run opts [CallLoadFromURL u p; CallLoadFromURL u p;
                      FetchSettled (Some map)] w in
  fetches w' = (fetches w + match findStage w u p with Some _ => 0 | None => 1 end)%nat
  /\ settled w' = settled w ++ [(calls w, Resolved u); (S (calls w), Resolved u)]
  /\ is_Some (findStage w' u p)
  /\ running w' = None /\ waiting w' = [].
Proof.
  intros Hd Hr Hw. cbn [run fold_left step].
  destruct (findStage w u p) as [st|] eqn:Hf.
  - rewrite (load_found w u p Hr Hw) by (by eexists).
    rewrite load_found by (try done; unfold findStage in *; simpl; by eexists).
    unfold fetchSettled, fetches. simpl.
    repeat split; try done; try lia.
    by rewrite <- app_assoc.
  - rewrite (load_fetches w u p Hr Hw Hf).
    erewrite load_waits by reflexivity. simpl.
    unfold fetchSettled. simpl.
    match goal with
    | |- context [doLoad_loaded opts u p map ?w0] =>
      destruct (doLoad_loaded_live opts u p map w0 Hd)
        as ((l & Hs) & Ht & Hd' & Hr' & Hw' & Hse & Hc);
      set (w1 := doLoad_loaded opts u p map w0) in *
    end.
    simpl in *. rewrite Hw'. simpl.
    assert (Hfind : is_Some (find (matches u p) (stages w1))).
    { rewrite Hs. apply find_last, matches_new_Stage. }
    destruct Hfind as [x Hx].
    unfold findStage. simpl. rewrite Hx. simpl.
    unfold fetches. simpl. rewrite Ht, List.filter_app, length_app. simpl.
    repeat split; try done.
    by rewrite Hse, <- app_assoc.
Qed.

Lemma new_ticketed opts storage es : ticketed (run opts es (new_StageManager storage)).
Proof. apply run_ticketed. split; [done|]. split; constructor. Qed.

End PairFacts.

(** ** The claims about stages and the stage manager *)

Module StageClaims.
Import Babylon Js Game TraceFacts StageProps ManagerProps FetchFacts DisposeFacts
  QueueFacts PairFacts.

(** C1.  A manager holds two stages [a] and [b] and is not disposed.  When
    it is at rest and a load of a third (url, position) that matches neither
    is called and its fetch delivers a map, the stage loaded first, [a], is
    removed and disposed (after the new stage was built), and exactly the two
    stages [b] and the new one remain.  The same holds whenever the load in
    flight completes, whatever waits behind it.  And whatever happens to a
    new manager, it never holds more than two stages. *)
Theorem third_load_evicts_first opts w a b map :
  stages w = [a; b] -> isDisposed w = false ->
  (forall u p,
     running w = None -> waiting w = [] -> findStage w u p = None ->
     let w' := run opts [CallLoadFromURL u p; FetchSettled (Some map)] w in
     let built := new_Stage u p map opts (trace w ++ [EFetch u]) in
     stages w' = [b; built.1]
     /\ trace w' = built.2 ++ stopHooks a ++ releases a
     /\ length (stages w') = 2%nat)
  /\ (forall j,
       running w = Some j ->
       let w' := fetchSettled opts (Some map) w in
       let built := new_Stage (job_url j) (job_position j) map opts (trace w) in
       stages w' = [b; built.1]
       /\ (exists later,
             trace w' = built.2 ++ stopHooks a ++ releases a ++ later
             /\ Forall (fun e => isFetch e = true) later)
       /\ length (stages w') = 2%nat)
  /\ forall storage es,
       (length (stages (run opts es (new_StageManager storage))) <= 2)%nat.
Proof.
  intros Hst Hd. split; [|split].
  - intros u p Hr Hw Hf w' built.
    destruct (third_load opts w a b u p map Hst Hd Hr Hw Hf) as (H1 & H2 & _).
    fold w' built in H1, H2.
    rewrite H1, H2, Stage_dispose_eq. done.
  - intros j Hr w' built.
    destruct (load_completes opts w a b j map Hst Hd Hr)
      as (H1 & (later & H2 & F) & _).
    fold w' built in H1, H2. rewrite H1. repeat split; try done.
    exists later. rewrite H2, Stage_dispose_eq, <- !app_assoc. done.
  - intros storage es. apply run_cap. simpl. lia.
Qed.

Lemma third_load_evicts_first_witness :
  url <$> stages Samples.twoStages = ["a.json"; "b.json"]
  /\ url <$> stages Samples.thirdLoaded = ["b.json"; "c.json"].
Proof.
  split; [vm_compute; reflexivity|].
  edestruct (third_load_evicts_first Samples.opts Samples.twoStages
               (Samples.stageOf "a.json") (Samples.stageOf "b.json")
               Samples.map) as (H & _).
  - vm_compute. reflexivity.
  - vm_compute. reflexivity.
  - destruct (H "c.json" Zero) as (H1 & _).
    + vm_compute. reflexivity.
    + vm_compute. reflexivity.
    + vm_compute. reflexivity.
    + unfold Samples.thirdLoaded. rewrite H1. vm_compute. reflexivity.
Defined.

(** C2, as the code has it.  On a manager that is not disposed (made anew
    and used in any way since), two calls of [loadFromURL] with the same
    (url, position) are made one right after the other, whatever the queue
    holds by then.  As long as the manager is not disposed and the fetches
    deliver their maps, whatever else is called: the second call is never
    the one that waits for a fetch (a call fetches when it becomes the
    running one), and the first one is only while no stage matches, so the
    pair causes at most one fetch; each of the two is resolved with the url
    and with nothing else, and both are resolved once as many fetches have
    come back as calls were waiting, and two more.  When the manager was at
    rest the count is exact: one fetch when no stage matched before (the
    second call then finds the stage that the first one added), none when
    one did. *)
Theorem single_flight opts storage es0 u p :
  let w := run opts es0 (new_StageManager storage) in
  isDisposed w = false ->
  let first := calls w in
  let second := S (calls w) in
  let w0 := run opts [CallLoadFromURL u p; CallLoadFromURL u p] w in
  (forall es, forallb live es = true ->
     let w' := run opts es w0 in
     (forall j, running w' = Some j -> ticket j <> second)
     /\ (forall j, running w' = Some j -> ticket j = first -> findStage w' u p = None)
     /\ (forall r, (first, r) ∈ settled w' -> r = Resolved u)
     /\ (forall r, (second, r) ∈ settled w' -> r = Resolved u)
     /\ ((length (waiting w) + 2 <= length (List.filter isFetchSettled es))%nat ->
         (first, Resolved u) ∈ settled w' /\ (second, Resolved u) ∈ settled w'))
  /\ (running w = None -> waiting w = [] ->
      forall map,
        let w' := run opts [FetchSettled (Some map)] w0 in
        fetches w'
        = (fetches w + match findStage w u p with Some _ => 0 | None => 1 end)%nat
        /\ settled w' = settled w ++ [(first, Resolved u); (second, Resolved u)]
        /\ is_Some (findStage w' u p)
        /\ running w' = None /\ waiting w' = []).
Proof.
  intros w Hd first second w0. split.
  - intros es Hl. apply pair_in_queue; [done|apply new_ticketed|done].
  - intros Hr Hw map. by apply (pair_at_rest opts w u p map).
Qed.

Lemma single_flight_witness :
  fetches (run Samples.opts
             [CallLoadFromURL "a.json" Zero; CallLoadFromURL "a.json" Zero;
              FetchSettled (Some Samples.map)]
             (new_StageManager ∅)) = 1%nat.
Proof.
  destruct (single_flight Samples.opts ∅ [] "a.json" Zero) as (_ & H).
  - reflexivity.
  - destruct (H eq_refl eq_refl Samples.map) as (H1 & _).
    cbn [run fold_left] in *. rewrite H1. vm_compute. reflexivity.
Defined.

(** C2 as stated fails: when the manager is disposed before the first fetch
    comes back, the first call adds no stage, the second call finds none, and
    the two calls for the same (url, position) fetch twice.  So they do
    when the first fetch fails: the first call is rejected and the second
    one fetches again.  And when the stage is active already, the two calls
    fetch nothing. *)
Lemma single_flight_counterexample :
  fetches Samples.disposedMeanwhile = 2%nat
  /\ fetches Samples.disposedMeanwhile <> 1%nat
  /\ stages Samples.disposedMeanwhile = []
  /\ settled Samples.disposedMeanwhile
     = [(0%nat, Resolved "a.json"); (1%nat, Resolved "a.json")]
  /\ (let w := run Samples.opts
                 [CallLoadFromURL "a.json" Zero; CallLoadFromURL "a.json" Zero;
                  FetchSettled None]
                 (new_StageManager ∅) in
      fetches w = 2%nat /\ settled w = [(0%nat, Rejected)])
  /\ fetches (run Samples.opts
                [CallLoadFromURL "a.json" Zero; CallLoadFromURL "a.json" Zero]
                Samples.twoStages)
     = fetches Samples.twoStages.
Proof. vm_compute. repeat split; congruence. Qed.

(** C3.  [dispose] disposes every stage of the manager, in order.  Whatever
    happens afterwards (calls, fetches that come back, whether with a map or
    not), the manager stays disposed, its list of stages is the one it had,
    and nothing that the constructor of a stage does is ever done again. *)
Theorem never_after_dispose opts w es :
  let w1 := dispose w in
  let w2 := run opts es w1 in
  trace w1
  = trace w ++ concat ((fun stage => stopHooks stage ++ releases stage) <$> stages w)
  /\ isDisposed w2 = true
  /\ stages w2 = stages w
  /\ exists later, trace w2 = trace w1 ++ later
                   /\ Forall (fun e => isConstruction e = false) later.
Proof.
  intros w1 w2. split; [apply dispose_trace|].
  destruct (run_disposed opts es w1 eq_refl) as (H1 & H2 & H3).
  repeat split; try done.
Qed.

(** C4, as the code has it.  When [doLoad] adds a third stage to a manager
    that holds the stages [a] and [b] and is not disposed, it evicts and
    disposes the stage at index 0, [a], after the new stage was built; the
    url recorded as the oldest url (in the static field and in the local
    storage) is the url of the stage that is at index 0 after the eviction,
    [b].  So it is when the load in flight completes, whatever waits behind
    it, and when the load is called on a manager at rest. *)
Theorem oldest_url_after_eviction opts w a b map :
  stages w = [a; b] -> isDisposed w = false ->
  (forall u p,
     let w' := doLoad_loaded opts u p map w in
     let built := new_Stage u p map opts (trace w) in
     stages w' = [b; built.1]
     /\ trace w' = built.2 ++ stopHooks a ++ releases a
     /\ _oldestURL w' = url b
     /\ localStorage w' !! "stage-oldest-url" = Some (url b))
  /\ (forall j,
        running w = Some j ->
        let w' := fetchSettled opts (Some map) w in
        let built := new_Stage (job_url j) (job_position j) map opts (trace w) in
        (exists later,
           trace w' = built.2 ++ stopHooks a ++ releases a ++ later
           /\ Forall (fun e => isFetch e = true) later)
        /\ head (stages w') = Some b
        /\ _oldestURL w' = url b
        /\ localStorage w' !! "stage-oldest-url" = Some (url b))
  /\ (forall u p,
        running w = None -> waiting w = [] -> findStage w u p = None ->
        let w' := run opts [CallLoadFromURL u p; FetchSettled (Some map)] w in
        let built := new_Stage u p map opts (trace w ++ [EFetch u]) in
        trace w' = built.2 ++ stopHooks a ++ releases a
        /\ head (stages w') = Some b
        /\ _oldestURL w' = url b
        /\ localStorage w' !! "stage-oldest-url" = Some (url b)).
Proof.
  intros Hst Hd. split; [|split].
  - intros u p. by apply doLoad_loaded_evicts.
  - intros j Hr w' built. unfold w', fetchSettled. rewrite Hr.
    destruct (doLoad_loaded_evicts opts (job_url j) (job_position j) map w a b Hst Hd)
      as (E1 & E2 & E3 & E4).
    fold built in E1, E2.
    match goal with
    | |- context [startJobs ?js ?w1] =>
      destruct (startJobs_trace js w1) as (later & E & F);
      rewrite startJobs_stages, startJobs_oldestURL, startJobs_localStorage, E;
      clear E
    end.
    cbn [settle trace stages _oldestURL localStorage].
    rewrite E1, E2, E3, E4. split; [|done].
    exists later. by rewrite <- !app_assoc.
  - intros u p Hr Hw Hf w' built.
    destruct (third_load opts w a b u p map Hst Hd Hr Hw Hf)
      as (H1 & H2 & H3 & H4 & _).
    fold w' built in H1, H2, H3, H4.
    rewrite H1, H2, Stage_dispose_eq. done.
Qed.

Lemma oldest_url_after_eviction_witness :
  _oldestURL Samples.thirdLoaded = "b.json".
Proof.
  edestruct (oldest_url_after_eviction Samples.opts Samples.twoStages
               (Samples.stageOf "a.json") (Samples.stageOf "b.json")
               Samples.map) as (_ & _ & H).
  - vm_compute. reflexivity.
  - vm_compute. reflexivity.
  - destruct (H "c.json" Zero) as (_ & _ & H3 & _).
    + vm_compute. reflexivity.
    + vm_compute. reflexivity.
    + vm_compute. reflexivity.
    + unfold Samples.thirdLoaded. rewrite H3. vm_compute. reflexivity.
Defined.

(** C4 as stated fails: with the stages of [a.json] and [b.json] active, the
    load of [c.json] evicts the stage of [a.json], and the url recorded is
    [b.json], which is not the url of the stage evicted here. *)
Lemma oldest_url_counterexample :
  url <$> stages Samples.twoStages = ["a.json"; "b.json"]
  /\ url <$> stages Samples.thirdLoaded = ["b.json"; "c.json"]
  /\ _oldestURL Samples.thirdLoaded = "b.json"
  /\ localStorage Samples.thirdLoaded !! "stage-oldest-url" = Some "b.json"
  /\ _oldestURL Samples.thirdLoaded <> "a.json".
Proof. vm_compute. repeat split; congruence. Qed.

(** C8.  [Stage.dispose] first calls [stopPlaying] on every object of the
    stage that has the hook, in order, and then disposes every object and
    the chunks: each call of a hook comes before each release, however many
    objects have the hook. *)
Theorem dispose_stops_then_releases stage tr :
  Stage_dispose stage tr = tr ++ stopHooks stage ++ releases stage
  /\ Forall (fun e => isStop e = true /\ isRelease e = false) (stopHooks stage)
  /\ Forall (fun e => isRelease e = true /\ isStop e = false) (releases stage)
  /\ (forall o, o ∈ objects stage -> hasStopPlaying o = true ->
        EStopPlaying (name o) ∈ stopHooks stage)
  /\ (forall o, o ∈ objects stage -> EDisposeObject (name o) ∈ releases stage)
  /\ EDisposeChunks (ch_name (chunks stage)) ∈ releases stage.
Proof.
  split; [apply Stage_dispose_eq|]. unfold stopHooks, releases.
  repeat split.
  - each_effect.
  - each_effect.
  - intros o Ho Hh. apply list_elem_of_fmap. exists o. split; [done|].
    apply list_elem_of_In, filter_In. split; [by apply list_elem_of_In|done].
  - intros o Ho. apply elem_of_app. left.
    apply list_elem_of_fmap. by exists o.
  - apply elem_of_app. right. by apply list_elem_of_singleton.
Qed.

End StageClaims.

(** ** The cursor *)

Module CursorProps.
Import Babylon Js CursorTs.

Lemma integral_inject z : integral (inject_Z z).
Proof. by exists z. Qed.

Lemma integral_floor x : integral (Math_floor x).
Proof. apply integral_inject. Qed.

Lemma integral_eq x y : x == y -> integral x -> integral y.
Proof. intros E [z Hz]. exists z. by rewrite <- E. Qed.

Lemma integral_plus x y : integral x -> integral y -> integral (x + y).
Proof.
  intros [a Ha] [b Hb]. exists (a + b)%Z.
  by rewrite Ha, Hb, inject_Z_plus.
Qed.

Lemma integral_min x y : integral x -> integral y -> integral (Qmin x y).
Proof.
  intros Hx Hy. destruct (Q.min_spec x y) as [[_ E]|[_ E]].
  - by apply (integral_eq x).
  - by apply (integral_eq y).
Qed.

Lemma integral_max x y : integral x -> integral y -> integral (Qmax x y).
Proof.
  intros Hx Hy. destruct (Q.max_spec x y) as [[_ E]|[_ E]].
  - by apply (integral_eq y).
  - by apply (integral_eq x).
Qed.

Lemma integralV_snap p : integralV (snap p).
Proof. repeat split; apply integral_floor. Qed.

Lemma integralV_add a b : integralV a -> integralV b -> integralV (add a b).
Proof.
  intros (?&?&?) (?&?&?). repeat split; by apply integral_plus.
Qed.

Lemma integralV_Minimize a b : integralV a -> integralV b -> integralV (Minimize a b).
Proof.
  intros (?&?&?) (?&?&?). repeat split; by apply integral_min.
Qed.

Lemma integralV_Maximize a b : integralV a -> integralV b -> integralV (Maximize a b).
Proof.
  intros (?&?&?) (?&?&?). repeat split; by apply integral_max.
Qed.

Lemma integralV_ONE : integralV VECTOR_ONE.
Proof. repeat split; by exists 1%Z. Qed.

(** A property that is read is one of the entries. *)
Lemma prop_In {A} (o : list (string * A)) k v : prop o k = Some v -> In (k, v) o.
Proof.
  induction o as [|[k' v'] o IH]; simpl; [done|].
  destruct (String.eqb k' k) eqn:E.
  - intros [= ->]. apply String.eqb_eq in E. subst. by left.
  - intros H. right. by apply IH.
Qed.

(** Every delta of [DIRECTIONS] is a vector of integers. *)
Lemma DIRECTIONS_delta dir rot delta axis order :
  prop DIRECTIONS dir = Some (rot, delta, axis, order) -> integralV delta.
Proof.
  intros H. apply prop_In in H. simpl in H.
  repeat (destruct H as [[= <- <- <- <- <-]|H];
          [repeat split; (by exists 1%Z) || (by exists (-1)%Z)|]).
  done.
Qed.

Lemma box_after_pick start_ axis :
  coord start_ axis + 1 <= coord (add start_ VECTOR_ONE) axis.
Proof. destruct axis; simpl; apply Qle_refl. Qed.

Lemma box_after_drag a b axis :
  coord (Minimize a b) axis + 1 <= coord (add (Maximize a b) VECTOR_ONE) axis.
Proof.
  destruct axis; simpl; apply Qplus_le_l;
    (eapply Qle_trans; [apply Q.le_min_l|apply Q.le_max_l]).
Qed.

Lemma wellFormed_pick {Mesh} (c : Cursor Mesh) evt :
  wellFormed c -> wellFormed (after (updateFromPickTarget c evt)).
Proof.
  intros Hc. unfold updateFromPickTarget.
  destruct (getMousePickOnMesh _ _ _ _) as [p norm] eqn:Hp.
  assert (Hsnap : integralV p).
  { unfold getMousePickOnMesh in Hp. destruct (pickOrGround _ _) as [raw nrm].
    injection Hp as <- _. apply integralV_snap. }
  destruct norm as [norm|]; [|done].
  destruct (prop DIRECTIONS _) as [[[[rot delta] axis] order]|] eqn:Hd; [|done].
  simpl. apply DIRECTIONS_delta in Hd.
  assert (Hs : integralV (Minimize p (add p delta))).
  { apply integralV_Minimize; [done|]. by apply integralV_add. }
  repeat split; try apply Hs; try (apply integral_plus; [apply Hs|by exists 1%Z]).
  intros axis'. apply box_after_pick.
Qed.

Lemma wellFormed_drag {Mesh} (c : Cursor Mesh) evt :
  wellFormed c -> wellFormed (after (updateWithMouseDown c evt)).
Proof.
  intros Hc. unfold updateWithMouseDown.
  destruct (prop DIRECTIONS _) as [[[[rot delta] axis] [[i j] k]]|] eqn:Hd; [|done].
  simpl. destruct Hc as (_ & _ & Hs & _).
  set (p := getMousePickOnPlane _ _ _ _ _).
  assert (Hp : integralV p) by apply integralV_snap.
  split; [by apply integralV_Minimize|].
  split; [apply integralV_add; [by apply integralV_Maximize|apply integralV_ONE]|].
  split; [done|].
  intros axis'. apply box_after_drag.
Qed.

Lemma wellFormed_new {Mesh} (sc : Scene Mesh) filter : wellFormed (new_Cursor sc filter).
Proof.
  repeat split; try (by exists 0%Z); try (by exists 1%Z).
  intros []; simpl; done.
Qed.

Lemma wellFormed_step {Mesh} (c : Cursor Mesh) e :
  wellFormed c -> wellFormed (cursorStep c e).
Proof.
  intros Hc. destruct e as [evt|evt| |evt|o| ]; simpl; try done.
  - unfold onMouseDown.
    pose proof (wellFormed_pick c evt Hc) as H.
    by destruct (updateFromPickTarget c evt).
  - unfold onMouseMove. destruct (_isKeyDown c).
    + by apply wellFormed_drag.
    + by apply wellFormed_pick.
  - by apply wellFormed_pick.
Qed.

Lemma cursorRun_wellFormed {Mesh} (es : list CursorEvent) (c : Cursor Mesh) :
  wellFormed c -> wellFormed (cursorRun es c).
Proof.
  revert c. induction es as [|e es IH]; intros c Hc; simpl; [done|].
  apply IH. by apply wellFormed_step.
Qed.

(** The same for a new cursor, on a run whose rays met their planes: the
    only runs on which the rationals are the numbers of the source. *)
Lemma regular_wellFormed {Mesh} (sc : Scene Mesh) filter (es : list CursorEvent) :
  regularRun es (new_Cursor sc filter) = true ->
  wellFormed (cursorRun es (new_Cursor sc filter)).
Proof. intros _. apply cursorRun_wellFormed, wellFormed_new. Qed.

Lemma floor_half z : Qfloor (inject_Z z + (1#2)) = z.
Proof.
  unfold Qfloor, Qplus, inject_Z. simpl.
  symmetry. apply (Z.div_unique _ _ _ 1%Z); lia.
Qed.

Lemma snap_integral x : integral x -> Math_floor (x + (1#2)) == x.
Proof.
  intros [z Hz]. unfold Math_floor.
  assert (E : Qfloor (x + (1#2)) = Qfloor (inject_Z z + (1#2))).
  { apply Qfloor_comp. apply Qplus_comp; [exact Hz|reflexivity]. }
  rewrite E, floor_half. symmetry. exact Hz.
Qed.


(** The ray continued to the plane [axis = val] lies on it. *)
Lemma plane_on_plane o d axis val :
  ~ coord d axis == 0 ->
  coord (add o (scale d ((val - coord o axis) / coord d axis))) axis == val.
Proof. intros Hd. destruct axis; simpl in *; field; exact Hd. Qed.

Lemma coord_snap p axis :
  coord (snap p) axis = Math_floor (coord p axis + (1#2)).
Proof. by destruct axis. Qed.

(** The entry of [CURSOR_NORMALS] for a normal is always there, and
    [DIRECTIONS] has its key. *)
Lemma max3_cases a b c :
  Math_max3 a b c == a \/ Math_max3 a b c == b \/ Math_max3 a b c == c.
Proof.
  unfold Math_max3.
  destruct (Q.max_spec (Qmax a b) c) as [[_ E]|[_ E]]; [auto|].
  destruct (Q.max_spec a b) as [[_ E']|[_ E']].
  - right; left. eapply Qeq_trans; [exact E|exact E'].
  - left. eapply Qeq_trans; [exact E|exact E'].
Qed.

Lemma abs_cases x : Qabs x == x \/ Qabs x == - x.
Proof.
  destruct (Qlt_le_dec x 0) as [H|H].
  - right. apply Qabs_neg. by apply Qlt_le_weak.
  - left. by apply Qabs_pos.
Qed.

Lemma norm_found x y z :
  exists n, indexOf [x; - x; y; - y; z; - z] (Math_max3 (Qabs x) (Qabs y) (Qabs z))
            ≫= (CURSOR_NORMALS !!.) = Some n
            /\ In n CURSOR_NORMALS.
Proof.
  set (m := Math_max3 _ _ _). simpl.
  destruct (Qeq_bool x m) eqn:E1; [eexists; split; [reflexivity|simpl; auto]|].
  destruct (Qeq_bool (- x) m) eqn:E2; [eexists; split; [reflexivity|simpl; auto]|].
  destruct (Qeq_bool y m) eqn:E3; [eexists; split; [reflexivity|simpl; auto]|].
  destruct (Qeq_bool (- y) m) eqn:E4; [eexists; split; [reflexivity|simpl; auto 10]|].
  destruct (Qeq_bool z m) eqn:E5; [eexists; split; [reflexivity|simpl; auto 10]|].
  destruct (Qeq_bool (- z) m) eqn:E6; [eexists; split; [reflexivity|simpl; auto 10]|].
  exfalso.
  apply Qeq_bool_neq in E1, E2, E3, E4, E5, E6.
  destruct (max3_cases (Qabs x) (Qabs y) (Qabs z)) as [H|[H|H]]; fold m in H.
  - destruct (abs_cases x) as [A|A]; [apply E1|apply E2];
      (symmetry; eapply Qeq_trans; [exact H|exact A]).
  - destruct (abs_cases y) as [A|A]; [apply E3|apply E4];
      (symmetry; eapply Qeq_trans; [exact H|exact A]).
  - destruct (abs_cases z) as [A|A]; [apply E5|apply E6];
      (symmetry; eapply Qeq_trans; [exact H|exact A]).
Qed.

Lemma normal_key n :
  In n CURSOR_NORMALS -> is_Some (prop DIRECTIONS (join "/" [vx n; vy n; vz n])).
Proof.
  simpl. intros H.
  repeat (destruct H as [<-|H]; [vm_compute; by eexists|]). done.
Qed.


End CursorProps.

(** ** The cursor with the numbers that are not finite *)

Module CursorNumProps.
Import Babylon Js Num CursorNum CursorProps.








Lemma snap_of p : snap (ofVector3 p) = ofVector3 (CursorTs.snap p).
Proof. done. Qed.










Lemma integral_of q : CursorTs.integral q -> integral (Fin q).
Proof. done. Qed.



End CursorNumProps.

(** ** The claims about the cursor *)

Module CursorClaims.
Import Babylon Js CursorTs CursorProps.



(** C6.  While the mouse is down on a cursor whose direction is a key of
    [DIRECTIONS], a move of the mouse whose ray is not parallel to the drag
    plane sets the corners from the start point and the current point: the
    minimum is their minimum and the maximum is their maximum plus
    (1, 1, 1), component by component.  The current point is the ray
    continued to the plane and snapped; it stays on the plane of a start
    point with an integer coordinate there. *)
Theorem drag_corners {Mesh} (c : Cursor Mesh) (evt : MouseEvent)
    rot delta axis order :
  prop DIRECTIONS (_direction c) = Some (rot, delta, axis, order) ->
  let ray := createPickingRay (scene c) (clientX evt + fst (offset c))
                              (clientY evt + snd (offset c)) in
  ~ coord (direction ray) axis == 0 ->
  let current := getMousePickOnPlane (scene c) (clientX evt + fst (offset c))
                   (clientY evt + snd (offset c)) axis (coord (start c) axis) in
  exists c', updateWithMouseDown c evt = Returned c'
    /\ minimum c' = Vec3 (Qmin (vx (start c)) (vx current))
                         (Qmin (vy (start c)) (vy current))
                         (Qmin (vz (start c)) (vz current))
    /\ maximum c' = Vec3 (Qmax (vx (start c)) (vx current) + 1)
                         (Qmax (vy (start c)) (vy current) + 1)
                         (Qmax (vz (start c)) (vz current) + 1)
    /\ hover c' = current /\ start c' = start c
    /\ (integral (coord (start c) axis) ->
        coord current axis == coord (start c) axis).
Proof.
  intros Hd ray Hr current.
  unfold updateWithMouseDown. rewrite Hd. destruct order as [[i j] k].
  eexists. split; [reflexivity|]. simpl. fold current.
  repeat split.
  intros Hi. unfold current, getMousePickOnPlane. fold ray.
  rewrite coord_snap.
  pose proof (plane_on_plane (origin ray) (direction ray) axis
                (coord (start c) axis) Hr) as Hp.
  unfold Math_floor.
  match goal with
  | |- inject_Z (Qfloor (?x + _)) == _ =>
    assert (E : Qfloor (x + (1#2)) = Qfloor (coord (start c) axis + (1#2)))
      by (apply Qfloor_comp; apply Qplus_comp; [exact Hp|reflexivity])
  end.
  rewrite E. by apply snap_integral.
Qed.

Lemma drag_corners_witness :
  minimum Samples.dragged = Vec3 (-2) 0 0
  /\ maximum Samples.dragged = Vec3 2 1 5.
Proof.
  edestruct (drag_corners Samples.pressed Samples.dragTo) as (c' & H & Hmin & Hmax & _).
  - vm_compute. reflexivity.
  - vm_compute. discriminate.
  - unfold Samples.dragged, cursorRun. cbn [fold_left cursorStep].
    unfold onMouseMove.
    replace (_isKeyDown Samples.pressed) with true by (vm_compute; reflexivity).
    rewrite H. cbn [after]. rewrite Hmin, Hmax. vm_compute. split; reflexivity.
Defined.




End CursorClaims.

(** ** The editor *)

Module EditorProps.
Import Babylon Js Editor.

(** What [destroy] leaves. *)
Lemma destroy_objectsData id w : objectsData (destroy id w) !! id = None.
Proof. unfold destroy. simpl. apply lookup_delete_eq. Qed.

Lemma destroy_meshes id w : meshes (destroy id w) `sublist_of` meshes w.
Proof.
  unfold destroy. simpl. destruct (getMeshByName w id); simpl; [|done].
  apply sublist_filter.
Qed.

Lemma destroy_nextUid id w : nextUid (destroy id w) = nextUid w.
Proof. unfold destroy. simpl. by destruct (getMeshByName w id). Qed.

Lemma destroy_console id w : console (destroy id w) = console w.
Proof. unfold destroy. simpl. by destruct (getMeshByName w id). Qed.

Lemma destroy_absent id w :
  getMeshByName w id = None -> objectsData w !! id = None ->
  destroy id w = w.
Proof.
  intros Hm Ho. unfold destroy. rewrite Hm. rewrite (delete_id _ _ Ho).
  by destruct w.
Qed.

(** *** Loops *)

Lemma ceiling_unique x z :
  inject_Z (z - 1) < x -> x <= inject_Z z -> Qceiling x = z.
Proof.
  intros Hlo Hhi. apply Z.le_antisymm.
  - rewrite <- (Qceiling_Z z). by apply Qceiling_resp_le.
  - assert (H : inject_Z (z - 1) < inject_Z (Qceiling x)).
    { eapply Qlt_le_trans; [exact Hlo|apply Qle_ceiling]. }
    rewrite <- Zlt_Qlt in H. lia.
Qed.

Lemma rounds_done lo hi : hi <= lo -> rounds lo hi = O.
Proof.
  intros H. unfold rounds.
  assert (Hc : (Qceiling (hi - lo) <= 0)%Z).
  { rewrite <- (Qceiling_Z 0). apply Qceiling_resp_le.
    change (inject_Z 0) with 0. lra. }
  lia.
Qed.

Lemma rounds_step lo hi : lo < hi -> rounds lo hi = S (rounds (lo + 1) hi).
Proof.
  intros H. unfold rounds.
  set (c := Qceiling (hi - lo)).
  assert (Hup : hi - lo <= inject_Z c) by apply Qle_ceiling.
  assert (Hdn : inject_Z (c - 1) < hi - lo) by apply Qceiling_lt.
  assert (Hpos : (0 < c)%Z).
  { rewrite Zlt_Qlt. change (inject_Z 0) with 0. lra. }
  assert (E : Qceiling (hi - (lo + 1)) = (c - 1)%Z).
  { apply ceiling_unique.
    - replace (c - 1 - 1)%Z with ((c - 1) + - 1)%Z by lia.
      rewrite inject_Z_plus. change (inject_Z (-1)) with (-1 # 1). lra.
    - replace (c - 1)%Z with (c + - 1)%Z by lia.
      rewrite inject_Z_plus. change (inject_Z (-1)) with (-1 # 1). lra. }
  rewrite E. lia.
Qed.

Lemma for_fuel_counts {S} fuel lo hi (body : Q -> S -> S) s :
  (rounds lo hi <= fuel)%nat ->
  for_fuel fuel lo hi body s
  = fold_left (fun s m => body m s) (counts (rounds lo hi) lo) s.
Proof.
  revert lo s. induction fuel as [|fuel IH]; intros lo s Hf; simpl.
  - by replace (rounds lo hi) with O by lia.
  - destruct (Qle_bool hi lo) eqn:E.
    + apply Qle_bool_iff in E. by rewrite rounds_done.
    + assert (Hlt : lo < hi).
      { apply Qnot_le_lt. intros H. apply Qle_bool_iff in H. congruence. }
      rewrite (rounds_step lo hi Hlt) in *. simpl.
      apply IH. lia.
Qed.

Lemma fold_left_same {A B} (f g : A -> B -> A) l a :
  (forall a b, f a b = g a b) -> fold_left f l a = fold_left g l a.
Proof.
  intros H. revert a. induction l as [|b l IH]; intros a; simpl; [done|].
  by rewrite H, IH.
Qed.

Lemma for_lt_counts {S} lo hi (body : Q -> S -> S) s :
  for_lt lo hi body s = fold_left (fun s m => body m s) (counts (rounds lo hi) lo) s.
Proof. unfold for_lt. by apply for_fuel_counts. Qed.

(** The values of the counter are [lo], [lo + 1], ... below [hi]. *)
Lemma counts_covers n lo (i : nat) :
  (i < n)%nat -> exists m, m ∈ counts n lo /\ m == lo + inject_Z (Z.of_nat i).
Proof.
  revert lo i. induction n as [|n IH]; intros lo i Hi; [lia|].
  destruct i as [|i]; simpl.
  - exists lo. split; [by left|]. simpl. ring.
  - destruct (IH (lo + 1) i) as (m & Hm & E); [lia|].
    exists m. split; [by right|]. rewrite E.
    rewrite Nat2Z.inj_succ. unfold Z.succ. rewrite inject_Z_plus. ring.
Qed.

Lemma rounds_covers lo hi (i : nat) :
  lo + inject_Z (Z.of_nat i) < hi -> (i < rounds lo hi)%nat.
Proof.
  intros H. unfold rounds.
  assert (Hc : inject_Z (Z.of_nat i) < inject_Z (Qceiling (hi - lo))).
  { eapply Qlt_le_trans; [|apply Qle_ceiling]. lra. }
  rewrite <- Zlt_Qlt in Hc. lia.
Qed.

(** *** The history *)

Lemma pending_pushes {A} (f : A -> Action) l hist :
  pending (fold_left (fun hist x => push (f x) hist) l hist)
  = pending hist ++ (f <$> l).
Proof.
  revert hist. induction l as [|x l IH]; intros hist; simpl.
  - by rewrite app_nil_r.
  - rewrite IH. simpl. by rewrite <- app_assoc.
Qed.

Lemma pending_fill (xs zs : list Q) pixel hist :
  pending (fold_left (fun hist m =>
             fold_left (fun hist n => push (SetPixelAction m n pixel) hist) zs hist)
           xs hist)
  = pending hist ++ (m ← xs; n ← zs; [SetPixelAction m n pixel]).
Proof.
  revert hist. induction xs as [|m xs IH]; intros hist; simpl.
  - by rewrite app_nil_r.
  - rewrite IH, pending_pushes. rewrite <- app_assoc.
    assert (E : (fun n => SetPixelAction m n pixel) <$> zs
                = zs ≫= (fun n => [SetPixelAction m n pixel])).
    { clear IH. induction zs as [|n zs IHz]; [done|].
      simpl. by f_equal. }
    by rewrite E.
Qed.

Lemma undone_fill (xs zs : list Q) pixel hist :
  undone (fold_left (fun hist m =>
            fold_left (fun hist n => push (SetPixelAction m n pixel) hist) zs hist)
          xs hist)
  = undone hist.
Proof.
  revert hist. induction xs as [|m xs IH]; intros hist; simpl; [done|].
  rewrite IH. clear IH. revert hist.
  induction zs as [|n zs IHz]; intros hist; simpl; [done|]. by rewrite IHz.
Qed.

Lemma flatHeight_number y h_ k :
  h_ <> "" -> parseInt h_ = Some k -> flatHeight y h_ = JNum (y - 1 + inject_Z k).
Proof.
  intros Hne Hk. unfold flatHeight.
  destruct (String.eqb h_ "") eqn:E.
  - apply String.eqb_eq in E. done.
  - by rewrite Hk.
Qed.

End EditorProps.

(** ** The claims about the editor *)

Module EditorClaims.
Import Babylon Js Editor EditorProps.

(** C7.  [objectManager.create] with a class id that [assets.classes] does
    not have returns without an exception; it has printed the warning, the
    saved objects have no entry for the id, and no mesh was made (the meshes
    left are among those there before: [create] first destroys the object of
    that id); when the id was not in use, nothing but the console has
    changed.  In the constructor of a stage, an entry of the saved map with
    such a class id is skipped with the same warning: the list of objects is
    left as it was, and the objects of the new stage are those of the
    entries whose class is registered. *)
Theorem unknown_class_ignored classes id cls position restoreArgs w
    opts entry objs tr od :
  findClass classes cls = None ->
  Game.findClass opts (Game.od_clsId od) = None ->
  (exists w', create classes id cls position restoreArgs w = Returned w'
     /\ console w' = console w ++ [warning cls id]
     /\ objectsData w' !! id = None
     /\ nextUid w' = nextUid w
     /\ meshes w' `sublist_of` meshes w
     /\ (getMeshByName w id = None -> objectsData w !! id = None ->
         meshes w' = meshes w /\ objectsData w' = objectsData w
         /\ selectedObject w' = selectedObject w))
  /\ Game.createObject opts entry (objs, tr) (id, od)
     = (objs, tr ++ [Game.EWarn (Game.warning (Game.od_clsId od) id)])
  /\ (forall u p map tr',
        Game.name <$> Game.objects (Game.new_Stage u p map opts tr').1
        = fst <$> List.filter (Game.known opts) (Game.objectsData map)).
Proof.
  intros Hc Hg.
  split; [|split; [|intros u p map tr'; apply StageProps.new_Stage_objects]].
  - unfold create. rewrite Hc. eexists. split; [reflexivity|].
    cbn [console nextUid objectsData meshes selectedObject].
    rewrite destroy_console, destroy_nextUid.
    repeat split; try done.
    + apply destroy_objectsData.
    + apply destroy_meshes.
    + by rewrite destroy_absent.
    + by rewrite destroy_absent.
    + by rewrite destroy_absent.
  - unfold Game.createObject. by rewrite Hg.
Qed.

Lemma unknown_class_ignored_witness :
  exists w', create Samples.editorClasses "object/ghost/2" 7 Zero ∅
               Samples.editorWorld = Returned w'
    /\ console w' = ["class 7 is not found! ignoring object #object/ghost/2"]
    /\ meshes w' = meshes Samples.editorWorld.
Proof.
  destruct (unknown_class_ignored Samples.editorClasses "object/ghost/2" 7 Zero ∅
              Samples.editorWorld Samples.opts Zero [] [] (Samples.object 7))
    as ((w' & H1 & H2 & _ & _ & _ & H3) & _ & _).
  - reflexivity.
  - reflexivity.
  - exists w'. split; [exact H1|]. split.
    + rewrite H2. vm_compute. reflexivity.
    + apply H3; vm_compute; reflexivity.
Defined.

(** C9.  At the end of a shift-drag with a height selection [h] that is not
    empty and reads as the number [k], the handler pushes one
    [SetPixelAction] for every cell between the corners of the cursor, all
    with the same pixel, whose height is the [y] of the maximum corner minus
    one plus [k]; the batch is then committed. *)
Theorem rectangle_flat_height {Mesh} (cursor : CursorTs.Cursor Mesh) h_ k
    selectedPixel hist :
  h_ <> "" -> parseInt h_ = Some k ->
  let lo := CursorTs.minimum cursor in
  let hi := CursorTs.maximum cursor in
  let pixel := {| t := t selectedPixel; h := JNum (vy hi - 1 + inject_Z k) |} in
  let filled := rectangle_fill cursor h_ selectedPixel hist in
  pending filled = pending hist ++ cells lo hi pixel
  /\ (forall a, a ∈ cells lo hi pixel -> exists m n, a = SetPixelAction m n pixel)
  /\ (forall i j : nat,
        vx lo + inject_Z (Z.of_nat i) < vx hi ->
        vz lo + inject_Z (Z.of_nat j) < vz hi ->
        exists m n, m == vx lo + inject_Z (Z.of_nat i)
                    /\ n == vz lo + inject_Z (Z.of_nat j)
                    /\ SetPixelAction m n pixel ∈ cells lo hi pixel)
  /\ (pending hist = [] -> cells lo hi pixel <> [] ->
      rectangle_onUp cursor h_ selectedPixel hist
      = {| pending := []; undone := cells lo hi pixel :: undone hist;
           redone := [] |}).
Proof.
  intros Hne Hk lo hi pixel filled.
  assert (Hp : pending filled = pending hist ++ cells lo hi pixel).
  { unfold filled, rectangle_fill. fold lo hi.
    rewrite (flatHeight_number _ _ _ Hne Hk). fold pixel.
    rewrite for_lt_counts.
    erewrite fold_left_same; [apply pending_fill|].
    intros hist' m. simpl. apply for_lt_counts. }
  assert (Hu : undone filled = undone hist).
  { unfold filled, rectangle_fill. rewrite for_lt_counts.
    erewrite fold_left_same; [apply undone_fill|].
    intros hist' m. simpl. apply for_lt_counts. }
  split; [exact Hp|]. split; [|split].
  - intros a Ha. unfold cells in Ha.
    apply list_elem_of_bind in Ha as (m & Ha & _).
    apply list_elem_of_bind in Ha as (n & Ha & _).
    apply list_elem_of_singleton in Ha. by exists m, n.
  - intros i j Hi Hj.
    destruct (counts_covers _ (vx lo) i (rounds_covers _ _ _ Hi)) as (m & Hm & Em).
    destruct (counts_covers _ (vz lo) j (rounds_covers _ _ _ Hj)) as (n & Hn & En).
    exists m, n. split; [exact Em|]. split; [exact En|].
    unfold cells. apply list_elem_of_bind. exists m. split; [|exact Hm].
    apply list_elem_of_bind. exists n. split; [|exact Hn].
    by apply list_elem_of_singleton.
  - intros He Hc. unfold rectangle_onUp. fold filled. unfold commit.
    rewrite Hp, He. simpl.
    destruct (cells lo hi pixel) as [|a l]; [done|]. by rewrite Hu.
Qed.

Lemma rectangle_flat_height_witness :
  undone (rectangle_onUp Samples.dragged "+1" Samples.grass Samples.emptyHistory)
  = [cells (Vec3 (-2) 0 0) (Vec3 2 1 5) {| t := JNum 3; h := JNum 1 |}]
  /\ length (cells (Vec3 (-2) 0 0) (Vec3 2 1 5) {| t := JNum 3; h := JNum 1 |})
     = 20%nat.
Proof.
  destruct (rectangle_flat_height Samples.dragged "+1" 1 Samples.grass
              Samples.emptyHistory) as (_ & _ & _ & H).
  - discriminate.
  - reflexivity.
  - rewrite H.
    + vm_compute. split; reflexivity.
    + reflexivity.
    + vm_compute. discriminate.
Defined.

End EditorClaims.

(** * Further properties *)

(** ** The cursor, continued *)

Module CursorMore.
Import Babylon Js CursorTs CursorProps CursorReading.

(** The normal chosen is the axis direction along which the normal picked
    is longest. *)
Lemma norm_dominant_of x y z :
  exists n, indexOf [x; - x; y; - y; z; - z] (Math_max3 (Qabs x) (Qabs y) (Qabs z))
            ≫= (CURSOR_NORMALS !!.) = Some n
            /\ In n CURSOR_NORMALS
            /\ dot n (Vec3 x y z) == Math_max3 (Qabs x) (Qabs y) (Qabs z).
Proof.
  set (m := Math_max3 _ _ _). simpl.
  destruct (Qeq_bool x m) eqn:E1;
    [eexists; split; [reflexivity|split; [simpl; auto|]];
     apply Qeq_bool_eq in E1; unfold dot; simpl; rewrite <- E1; ring|].
  destruct (Qeq_bool (- x) m) eqn:E2;
    [eexists; split; [reflexivity|split; [simpl; auto|]];
     apply Qeq_bool_eq in E2; unfold dot; simpl; rewrite <- E2; ring|].
  destruct (Qeq_bool y m) eqn:E3;
    [eexists; split; [reflexivity|split; [simpl; auto|]];
     apply Qeq_bool_eq in E3; unfold dot; simpl; rewrite <- E3; ring|].
  destruct (Qeq_bool (- y) m) eqn:E4;
    [eexists; split; [reflexivity|split; [simpl; auto 10|]];
     apply Qeq_bool_eq in E4; unfold dot; simpl; rewrite <- E4; ring|].
  destruct (Qeq_bool z m) eqn:E5;
    [eexists; split; [reflexivity|split; [simpl; auto 10|]];
     apply Qeq_bool_eq in E5; unfold dot; simpl; rewrite <- E5; ring|].
  destruct (Qeq_bool (- z) m) eqn:E6;
    [eexists; split; [reflexivity|split; [simpl; auto 10|]];
     apply Qeq_bool_eq in E6; unfold dot; simpl; rewrite <- E6; ring|].
  exfalso.
  apply Qeq_bool_neq in E1, E2, E3, E4, E5, E6.
  destruct (max3_cases (Qabs x) (Qabs y) (Qabs z)) as [H|[H|H]]; fold m in H.
  - destruct (abs_cases x) as [A|A]; [apply E1|apply E2];
      (symmetry; eapply Qeq_trans; [exact H|exact A]).
  - destruct (abs_cases y) as [A|A]; [apply E3|apply E4];
      (symmetry; eapply Qeq_trans; [exact H|exact A]).
  - destruct (abs_cases z) as [A|A]; [apply E5|apply E6];
      (symmetry; eapply Qeq_trans; [exact H|exact A]).
Qed.

(** X2.  [getMousePickOnMesh] always returns one of the six entries of
    [CURSOR_NORMALS], and it is the axis direction nearest to the normal
    picked: its product with the normal is the largest absolute value among
    the components of the normal. *)
Theorem norm_is_dominant_axis {Mesh} (scene : Scene Mesh) (px py : Q)
    (filter : Mesh -> bool) :
  let ray := createPickingRay scene px py in
  let normal := (pickOrGround ray (pickWithRay scene ray filter)).2 in
  exists n, (getMousePickOnMesh scene px py filter).2 = Some n
    /\ In n CURSOR_NORMALS
    /\ dot n normal
       == Math_max3 (Qabs (vx normal)) (Qabs (vy normal)) (Qabs (vz normal))
    /\ (forall n', In n' CURSOR_NORMALS -> dot n' normal <= dot n normal).
Proof.
  intros ray normal. unfold getMousePickOnMesh. fold ray.
  unfold normal. destruct (pickOrGround _ _) as [raw nrm]. simpl.
  destruct (norm_dominant_of (vx nrm) (vy nrm) (vz nrm)) as (n & Hn & Hin & Hd).
  exists n. split; [exact Hn|]. split; [exact Hin|].
  assert (Hd' : dot n nrm == Math_max3 (Qabs (vx nrm)) (Qabs (vy nrm)) (Qabs (vz nrm)))
    by (by destruct nrm).
  split; [exact Hd'|].
  intros n' Hn'. rewrite Hd'. unfold Math_max3.
  pose proof (Qle_Qabs (vx nrm)) as Hx. pose proof (Qle_Qabs (vy nrm)) as Hy.
  pose proof (Qle_Qabs (vz nrm)) as Hz.
  pose proof (Qle_Qabs (- vx nrm)) as Hx'. pose proof (Qle_Qabs (- vy nrm)) as Hy'.
  pose proof (Qle_Qabs (- vz nrm)) as Hz'.
  rewrite Qabs_opp in Hx', Hy', Hz'.
  pose proof (Q.le_max_l (Qmax (Qabs (vx nrm)) (Qabs (vy nrm))) (Qabs (vz nrm))) as M1.
  pose proof (Q.le_max_r (Qmax (Qabs (vx nrm)) (Qabs (vy nrm))) (Qabs (vz nrm))) as M2.
  pose proof (Q.le_max_l (Qabs (vx nrm)) (Qabs (vy nrm))) as M3.
  pose proof (Q.le_max_r (Qabs (vx nrm)) (Qabs (vy nrm))) as M4.
  simpl in Hn'.
  repeat (destruct Hn' as [<-|Hn']; [unfold dot; simpl; lra|]). done.
Qed.

(** *** The box between the start and the point hovered over *)

Lemma sameV_refl a : sameV a a.
Proof. repeat split; reflexivity. Qed.

Lemma spanned_pick {Mesh} (c : Cursor Mesh) evt :
  spanned c -> spanned (after (updateFromPickTarget c evt)).
Proof.
  intros Hc. unfold updateFromPickTarget.
  destruct (getMousePickOnMesh _ _ _ _) as [p norm].
  destruct norm as [norm|]; [|done].
  destruct (prop DIRECTIONS _) as [[[[rot delta] axis] order]|]; [|done].
  unfold spanned. simpl.
  repeat split; simpl; try (symmetry; apply Q.min_id);
    apply Qplus_comp; try reflexivity; symmetry; apply Q.max_id.
Qed.

Lemma spanned_drag {Mesh} (c : Cursor Mesh) evt :
  spanned c -> spanned (after (updateWithMouseDown c evt)).
Proof.
  intros Hc. unfold updateWithMouseDown.
  destruct (prop DIRECTIONS _) as [[[[rot delta] axis] [[i j] k]]|]; [|done].
  split; apply sameV_refl.
Qed.

Lemma spanned_step {Mesh} (c : Cursor Mesh) e : spanned c -> spanned (cursorStep c e).
Proof.
  intros Hc. destruct e as [evt|evt| |evt|o| ]; simpl; try done.
  - unfold onMouseDown. pose proof (spanned_pick c evt Hc) as H.
    by destruct (updateFromPickTarget c evt).
  - unfold onMouseMove. destruct (_isKeyDown c).
    + by apply spanned_drag.
    + by apply spanned_pick.
  - by apply spanned_pick.
Qed.

Lemma spanned_run {Mesh} (es : list CursorEvent) (c : Cursor Mesh) :
  spanned c -> spanned (cursorRun es c).
Proof.
  revert c. induction es as [|e es IH]; intros c Hc; simpl; [done|].
  apply IH. by apply spanned_step.
Qed.

(** X3.  Whatever happens to a new cursor, its corners are those of the
    box between its start and the point it hovers over: the minimum is their
    minimum and the maximum is their maximum plus (1, 1, 1), component by
    component (after a pick the two points are the same).  So the [y] of the
    maximum minus one, which the rectangle brush adds the height selection
    to, is the larger of the [y] of the two points: the top layer of the
    selection, and the [y] hovered over when nothing was dragged. *)
Theorem box_spanned_by_start_and_hover {Mesh} (sc : Scene Mesh)
    (filter : Mesh -> bool) (es : list CursorEvent) :
  let c := cursorRun es (new_Cursor sc filter) in
  spanned c
  /\ vy (maximum c) - 1 == Qmax (vy (start c)) (vy (hover c))
  /\ (sameV (hover c) (start c) -> vy (maximum c) - 1 == vy (hover c)).
Proof.
  intros c.
  assert (Hc : spanned c).
  { apply spanned_run. split; repeat split; reflexivity. }
  split; [exact Hc|].
  destruct Hc as (_ & _ & Hy & _). simpl in Hy.
  split.
  - rewrite Hy. ring.
  - intros (_ & Hh & _). rewrite Hy.
    assert (E : Qmax (vy (start c)) (vy (hover c)) == vy (hover c)).
    { apply Q.max_r. rewrite Hh. apply Qle_refl. }
    rewrite E. ring.
Qed.

(** *** The listeners do not throw *)

Lemma pick_directed {Mesh} (c : Cursor Mesh) evt :
  exists c', updateFromPickTarget c evt = Returned c'
    /\ directed c' /\ _isKeyDown c' = _isKeyDown c.
Proof.
  unfold updateFromPickTarget, getMousePickOnMesh.
  destruct (pickOrGround _ _) as [raw nrm].
  destruct (norm_found (vx nrm) (vy nrm) (vz nrm)) as (n & -> & Hn).
  destruct (normal_key n Hn) as [[[[rot delta] axis] order] Hk].
  cbv zeta. eexists. rewrite Hk. split; [reflexivity|]. split; [|done].
  unfold directed. cbn [_direction]. rewrite Hk. by eexists.
Qed.

Lemma drag_directed {Mesh} (c : Cursor Mesh) evt :
  directed c ->
  exists c', updateWithMouseDown c evt = Returned c'
    /\ _direction c' = _direction c /\ _isKeyDown c' = _isKeyDown c.
Proof.
  intros [[[[rot delta] axis] [[i j] k]] Hk]. unfold updateWithMouseDown.
  rewrite Hk. by eexists.
Qed.

Lemma armed_step {Mesh} (c : Cursor Mesh) e : armed c -> armed (cursorStep c e).
Proof.
  intros Hc. destruct e as [evt|evt| |evt|o| ]; simpl; try done.
  - unfold onMouseDown.
    destruct (pick_directed c evt) as (c' & -> & Hd & _). by intros _.
  - unfold onMouseMove. destruct (_isKeyDown c) eqn:Hk.
    + destruct (drag_directed c evt (Hc Hk)) as (c' & -> & Hd & Hk').
      intros _. unfold directed. simpl. rewrite Hd. by apply Hc.
    + destruct (pick_directed c evt) as (c' & -> & Hd & _). by intros _.
  - destruct (pick_directed c evt) as (c' & -> & Hd & _). by intros _.
Qed.

(** X4.  Whatever happened to a new cursor before, none of its mouse
    listeners throws: a press and a move always return.  (A move while the
    mouse is down reads the entry of [DIRECTIONS] for the direction of the
    cursor, which a new cursor does not have; but the mouse is only ever
    down after a pick has set the direction.) *)
Theorem listeners_never_throw {Mesh} (sc : Scene Mesh) (filter : Mesh -> bool)
    (es : list CursorEvent) (evt : MouseEvent) :
  let c := cursorRun es (new_Cursor sc filter) in
  (exists c', onMouseDown c evt = Returned c')
  /\ (exists c', onMouseMove c evt = Returned c')
  /\ (_isKeyDown c = true -> directed c).
Proof.
  assert (H : forall c : Cursor Mesh, armed c -> armed (cursorRun es c)).
  { induction es as [|e es IH]; intros c Hc; simpl; [done|].
    apply IH. by apply armed_step. }
  intros c.
  assert (Hc : armed c) by (apply H; intros Hk; discriminate Hk).
  split; [|split; [|exact Hc]].
  - unfold onMouseDown. destruct (pick_directed c evt) as (c' & -> & _).
    by eexists.
  - unfold onMouseMove. destruct (_isKeyDown c) eqn:Hk.
    + destruct (drag_directed c evt (Hc Hk)) as (c' & -> & _). by eexists.
    + destruct (pick_directed c evt) as (c' & -> & _). by eexists.
Qed.

(** A new cursor has no direction: a drag on it throws and leaves it as it
    is. *)
Lemma drag_on_new_cursor {Mesh} (sc : Scene Mesh) filter evt :
  updateWithMouseDown (new_Cursor sc filter) evt = Threw (new_Cursor sc filter).
Proof. reflexivity. Qed.

(** *** A drag is one cell thick *)

Lemma coord_Minimize a b axis :
  coord (Minimize a b) axis = Qmin (coord a axis) (coord b axis).
Proof. by destruct axis. Qed.

Lemma coord_Maximize_ONE a b axis :
  coord (add (Maximize a b) VECTOR_ONE) axis = Qmax (coord a axis) (coord b axis) + 1.
Proof. by destruct axis. Qed.

(** The axis of the entry of [DIRECTIONS] for a normal is the axis of the
    normal. *)
Lemma normal_axis n :
  In n CURSOR_NORMALS ->
  exists rot delta axis order,
    prop DIRECTIONS (join "/" [vx n; vy n; vz n]) = Some (rot, delta, axis, order)
    /\ Qabs (coord n axis) == 1.
Proof.
  simpl. intros H.
  repeat (destruct H as [<-|H];
          [do 4 eexists; split; [vm_compute; reflexivity|vm_compute; reflexivity]|]).
  done.
Qed.

(** X5.  A drag never grows the box along the axis of the drag plane: on a
    cursor reached from a new one by events whose rays all met the plane
    they were continued to (no pick that hit no mesh had a ray parallel to
    the ground, no move with the mouse down a ray parallel to the drag
    plane), a move of the mouse while it is down, with a ray that is not
    parallel to the plane, leaves the box one unit thick there, from the
    start to the start plus one.  That axis is the one of the normal
    picked: the plane is perpendicular to it. *)
Theorem drag_is_one_cell_thick {Mesh} (sc : Scene Mesh) (filter : Mesh -> bool)
    (es : list CursorEvent) (evt : MouseEvent) rot delta axis order :
  regularRun es (new_Cursor sc filter) = true ->
  let c := cursorRun es (new_Cursor sc filter) in
  prop DIRECTIONS (_direction c) = Some (rot, delta, axis, order) ->
  let ray := createPickingRay (scene c) (clientX evt + fst (offset c))
                              (clientY evt + snd (offset c)) in
  ~ coord (direction ray) axis == 0 ->
  (exists c', updateWithMouseDown c evt = Returned c'
     /\ coord (minimum c') axis == coord (start c) axis
     /\ coord (maximum c') axis == coord (start c) axis + 1)
  /\ (forall n, In n CURSOR_NORMALS ->
        exists rot' delta' axis' order',
          prop DIRECTIONS (join "/" [vx n; vy n; vz n])
          = Some (rot', delta', axis', order')
          /\ Qabs (coord n axis') == 1).
Proof.
  intros Hreg c Hd ray Hr. split; [|apply normal_axis].
  assert (Hw : wellFormed c).
  { by apply regular_wellFormed. }
  destruct Hw as (_ & _ & Hs & _).
  assert (Hi : integral (coord (start c) axis)).
  { destruct Hs as (?&?&?). by destruct axis. }
  unfold updateWithMouseDown. rewrite Hd. destruct order as [[i j] k].
  eexists. split; [reflexivity|]. simpl.
  set (p := getMousePickOnPlane _ _ _ _ _).
  assert (Hp : coord p axis == coord (start c) axis).
  { unfold p, getMousePickOnPlane. fold ray. rewrite coord_snap.
    pose proof (plane_on_plane (origin ray) (direction ray) axis
                  (coord (start c) axis) Hr) as Hp.
    unfold Math_floor.
    match goal with
    | |- inject_Z (Qfloor (?x + _)) == _ =>
      assert (E : Qfloor (x + (1#2)) = Qfloor (coord (start c) axis + (1#2)))
        by (apply Qfloor_comp; apply Qplus_comp; [exact Hp|reflexivity])
    end.
    rewrite E. by apply snap_integral. }
  rewrite coord_Minimize, coord_Maximize_ONE. split.
  - apply Q.min_l. rewrite Hp. apply Qle_refl.
  - apply Qplus_comp; [|reflexivity]. apply Q.max_l. rewrite Hp. apply Qle_refl.
Qed.

Lemma drag_is_one_cell_thick_witness :
  exists c', updateWithMouseDown Samples.pressed Samples.dragTo = Returned c'
    /\ coord (minimum c') AxisY == 0 /\ coord (maximum c') AxisY == 1.
Proof.
  destruct (drag_is_one_cell_thick Samples.emptyScene (fun _ => true)
              MoreSamples.press Samples.dragTo Zero VECTOR_ONE AxisY
              (AxisX, AxisY, AxisZ)) as ((c' & H1 & H2 & H3) & _).
  - vm_compute. reflexivity.
  - vm_compute. reflexivity.
  - vm_compute. discriminate.
  - exists c'. split; [exact H1|]. split.
    + eapply Qeq_trans; [exact H2|]. vm_compute. reflexivity.
    + eapply Qeq_trans; [exact H3|]. vm_compute. reflexivity.
Defined.

(** *** The mesh of the cursor *)








End CursorMore.

(** ** Stages, continued *)

Module StageMore.
Import Babylon Js Game TraceFacts StageProps GameReading CursorReading.

Lemma createObject_fold opts entry l objs tr :
  fold_left (createObject opts entry) l (objs, tr)
  = (objs ++ omap (objectOf opts entry) l, tr ++ (entryEffect opts <$> l)).
Proof.
  revert objs tr. induction l as [|[id od] l IH]; intros objs tr; simpl.
  - by rewrite !app_nil_r.
  - unfold objectOf at 1, entryEffect at 1. simpl.
    destruct (findClass opts (od_clsId od)) as [c|]; rewrite IH.
    + by rewrite <- !app_assoc.
    + by rewrite <- app_assoc.
Qed.

Lemma new_Stage_eq u p map opts tr :
  let objects_ := omap (objectOf opts (entryPosition p map)) (objectsData map) in
  let stage :=
    {| url := u; position := p;
       chunks := {| ch_name := stageName u; ch_data := chunksData map;
                    ch_position := entryPosition p map |};
       objects := objects_ |} in
  new_Stage u p map opts tr
  = (stage, tr ++ [ENewChunks (stageName u)]
               ++ (entryEffect opts <$> objectsData map) ++ startHooks stage).
Proof.
  simpl. unfold new_Stage. rewrite createObject_fold. simpl.
  rewrite fold_emit. unfold startHooks. simpl. by rewrite <- !app_assoc.
Qed.

Lemma madeIds_entries opts entry l :
  madeIds (entryEffect opts <$> l) = name <$> omap (objectOf opts entry) l.
Proof.
  unfold madeIds. induction l as [|[id od] l IH]; [done|].
  cbn [fmap list_fmap omap list_omap]. rewrite IH.
  unfold entryEffect, objectOf. simpl.
  by destruct (findClass opts (od_clsId od)).
Qed.

(** X7.  The constructor of a stage first makes the chunks, then goes
    through the entries of the saved map in their order, making the object
    of each entry whose class is registered and warning about each other
    one, and only then calls [startPlaying], on the objects that have it, in
    the order they were made: no object starts playing before all are made.
    The stage holds exactly the objects made. *)
Theorem stage_construction_order u p map opts tr :
  let built := new_Stage u p map opts tr in
  built.2 = tr ++ [ENewChunks (stageName u)]
               ++ (entryEffect opts <$> objectsData map)
               ++ startHooks built.1
  /\ objects built.1 = omap (objectOf opts (entryPosition p map)) (objectsData map)
  /\ madeIds (entryEffect opts <$> objectsData map) = name <$> objects built.1
  /\ url built.1 = u /\ position built.1 = p
  /\ ch_position (chunks built.1) = entryPosition p map.
Proof.
  simpl. rewrite new_Stage_eq. simpl. repeat split.
  apply madeIds_entries.
Qed.

(** X8.  A stage is placed by its entry: when the saved map has an object
    marked [stage/entry] (the first such one, with an id that is not empty)
    and its class is registered, that object of the stage stands at the
    position asked for, up to what [Math.floor] cuts off its saved
    coordinates ([y] is floored together with the [offsetY] of the object).
    With integer coordinates and no [offsetY] it stands exactly there.  The
    chunks are moved by the same offset.  This holds for an entry whose
    [offsetY] is a number or is left out, and for arguments of the entry
    and of its class that are plain: they name neither the name nor the
    position of the object, on which the constructor writes them. *)
Theorem entry_lands_on_position u p map opts tr id od cls :
  find (fun e => isEntry (snd e)) (objectsData map) = Some (id, od) ->
  id <> "" ->
  findClass opts (od_clsId od) = Some cls ->
  numericOffsetY (od_args od) = true ->
  plain (od_args od) = true -> plain (args cls) = true ->
  let stage := (new_Stage u p map opts tr).1 in
  let entry := entryPosition p map in
  exists o, o ∈ objects stage /\ name o = id
    /\ vx (obj_position o) == vx p + frac (od_x od)
    /\ vy (obj_position o)
       == vy p + (od_y od - Math_floor (od_y od + offsetY (od_args od)))
    /\ vz (obj_position o) == vz p + frac (od_z od)
    /\ (CursorTs.integral (od_x od) -> CursorTs.integral (od_y od) ->
        CursorTs.integral (od_z od) ->
        offsetY (od_args od) == 0 -> sameV (obj_position o) p)
    /\ ch_position (chunks stage) = entry
    /\ entry = subtract p (Vec3 (Math_floor (od_x od))
                                (Math_floor (od_y od + offsetY (od_args od)))
                                (Math_floor (od_z od))).
Proof.
  intros Hf Hid Hc _ _ _ stage entry.
  assert (He : entry = subtract p (Vec3 (Math_floor (od_x od))
                                        (Math_floor (od_y od + offsetY (od_args od)))
                                        (Math_floor (od_z od)))).
  { unfold entry, entryPosition. rewrite Hf.
    destruct (String.eqb id "") eqn:E; [|done].
    apply String.eqb_eq in E. done. }
  unfold stage. rewrite new_Stage_eq. simpl. fold entry.
  destruct (objectOf opts entry (id, od)) as [o|] eqn:Ho;
    [|unfold objectOf in Ho; simpl in Ho; by rewrite Hc in Ho].
  exists o.
  assert (Hin : o ∈ omap (objectOf opts entry) (objectsData map)).
  { apply list_elem_of_omap. exists (id, od). split; [|exact Ho].
    apply find_some in Hf. apply list_elem_of_In. apply Hf. }
  unfold objectOf in Ho. simpl in Ho. rewrite Hc in Ho. injection Ho as <-.
  split; [exact Hin|]. split; [done|].
  clear Hin. simpl. rewrite He. simpl. unfold frac.
  split; [ring|]. split; [ring|]. split; [ring|]. split; [|done].
  intros Hx Hy Hz Ho. repeat split; simpl.
  - assert (E : Math_floor (od_x od) == od_x od).
    { destruct Hx as [k Hk]. unfold Math_floor.
      rewrite (Qfloor_comp _ _ Hk), Qfloor_Z. symmetry. exact Hk. }
    rewrite E. ring.
  - assert (E : Math_floor (od_y od + offsetY (od_args od)) == od_y od).
    { destruct Hy as [k Hk]. unfold Math_floor.
      assert (E' : od_y od + offsetY (od_args od) == inject_Z k)
        by (rewrite Ho, Hk; ring).
      rewrite (Qfloor_comp _ _ E'), Qfloor_Z. symmetry. exact Hk. }
    rewrite E. ring.
  - assert (E : Math_floor (od_z od) == od_z od).
    { destruct Hz as [k Hk]. unfold Math_floor.
      rewrite (Qfloor_comp _ _ Hk), Qfloor_Z. symmetry. exact Hk. }
    rewrite E. ring.
Qed.

Lemma entry_lands_on_position_witness :
  exists o, o ∈ objects (new_Stage "a.json" Zero MoreSamples.entryMap Samples.opts []).1
    /\ name o = "gate" /\ vx (obj_position o) == 1 # 2.
Proof.
  destruct (entry_lands_on_position "a.json" Zero MoreSamples.entryMap Samples.opts []
              "gate" MoreSamples.entryObject Samples.door)
    as (o & H1 & H2 & H3 & _).
  - vm_compute. reflexivity.
  - discriminate.
  - vm_compute. reflexivity.
  - vm_compute. reflexivity.
  - vm_compute. reflexivity.
  - vm_compute. reflexivity.
  - exists o. split; [exact H1|]. split; [exact H2|].
    eapply Qeq_trans; [exact H3|]. vm_compute. reflexivity.
Defined.

Lemma omap_fmap_none {A B C} (g : A -> B) (sel : B -> option C) (l : list A) :
  (forall a, sel (g a) = None) -> omap sel (g <$> l) = [].
Proof.
  intros H. induction l as [|a l IH]; [done|].
  cbn [fmap list_fmap omap list_omap]. by rewrite H.
Qed.

Lemma omap_fmap_some {A B C} (g : A -> B) (sel : B -> option C) (h : A -> C)
    (l : list A) :
  (forall a, sel (g a) = Some (h a)) -> omap sel (g <$> l) = h <$> l.
Proof.
  intros H. induction l as [|a l IH]; [done|].
  cbn [fmap list_fmap omap list_omap]. rewrite H. by f_equal.
Qed.

(** X9.  What the constructor of a stage makes, [dispose] releases: the
    objects disposed are the objects made, each once and in the same
    order, and the chunks disposed are the chunks made.  Every hook
    [stopPlaying] is called on an object that was made. *)
Theorem stage_made_is_disposed u p map opts :
  let built := new_Stage u p map opts [] in
  let disposal := Stage_dispose built.1 [] in
  disposedIds disposal = madeIds built.2
  /\ disposedChunks disposal = madeChunks built.2
  /\ madeChunks built.2 = [stageName u]
  /\ (forall id, EStopPlaying id ∈ disposal -> id ∈ madeIds built.2).
Proof.
  cbv zeta. rewrite new_Stage_eq. cbv zeta. cbn [fst snd].
  rewrite Stage_dispose_eq.
  set (objs := omap (objectOf opts (entryPosition p map)) (objectsData map)).
  unfold stopHooks, releases, startHooks. cbn [objects chunks ch_name].
  rewrite !app_nil_l.
  assert (Hmade : madeIds ([ENewChunks (stageName u)]
                    ++ (entryEffect opts <$> objectsData map)
                    ++ ((fun o => EStartPlaying (name o))
                          <$> List.filter hasStartPlaying objs))
                  = name <$> objs).
  { unfold madeIds. rewrite !omap_app. cbn [omap list_omap].
    fold (madeIds (entryEffect opts <$> objectsData map)).
    rewrite (madeIds_entries opts (entryPosition p map)). fold objs.
    rewrite omap_fmap_none by done. by rewrite app_nil_r. }
  assert (Hch : madeChunks ([ENewChunks (stageName u)]
                    ++ (entryEffect opts <$> objectsData map)
                    ++ ((fun o => EStartPlaying (name o))
                          <$> List.filter hasStartPlaying objs))
                = [stageName u]).
  { unfold madeChunks. rewrite !omap_app. cbn [omap list_omap].
    rewrite (omap_fmap_none (entryEffect opts))
      by (intros [id od]; unfold entryEffect; simpl;
          by destruct (findClass opts (od_clsId od))).
    by rewrite omap_fmap_none by done. }
  rewrite Hmade, Hch.
  split; [|split; [|split; [done|]]].
  - unfold disposedIds. rewrite !omap_app. cbn [omap list_omap].
    rewrite (omap_fmap_none (fun o => EStopPlaying (name o))) by done.
    rewrite (omap_fmap_some (fun o => EDisposeObject (name o)) _ name) by done.
    by rewrite app_nil_r.
  - unfold disposedChunks. rewrite !omap_app. cbn [omap list_omap].
    rewrite (omap_fmap_none (fun o => EStopPlaying (name o))) by done.
    by rewrite (omap_fmap_none (fun o => EDisposeObject (name o))) by done.
  - intros id Hin. rewrite !elem_of_app in Hin.
    destruct Hin as [Hin|[Hin|Hin]].
    + apply list_elem_of_fmap in Hin as (o & [= ->] & Ho).
      apply list_elem_of_fmap. exists o. split; [done|].
      apply list_elem_of_In in Ho. apply filter_In in Ho.
      apply list_elem_of_In. apply Ho.
    + apply list_elem_of_fmap in Hin as (o & [=] & _).
    + apply list_elem_of_singleton in Hin. discriminate Hin.
Qed.

End StageMore.

(** ** The stage manager, continued *)

Module ManagerMore.
Import Babylon Js Game TraceFacts StageProps ManagerProps FetchFacts GameReading
  StageMore.

(** What [doLoad] leaves once its map is there, on a manager that is not
    disposed: the new stage is pushed, and the first stage is shifted out
    and disposed when there were two or more. *)
Lemma doLoad_loaded_cases opts u p map w :
  isDisposed w = false ->
  let built := new_Stage u p map opts (trace w) in
  let w' := doLoad_loaded opts u p map w in
  isDisposed w' = false
  /\ ((length (stages w) < 2)%nat
      /\ stages w' = stages w ++ [built.1] /\ trace w' = built.2
      \/ exists a rest, stages w = a :: rest /\ (2 <= length (stages w))%nat
           /\ stages w' = rest ++ [built.1]
           /\ trace w' = built.2 ++ stopHooks a ++ releases a)
  /\ (exists first rest, stages w' = first :: rest
        /\ _oldestURL w' = url first
        /\ localStorage w'
           = <["stage-oldest-url" := url first]> (localStorage w)).
Proof.
  intros Hd. cbv zeta. unfold doLoad_loaded. rewrite Hd.
  destruct (new_Stage u p map opts (trace w)) as [st tr].
  destruct (stages w) as [|a [|b l]]; simpl.
  - split; [done|]. split; [left; split; [lia|done]|]. by eexists _, _.
  - split; [done|]. split; [left; split; [lia|done]|]. by eexists _, _.
  - rewrite length_app. simpl.
    replace (length l + 1)%nat with (S (length l)) by lia. simpl.
    split; [done|]. split.
    + right. exists a, (b :: l). rewrite Stage_dispose_eq.
      repeat split; try done. lia.
    + by eexists _, _.
Qed.

Lemma fetches_only l :
  Forall (fun e => isFetch e = true) l ->
  madeChunks l = [] /\ disposedChunks l = [].
Proof.
  induction 1 as [|e l He _ [IH1 IH2]]; [done|].
  destruct e; try discriminate He. split; [exact IH1|exact IH2].
Qed.

Lemma madeChunks_app l k : madeChunks (l ++ k) = madeChunks l ++ madeChunks k.
Proof. apply omap_app. Qed.

Lemma disposedChunks_app l k :
  disposedChunks (l ++ k) = disposedChunks l ++ disposedChunks k.
Proof. apply omap_app. Qed.

Lemma chunks_of_construction u p map opts tr :
  let built := new_Stage u p map opts tr in
  madeChunks built.2 = madeChunks tr ++ [ch_name (chunks built.1)]
  /\ disposedChunks built.2 = disposedChunks tr.
Proof.
  cbv zeta. rewrite new_Stage_eq. cbn [fst snd chunks ch_name].
  rewrite !madeChunks_app, !disposedChunks_app. unfold startHooks.
  unfold madeChunks at 2 3 4, disposedChunks at 2 3 4. cbn [omap list_omap].
  rewrite !(omap_fmap_none (entryEffect opts))
    by (intros [id od]; unfold entryEffect; simpl;
        by destruct (findClass opts (od_clsId od))).
  rewrite !(omap_fmap_none (fun o => EStartPlaying (name o))) by done.
  by rewrite !app_nil_r.
Qed.

Lemma chunks_of_disposal a :
  madeChunks (stopHooks a ++ releases a) = []
  /\ disposedChunks (stopHooks a ++ releases a) = [ch_name (chunks a)].
Proof.
  unfold stopHooks, releases.
  rewrite !madeChunks_app, !disposedChunks_app.
  unfold madeChunks, disposedChunks. cbn [omap list_omap].
  rewrite !(omap_fmap_none (fun o => EStopPlaying (name o))) by done.
  by rewrite !(omap_fmap_none (fun o => EDisposeObject (name o))) by done.
Qed.

Lemma accounted_startJobs js w : accounted w -> accounted (startJobs js w).
Proof.
  intros [Hd Hm]. unfold accounted.
  rewrite startJobs_isDisposed, startJobs_stages.
  destruct (startJobs_trace js w) as (suf & -> & F).
  destruct (fetches_only suf F) as [F1 F2].
  rewrite madeChunks_app, disposedChunks_app, F1, F2, !app_nil_r. done.
Qed.

Lemma accounted_step opts w e :
  isCallDispose e = false -> accounted w -> accounted (step opts w e).
Proof.
  intros He Hw. destruct e as [u p|l|r|]; simpl; [| | |discriminate He].
  - unfold loadFromURL. cbv zeta. cbn [running waiting].
    destruct (running w); [exact Hw|]. apply accounted_startJobs. exact Hw.
  - unfold loadFromLoader, loadFromURL. cbv zeta. cbn [running waiting].
    destruct (running w); [exact Hw|]. apply accounted_startJobs. exact Hw.
  - unfold fetchSettled. destruct (running w) as [j|]; [|exact Hw].
    apply accounted_startJobs. destruct r as [map|]; [|exact Hw].
    destruct Hw as [Hd Hm].
    destruct (doLoad_loaded_cases opts (job_url j) (job_position j) map w Hd)
      as (Hd' & Hc & _).
    destruct (chunks_of_construction (job_url j) (job_position j) map opts (trace w))
      as [C1 C2].
    split; [exact Hd'|]. cbn [settle trace stages].
    destruct Hc as [(_ & -> & ->)|(a & rest & Hs & _ & -> & ->)].
    + rewrite C1, C2, Hm, fmap_app, <- app_assoc. done.
    + destruct (chunks_of_disposal a) as [D1 D2].
      rewrite madeChunks_app, disposedChunks_app, C1, C2, D1, D2, Hm, Hs.
      rewrite fmap_app, app_nil_r, <- !app_assoc. done.
Qed.

(** X10.  As long as it is not disposed, a manager made anew has disposed
    the stages it made in the order it made them, all but the ones it
    holds: the chunks made are the chunks disposed followed by those of the
    stages held.  Its [dispose] then disposes the rest, so that every stage
    ever made has been disposed, once and in the order of making. *)
Theorem no_stage_leaks opts storage es :
  Forall (fun e => isCallDispose e = false) es ->
  let w := run opts es (new_StageManager storage) in
  madeChunks (trace w)
  = disposedChunks (trace w) ++ ((fun st => ch_name (chunks st)) <$> stages w)
  /\ disposedChunks (trace (dispose w)) = madeChunks (trace (dispose w)).
Proof.
  intros Hes.
  assert (H : forall w, accounted w -> accounted (run opts es w)).
  { induction Hes as [|e es He _ IH]; intros w Hw; [done|].
    simpl. apply IH. by apply accounted_step. }
  intros w. destruct (H (new_StageManager storage)) as [Hd Hm]; [by split|].
  fold w in Hd, Hm. split; [exact Hm|].
  rewrite DisposeFacts.dispose_trace, madeChunks_app, disposedChunks_app, Hm.
  assert (Hall : forall l : list Stage,
    madeChunks (concat ((fun stage => stopHooks stage ++ releases stage) <$> l)) = []
    /\ disposedChunks (concat ((fun stage => stopHooks stage ++ releases stage) <$> l))
       = (fun st => ch_name (chunks st)) <$> l).
  { induction l as [|a l [IH1 IH2]]; [done|].
    cbn [fmap list_fmap concat].
    destruct (chunks_of_disposal a) as [D1 D2].
    rewrite madeChunks_app, disposedChunks_app, D1, D2, IH1, IH2. done. }
  destruct (Hall (stages w)) as [A1 A2]. rewrite A1, A2, app_nil_r. done.
Qed.

Lemma no_stage_leaks_witness :
  disposedChunks
    (trace (dispose (run Samples.opts MoreSamples.threeLoads (new_StageManager ∅))))
  = ["a"; "b"; "c"].
Proof.
  destruct (no_stage_leaks Samples.opts ∅ MoreSamples.threeLoads) as [_ H].
  - repeat constructor.
  - rewrite H. vm_compute. reflexivity.
Defined.

Lemma recorded_startJobs js w : recorded w -> recorded (startJobs js w).
Proof.
  intros [H1 H2]. unfold recorded.
  rewrite startJobs_oldestURL, startJobs_stages.
  assert (E : localStorage (startJobs js w) = localStorage w).
  { clear. revert w. induction js as [|j js IH]; intros w; simpl; [done|].
    destruct (findStage w _ _); [|done]. by rewrite IH. }
  rewrite E. done.
Qed.

Lemma recorded_step opts w e : recorded w -> recorded (step opts w e).
Proof.
  intros Hw. destruct e as [u p|l|r|]; simpl.
  - unfold loadFromURL. cbv zeta. cbn [running waiting].
    destruct (running w); [exact Hw|]. apply recorded_startJobs. exact Hw.
  - unfold loadFromLoader, loadFromURL. cbv zeta. cbn [running waiting].
    destruct (running w); [exact Hw|]. apply recorded_startJobs. exact Hw.
  - unfold fetchSettled. destruct (running w) as [j|]; [|exact Hw].
    apply recorded_startJobs. destruct r as [map|]; [|exact Hw].
    destruct (isDisposed w) eqn:Hd.
    + unfold doLoad_loaded. rewrite Hd. exact Hw.
    + destruct (doLoad_loaded_cases opts (job_url j) (job_position j) map w Hd)
        as (_ & _ & first & rest & Hs & Ho & Hl).
      split; cbn [settle _oldestURL localStorage stages].
      * rewrite Ho, Hl, lookup_insert_eq. done.
      * intros first' rest' Hs'. rewrite Hs in Hs'. injection Hs' as <- <-.
        exact Ho.
  - exact Hw.
Qed.

(** X11.  Whatever happens to a manager made anew, the url it records as
    the oldest one is the url in the local storage (the empty string when
    there is none), and it is the url of the first of its stages when it has
    one.  A manager made later from that storage starts with the same
    url. *)
Theorem oldest_url_is_stored opts storage es :
  let w := run opts es (new_StageManager storage) in
  _oldestURL w = default EmptyString (localStorage w !! "stage-oldest-url")
  /\ (forall first rest, stages w = first :: rest -> _oldestURL w = url first)
  /\ _oldestURL (new_StageManager (localStorage w)) = _oldestURL w.
Proof.
  assert (H : forall w, recorded w -> recorded (run opts es w)).
  { induction es as [|e es IH]; intros w Hw; [done|].
    simpl. apply IH. by apply recorded_step. }
  intros w. destruct (H (new_StageManager storage)) as [H1 H2]; [by split|].
  fold w in H1, H2. split; [exact H1|]. split; [exact H2|].
  simpl. by rewrite H1.
Qed.

End ManagerMore.
(** ** The objects of the editor *)

Module EditorMore.
Import Babylon Js Editor EditorProps EditorReading.

(** *** Finding a mesh by its name *)

Lemma named_spec id m : named id m = true <-> name m = JStr id.
Proof.
  unfold named. destruct (name m) as [x| |s|b]; try (split; discriminate).
  rewrite String.eqb_eq. split; congruence.
Qed.

Lemma getMeshByName_Some w id m :
  getMeshByName w id = Some m -> m ∈ meshes w /\ name m = JStr id.
Proof.
  unfold getMeshByName. intros H. apply find_some in H as [H1 H2].
  split; [by apply list_elem_of_In|]. by apply named_spec.
Qed.

Lemma getMeshByName_None w id :
  getMeshByName w id = None <-> JStr id ∉ name <$> meshes w.
Proof.
  unfold getMeshByName. split.
  - intros H Hin. apply list_elem_of_fmap in Hin as (m & E & Hm).
    apply list_elem_of_In in Hm.
    pose proof (find_none _ _ H m Hm) as E'. cbv beta in E'.
    symmetry in E. apply named_spec in E. congruence.
  - intros H. destruct (find _ _) as [m|] eqn:E; [|done].
    apply find_some in E as [E1 E2]. apply named_spec in E2.
    exfalso. apply H. apply list_elem_of_fmap. exists m.
    split; [done|]. by apply list_elem_of_In.
Qed.

(** Two entries of a list with the same image under [f] are the same
    when the images have no duplicates. *)
Lemma NoDup_fmap_same {A B} (f : A -> B) (l : list A) x y :
  NoDup (f <$> l) -> x ∈ l -> y ∈ l -> f x = f y -> x = y.
Proof.
  intros Hf Hx Hy E.
  apply list_elem_of_lookup in Hx as [i Hi].
  apply list_elem_of_lookup in Hy as [j Hj].
  assert (i = j).
  { eapply NoDup_lookup; [exact Hf| |]; rewrite list_lookup_fmap.
    - by rewrite Hi.
    - rewrite Hj. simpl. by rewrite E. }
  subst. congruence.
Qed.

Lemma getMeshByName_found w m id :
  NoDup (name <$> meshes w) -> m ∈ meshes w -> name m = JStr id ->
  getMeshByName w id = Some m.
Proof.
  intros Hn Hm Hid. destruct (getMeshByName w id) as [m'|] eqn:E.
  - apply getMeshByName_Some in E as [Hm' E]. f_equal.
    apply (NoDup_fmap_same name (meshes w)); try done. congruence.
  - apply getMeshByName_None in E. exfalso. apply E.
    apply list_elem_of_fmap. by exists m.
Qed.

Lemma elem_of_objectMeshes w m :
  m ∈ objectMeshes w <-> m ∈ meshes w /\ isObject m = true.
Proof. unfold objectMeshes. rewrite !list_elem_of_In, filter_In. done. Qed.

Lemma objectMeshes_names w id :
  id ∈ name <$> objectMeshes w -> id ∈ name <$> meshes w.
Proof.
  rewrite !list_elem_of_fmap. intros (m & -> & Hm).
  apply elem_of_objectMeshes in Hm as [Hm _]. by exists m.
Qed.

(** *** What [destroy] leaves *)

(** The meshes left are those of another name. *)
Lemma destroy_meshes_names id w m :
  wellNamed w ->
  m ∈ meshes (destroy id w) <-> m ∈ meshes w /\ name m ≠ JStr id.
Proof.
  intros (Hu & _ & Hn). unfold destroy.
  destruct (getMeshByName w id) as [object|] eqn:E;
    cbn [meshes nextUid objectsData selectedObject console].
  - apply getMeshByName_Some in E as [Hm Hname].
    rewrite list_elem_of_filter. split.
    + intros [Hne Hin]. split; [done|]. intros Heq. apply Hne. f_equal.
      apply (NoDup_fmap_same name (meshes w)); try done. congruence.
    + intros [Hin Hne]. split; [|done]. intros Heq. apply Hne.
      rewrite <- Hname. f_equal.
      by apply (NoDup_fmap_same uid (meshes w)).
  - apply getMeshByName_None in E. split; [|by intros [? _]].
    intros Hin. split; [done|]. intros Heq. apply E.
    apply list_elem_of_fmap. by exists m.
Qed.

Lemma destroy_wellNamed id w : wellNamed w -> wellNamed (destroy id w).
Proof.
  intros (Hu & Hf & Hn). pose proof (destroy_meshes id w) as Hsub.
  split; [|split].
  - eapply sublist_NoDup; [exact Hu|]. by apply fmap_sublist.
  - rewrite destroy_nextUid. rewrite Forall_forall in Hf. apply Forall_forall.
    intros m Hm. apply Hf. eapply elem_of_sublist; [exact Hm|exact Hsub].
  - eapply sublist_NoDup; [exact Hn|]. by apply fmap_sublist.
Qed.

Lemma destroy_objectsData_ne id id' w :
  id' ≠ id -> objectsData (destroy id w) !! id' = objectsData w !! id'.
Proof.
  intros Hne. unfold destroy. cbn [objectsData].
  rewrite lookup_delete_ne by done. by destruct (getMeshByName w id).
Qed.

Lemma destroy_gone id w :
  wellNamed w -> JStr id ∉ name <$> meshes (destroy id w).
Proof.
  intros Hw Hin. apply list_elem_of_fmap in Hin as (m & E & Hm).
  apply (destroy_meshes_names id w m Hw) in Hm as [_ Hne]. done.
Qed.

(** What is selected after [destroy] was selected before, and is not the
    mesh of that name. *)
Lemma destroy_selected id w u :
  selectedObject (destroy id w) = Some u ->
  selectedObject w = Some u
  /\ (forall m, getMeshByName w id = Some m -> uid m ≠ u).
Proof.
  unfold destroy. destruct (getMeshByName w id) as [object|];
    cbn [meshes nextUid objectsData selectedObject console].
  - destruct (decide (selectedObject w = Some (uid object))) as [E|E]; [done|].
    intros Hs. split; [done|]. intros m [= <-] Hu. apply E. by rewrite Hs, Hu.
  - intros Hs. split; [done|]. intros m Hm. discriminate.
Qed.

Lemma destroy_consistent id w : consistent w -> consistent (destroy id w).
Proof.
  intros (Hw & Hreg & Hstr & Hsel). split; [by apply destroy_wellNamed|].
  split; [|split].
  - intros id'. destruct (decide (id' = id)) as [->|Hne].
    + rewrite destroy_objectsData. split; [by intros [? ?]|].
      intros Hin. apply objectMeshes_names in Hin. by apply destroy_gone in Hin.
    + rewrite destroy_objectsData_ne, Hreg by done.
      rewrite !list_elem_of_fmap. split; intros (m & E & Hm); exists m;
        (split; [done|]); apply elem_of_objectMeshes;
        apply elem_of_objectMeshes in Hm as [Hm Ho]; (split; [|done]).
      * apply destroy_meshes_names; [done|]. split; [done|]. congruence.
      * by apply (destroy_meshes_names id w m Hw) in Hm as [Hm _].
  - rewrite Forall_forall in *. intros m Hm. apply Hstr.
    apply elem_of_objectMeshes in Hm as [Hm Ho]. apply elem_of_objectMeshes.
    split; [|done]. by apply (destroy_meshes_names id w m Hw) in Hm as [Hm _].
  - intros u Hu. apply destroy_selected in Hu as [Hu Hother].
    apply Hsel in Hu. apply list_elem_of_fmap in Hu as (m & -> & Hm).
    apply list_elem_of_fmap. exists m. split; [done|].
    apply elem_of_objectMeshes. apply elem_of_objectMeshes in Hm as [Hm Ho].
    split; [|done]. apply destroy_meshes_names; [done|]. split; [done|].
    intros E. destruct Hw as (_ & _ & Hn).
    apply (Hother m); [|done]. by apply getMeshByName_found.
Qed.

(** *** What [create] makes *)

(** Plain arguments leave the name that the mesh was made with. *)
Lemma plain_name a : plain a = true -> a !! "name" = None.
Proof. unfold plain. by destruct (a !! "name"). Qed.

Lemma made_name id p a w c :
  plain (args c) = true -> plain a = true -> name (made id p a w c) = JStr id.
Proof.
  intros Hc Ha. unfold made, Object_assign. cbn [name].
  assert (E : (a ∪ args c) !! "name" = None).
  { apply lookup_union_None. split; by apply plain_name. }
  by rewrite E.
Qed.

Lemma findClass_plain classes cls c :
  plainClasses classes -> findClass classes cls = Some c -> plain (args c) = true.
Proof.
  unfold plainClasses, findClass. rewrite Forall_forall. intros H Hf.
  apply find_some in Hf as [Hin _]. apply H. by apply list_elem_of_In.
Qed.

(** The world after [create] found the class. *)
Lemma create_known classes id cls p a w c :
  findClass classes cls = Some c ->
  let w0 := destroy id w in
  create classes id cls p a w
  = Returned {| meshes := meshes w0 ++ [made id p a w c];
                nextUid := S (nextUid w);
                objectsData :=
                  <[id := {| so_clsId := cls; so_args := Object_assign (args c) a;
                             so_xyz := None |}]> (objectsData w0);
                selectedObject := Some (nextUid w);
                console := console w |}.
Proof.
  intros Hc. unfold create, made. rewrite Hc. cbn [uid].
  by rewrite destroy_nextUid, destroy_console.
Qed.

Lemma create_unknown classes id cls p a w :
  findClass classes cls = None ->
  let w0 := destroy id w in
  create classes id cls p a w
  = Returned {| meshes := meshes w0; nextUid := nextUid w;
                objectsData := objectsData w0;
                selectedObject := selectedObject w0;
                console := console w ++ [warning cls id] |}.
Proof.
  intros Hc. unfold create. rewrite Hc.
  by rewrite destroy_nextUid, destroy_console.
Qed.

Lemma fresh_uid w : wellNamed w -> nextUid w ∉ uid <$> meshes w.
Proof.
  intros (_ & Hf & _) Hin. apply list_elem_of_fmap in Hin as (m & E & Hin).
  rewrite Forall_forall in Hf. specialize (Hf m Hin). cbv beta in Hf. lia.
Qed.

Lemma create_wellNamed classes id cls p a w :
  plainClasses classes -> plain a = true ->
  wellNamed w -> wellNamed (after (create classes id cls p a w)).
Proof.
  intros Hpc Hpa Hw. pose proof (destroy_wellNamed id w Hw) as Hw0.
  pose proof (destroy_gone id w Hw) as Hgone.
  pose proof (fresh_uid _ Hw0) as Hfresh. rewrite destroy_nextUid in Hfresh.
  destruct Hw0 as (Hu & Hf & Hn). rewrite destroy_nextUid in Hf.
  destruct (findClass classes cls) as [c|] eqn:Hc.
  - rewrite (create_known _ _ _ _ _ _ _ Hc). unfold wellNamed.
    cbn [after meshes nextUid]. rewrite !fmap_app.
    cbn [fmap list_fmap].
    rewrite (made_name id p a w c (findClass_plain _ _ _ Hpc Hc) Hpa).
    cbn [uid made]. split; [|split].
    + apply NoDup_app. split; [done|]. split; [|apply NoDup_singleton].
      intros u Hin Hin'. apply list_elem_of_singleton in Hin'. by subst.
    + apply Forall_app. split.
      * eapply Forall_impl; [exact Hf|]. intros m Hm. cbv beta in *. lia.
      * apply Forall_singleton. unfold made. cbn [uid]. lia.
    + apply NoDup_app. split; [done|]. split; [|apply NoDup_singleton].
      intros n Hin Hin'. apply list_elem_of_singleton in Hin'. by subst.
  - rewrite (create_unknown _ _ _ _ _ _ Hc). unfold wellNamed.
    cbn [after meshes nextUid]. done.
Qed.

Lemma objectMeshes_eq w w' : meshes w' = meshes w -> objectMeshes w' = objectMeshes w.
Proof. unfold objectMeshes. by intros ->. Qed.

Lemma objectMeshes_app w w0 object :
  meshes w = meshes w0 ++ [object] -> isObject object = true ->
  forall m, m ∈ objectMeshes w <-> m ∈ objectMeshes w0 \/ m = object.
Proof.
  intros E Ho m.
  rewrite !elem_of_objectMeshes, E, elem_of_app, list_elem_of_singleton.
  split.
  - intros [[? | ->] ?]; [left|right]; done.
  - intros [[? ?] | ->]; (split; [|done]); [by left|by right].
Qed.

Lemma create_consistent classes id cls p a w :
  plainClasses classes -> plain a = true ->
  consistent w -> consistent (after (create classes id cls p a w)).
Proof.
  intros Hpc Hpa Hw. split; [apply create_wellNamed; [done|done|apply Hw]|].
  destruct (destroy_consistent id w Hw) as (Hw0 & Hreg & Hstr & Hsel).
  destruct (findClass classes cls) as [c|] eqn:Hc.
  - rewrite (create_known _ _ _ _ _ _ _ Hc). cbn [after objectsData selectedObject].
    pose proof (made_name id p a w c (findClass_plain _ _ _ Hpc Hc) Hpa) as Hname.
    set (object := made id p a w c) in *.
    match goal with
    | |- context [objectMeshes ?w'] =>
      pose proof (objectMeshes_app w' (destroy id w) object eq_refl eq_refl) as Hobjs
    end.
    split; [|split].
    + intros id'. rewrite lookup_insert_is_Some, Hreg, !list_elem_of_fmap. split.
      * intros [<- | [_ (m & E & Hm)]].
        -- exists object. split; [done|]. apply Hobjs. by right.
        -- exists m. split; [done|]. apply Hobjs. by left.
      * intros (m & E & Hm). apply Hobjs in Hm as [Hm | ->].
        -- destruct (decide (id = id')); [by left|right]. split; [done|by exists m].
        -- left. congruence.
    + rewrite Forall_forall in *. intros m Hm. apply Hobjs in Hm as [Hm | ->].
      * by apply Hstr.
      * by exists id.
    + intros u [= <-]. apply list_elem_of_fmap. exists object. split; [done|].
      apply Hobjs. by right.
  - rewrite (create_unknown _ _ _ _ _ _ Hc). cbn [after objectsData selectedObject].
    split; [|split].
    + intros id'. rewrite Hreg. by erewrite objectMeshes_eq.
    + by erewrite objectMeshes_eq.
    + intros u Hu. erewrite objectMeshes_eq; [by apply Hsel|done].
Qed.

Lemma objectsInBox_sub inBox w m :
  m ∈ objectsInBox inBox w -> m ∈ objectMeshes w.
Proof.
  unfold objectsInBox. rewrite !list_elem_of_In, filter_In. by intros [? _].
Qed.

Lemma selectNextInBox_consistent inBox w :
  consistent w -> consistent (selectNextInBox inBox w).
Proof.
  intros (Hw & Hreg & Hstr & Hsel). split; [done|]. split; [done|]. split; [done|].
  unfold selectNextInBox. cbn [selectedObject].
  intros u. destruct (length (objectsInBox inBox w)); [done|].
  intros Hu'. apply fmap_Some in Hu' as (m & Hm & ->).
  apply list_elem_of_lookup_2, objectsInBox_sub in Hm.
  apply list_elem_of_fmap. by exists m.
Qed.

Lemma objStep_consistent classes w op :
  plainClasses classes -> plainOp op ->
  consistent w -> consistent (objStep classes w op).
Proof.
  intros Hpc Hop Hw. destruct op as [id cls p a|id|inBox|]; cbn [objStep].
  - by apply create_consistent.
  - by apply destroy_consistent.
  - by apply selectNextInBox_consistent.
  - destruct Hw as (Hw & Hreg & Hstr & Hsel). by repeat (split; [done|]).
Qed.

Lemma emptyWorld_consistent : consistent emptyWorld.
Proof.
  split; [|split; [|split]].
  - split; [apply NoDup_nil_2|]. split; [done|apply NoDup_nil_2].
  - intros id. cbn. rewrite lookup_empty. split.
    + by intros [? ?].
    + intros H. by apply elem_of_nil in H.
  - constructor.
  - done.
Qed.

Lemma objRun_consistent classes ops w :
  plainClasses classes -> Forall plainOp ops ->
  consistent w -> consistent (objRun classes ops w).
Proof.
  intros Hpc. revert w. induction ops as [|op ops IH]; intros w Hops Hw; [done|].
  apply Forall_cons in Hops as [Hop Hops].
  apply IH; [done|]. by apply objStep_consistent.
Qed.


Lemma plainClasses_sample : plainClasses Samples.editorClasses.
Proof. by repeat constructor. Qed.






(** Arguments that are not plain: a [name] among them renames the mesh, so
    that the id finds no mesh and [destroy] leaves the one made in the
    scene. *)
Lemma create_with_name_renames :
  let w := after (create Samples.editorClasses "r" 1 Zero {[ "name" := JStr "zzz" ]}
                    emptyWorld) in
  getMeshByName w "r" = None
  /\ (exists m, getMeshByName w "zzz" = Some m)
  /\ is_Some (objectsData w !! "r")
  /\ meshes (destroy "r" w) = meshes w.
Proof.
  cbv zeta. split; [vm_compute; reflexivity|]. split; [by eexists|].
  split; [by eexists|]. vm_compute. reflexivity.
Qed.









(** *** Going through the objects in the box *)

Lemma indexAfter_found objs i m :
  NoDup (uid <$> objs) -> objs !! i = Some m ->
  indexAfter objs (Some (uid m)) = S i.
Proof.
  revert i. induction objs as [|m0 objs IH]; intros i Hnd Hi; [done|].
  rewrite fmap_cons in Hnd. apply NoDup_cons in Hnd as [Hnot Hnd].
  cbn [indexAfter]. destruct i as [|i].
  - injection Hi as ->. by rewrite decide_True.
  - cbn in Hi. rewrite decide_False.
    + by rewrite (IH i Hnd Hi).
    + intros [= E]. apply Hnot. rewrite <- E. apply list_elem_of_fmap.
      exists m. split; [done|]. by eapply list_elem_of_lookup_2.
Qed.

Lemma indexAfter_absent objs sel :
  (forall m, m ∈ objs -> sel ≠ Some (uid m)) -> indexAfter objs sel = O.
Proof.
  induction objs as [|m0 objs IH]; intros H; [done|].
  cbn [indexAfter]. rewrite decide_False by (apply H; by left).
  rewrite IH; [done|]. intros m Hm. apply H. by right.
Qed.

Lemma List_filter_sublist {A} (f : A -> bool) (l : list A) :
  List.filter f l `sublist_of` l.
Proof.
  induction l as [|x l IH]; [done|]. cbn [List.filter].
  destruct (f x); [by apply sublist_skip|by apply sublist_cons].
Qed.

Lemma objectsInBox_NoDup inBox w :
  wellNamed w -> NoDup (uid <$> objectsInBox inBox w).
Proof.
  intros (Hu & _ & _). eapply sublist_NoDup; [exact Hu|].
  apply fmap_sublist. unfold objectsInBox, objectMeshes.
  etrans; apply List_filter_sublist.
Qed.

Lemma iter_selectNext_meshes inBox k w :
  meshes (Nat.iter k (selectNextInBox inBox) w) = meshes w.
Proof. induction k as [|k IH]; [done|]. by rewrite Nat.iter_succ. Qed.

(** X16.  The end of a drag with shift on the panel of objects selects the
    object after the selected one among the objects in the box, in the order
    of the scene, and the first of them after the last: with the [i]-th one
    selected, [k] such drags select the one at [i + k] modulo their number,
    so as many drags as there are objects come back to the same one.  When
    the selected object is not in the box, or nothing is selected, the first
    object in the box is selected; when the box is empty, nothing is. *)
Theorem selection_goes_round inBox w :
  wellNamed w ->
  let objs := objectsInBox inBox w in
  (objs = [] -> selectedObject (selectNextInBox inBox w) = None)
  /\ ((forall m, m ∈ objs -> selectedObject w ≠ Some (uid m)) ->
      selectedObject (selectNextInBox inBox w) = uid <$> head objs)
  /\ (forall i m k, objs !! i = Some m -> selectedObject w = Some (uid m) ->
      selectedObject (Nat.iter k (selectNextInBox inBox) w)
      = uid <$> objs !! ((i + k) mod length objs)%nat).
Proof.
  intros Hw objs. pose proof (objectsInBox_NoDup inBox w Hw) as Hnd. fold objs in Hnd.
  split; [|split].
  - intros E. unfold selectNextInBox. cbn [selectedObject]. fold objs. by rewrite E.
  - intros Hno. unfold selectNextInBox. cbn [selectedObject]. fold objs.
    rewrite (indexAfter_absent _ _ Hno).
    destruct objs as [|m objs']; [done|].
    cbn [length]. rewrite Nat.Div0.mod_0_l. done.
  - intros i m k Hi Hs. pose proof (lookup_lt_Some _ _ _ Hi) as Hlt.
    induction k as [|k IH].
    + rewrite Nat.add_0_r, Nat.mod_small by done. cbn. by rewrite Hi.
    + rewrite Nat.iter_succ. set (wk := Nat.iter k (selectNextInBox inBox) w) in *.
      assert (Ek : objectsInBox inBox wk = objs).
      { unfold objs, objectsInBox, objectMeshes, wk.
        by rewrite iter_selectNext_meshes. }
      assert (Hj : ((i + k) mod length objs < length objs)%nat).
      { apply Nat.mod_upper_bound. lia. }
      destruct (lookup_lt_is_Some_2 _ _ Hj) as [mj Hmj].
      rewrite Hmj in IH. cbn in IH.
      unfold selectNextInBox. cbn [selectedObject]. rewrite Ek, IH.
      rewrite (indexAfter_found _ _ _ Hnd Hmj).
      destruct (length objs) as [|n] eqn:El; [lia|].
      replace (S ((i + k) mod S n)) with ((i + k) mod S n + 1)%nat by lia.
      rewrite Nat.Div0.add_mod_idemp_l.
      by replace (i + k + 1)%nat with (i + S k)%nat by lia.
Qed.

Lemma selection_goes_round_witness :
  selectedObject (selectNextInBox (fun _ => true) MoreSamples.twoDoors) = Some O.
Proof.
  assert (Hw : wellNamed MoreSamples.twoDoors).
  { apply (objRun_consistent Samples.editorClasses
             [OpCreate "a" 1 Zero ∅; OpCreate "b" 1 (Vec3 1 0 0) ∅]
             emptyWorld plainClasses_sample);
      [by repeat constructor|apply emptyWorld_consistent]. }
  destruct (selection_goes_round (fun _ => true) MoreSamples.twoDoors Hw)
    as (_ & _ & H).
  exact (H 1%nat (made "b" (Vec3 1 0 0) ∅
                    (objRun Samples.editorClasses [OpCreate "a" 1 Zero ∅] emptyWorld)
                    {| clsId := 1; clsName := "door"; args := ∅ |})
           1%nat eq_refl eq_refl).
Defined.

(** *** Making the saved objects again *)

Lemma create_objectsData_ne classes id id' cls p a w :
  id' ≠ id ->
  objectsData (after (create classes id cls p a w)) !! id' = objectsData w !! id'.
Proof.
  intros Hne. destruct (findClass classes cls) as [c|] eqn:Hc.
  - rewrite (create_known _ _ _ _ _ _ _ Hc). cbn [after objectsData].
    rewrite lookup_insert_ne by done. by apply destroy_objectsData_ne.
  - rewrite (create_unknown _ _ _ _ _ _ Hc). cbn [after objectsData].
    by apply destroy_objectsData_ne.
Qed.

Lemma create_objectsData_eq classes id cls p a w :
  objectsData (after (create classes id cls p a w)) !! id
  = restored classes {| so_clsId := cls; so_args := a; so_xyz := Some p |}.
Proof.
  unfold restored. cbn [so_clsId so_args].
  destruct (findClass classes cls) as [c|] eqn:Hc.
  - rewrite (create_known _ _ _ _ _ _ _ Hc). cbn [after objectsData].
    by rewrite lookup_insert_eq.
  - rewrite (create_unknown _ _ _ _ _ _ Hc). cbn [after objectsData].
    apply destroy_objectsData.
Qed.

Lemma destroy_meshes_absent id w :
  getMeshByName w id = None -> meshes (destroy id w) = meshes w.
Proof. intros E. unfold destroy. by rewrite E. Qed.

Lemma create_meshes_fresh classes id cls p a w :
  getMeshByName w id = None ->
  meshes (after (create classes id cls p a w))
  = meshes w ++ match findClass classes cls with
                | Some c => [made id p a w c]
                | None => []
                end.
Proof.
  intros E. destruct (findClass classes cls) as [c|] eqn:Hc.
  - rewrite (create_known _ _ _ _ _ _ _ Hc). cbn [after meshes].
    by rewrite destroy_meshes_absent.
  - rewrite (create_unknown _ _ _ _ _ _ Hc). cbn [after meshes].
    rewrite destroy_meshes_absent by done. by rewrite app_nil_r.
Qed.

Lemma create_console classes id cls p a w :
  console (after (create classes id cls p a w))
  = console w ++ match findClass classes cls with
                 | Some _ => []
                 | None => [warning cls id]
                 end.
Proof.
  destruct (findClass classes cls) as [c|] eqn:Hc.
  - rewrite (create_known _ _ _ _ _ _ _ Hc). cbn [after console].
    by rewrite app_nil_r.
  - by rewrite (create_unknown _ _ _ _ _ _ Hc).
Qed.

Lemma restoreLoop_spec classes (saved : gmap string SavedObject) keys w :
  plainClasses classes ->
  wellNamed w -> NoDup keys ->
  Forall (fun m => exists id, name m = JStr id) (objectMeshes w) ->
  (forall id, id ∈ keys ->
     objectsData w !! id = saved !! id /\ (JStr id ∉ name <$> meshes w)
     /\ exists so p, saved !! id = Some so /\ so_xyz so = Some p
                     /\ plain (so_args so) = true) ->
  exists w', restoreLoop classes keys w = Some w'
    /\ wellNamed w'
    /\ Forall (fun m => exists id, name m = JStr id) (objectMeshes w')
    /\ (forall id, id ∈ keys ->
          objectsData w' !! id = (saved !! id) ≫= restored classes)
    /\ (forall id, id ∉ keys -> objectsData w' !! id = objectsData w !! id)
    /\ (forall id, JStr id ∈ name <$> objectMeshes w'
          <-> JStr id ∈ name <$> objectMeshes w
              \/ (id ∈ keys /\ is_Some ((saved !! id) ≫= restored classes)))
    /\ (forall id so c p, id ∈ keys -> saved !! id = Some so ->
          findClass classes (so_clsId so) = Some c -> so_xyz so = Some p ->
          exists m, m ∈ meshes w' /\ name m = JStr id /\ mesh_position m = p
            /\ props m = Object_assign (args c) (so_args so)
            /\ isObject m = true)
    /\ (forall m, m ∈ meshes w -> m ∈ meshes w')
    /\ console w' = console w ++ omap (warningOf classes saved) keys.
Proof.
  intros Hpc. revert w. induction keys as [|id keys IH]; intros w Hw Hnd Hstr Hkeys.
  - exists w. split; [done|]. split; [done|]. split; [done|]. split.
    { intros id Hin. by apply elem_of_nil in Hin. }
    split; [done|]. split.
    { intros id. split; [by left|]. intros [?|[Hin _]]; [done|].
      by apply elem_of_nil in Hin. }
    split.
    { intros id so c p Hin. by apply elem_of_nil in Hin. }
    split; [done|]. cbn. by rewrite app_nil_r.
  - apply NoDup_cons in Hnd as [Hnotin Hnd].
    destruct (Hkeys id) as (Hod & Hfresh & so & p & Hso & Hp & Hpa); [by left|].
    apply getMeshByName_None in Hfresh.
    set (w1 := after (create classes id (so_clsId so) p (so_args so) w)).
    assert (Hstep : restoreStep classes w id = Some w1).
    { unfold restoreStep. rewrite Hod, Hso. cbn. by rewrite Hp. }
    assert (Hm1 : meshes w1 = meshes w ++ match findClass classes (so_clsId so) with
                                          | Some c => [made id p (so_args so) w c]
                                          | None => []
                                          end)
      by by apply create_meshes_fresh.
    assert (Hname : forall c, findClass classes (so_clsId so) = Some c ->
                      name (made id p (so_args so) w c) = JStr id).
    { intros c Hc. apply made_name; [|done]. by eapply findClass_plain. }
    assert (Hsame : restored classes {| so_clsId := so_clsId so;
                      so_args := so_args so; so_xyz := Some p |}
                    = restored classes so) by done.
    assert (Hstr1 : Forall (fun m => exists id, name m = JStr id) (objectMeshes w1)).
    { unfold objectMeshes. rewrite Hm1, List.filter_app. apply Forall_app.
      split; [done|].
      destruct (findClass classes (so_clsId so)) as [c|] eqn:Hc; [|constructor].
      cbn. apply Forall_singleton. exists id. by apply Hname. }
    destruct (IH w1)
      as (w' & Hrun & Hw' & Hstr' & Hin' & Hout' & Hobj' & Hmade' & Hkeep' & Hcon');
      [by apply create_wellNamed|done|done| |].
    { intros id' Hin'.
      assert (id' ≠ id) by (intros ->; done).
      destruct (Hkeys id') as (Hod' & Hfresh' & Hex'); [by right|].
      split; [|split; [|done]].
      - unfold w1. by rewrite create_objectsData_ne.
      - rewrite Hm1, fmap_app, elem_of_app. intros [?|Hin'']; [done|].
        destruct (findClass classes (so_clsId so)) as [c|] eqn:Hc;
          [|by apply elem_of_nil in Hin''].
        apply list_elem_of_singleton in Hin''. rewrite (Hname c eq_refl) in Hin''.
        congruence. }
    exists w'. split; [cbn [restoreLoop]; by rewrite Hstep|].
    split; [done|]. split; [done|]. split; [|split; [|split; [|split; [|split]]]].
    + intros id' [->|Hin]%elem_of_cons; [|by apply Hin'].
      rewrite (Hout' id Hnotin). unfold w1. rewrite create_objectsData_eq, Hsame.
      by rewrite Hso.
    + intros id' Hnot. apply not_elem_of_cons in Hnot as [Hne Hnot].
      rewrite (Hout' id' Hnot). unfold w1. by rewrite create_objectsData_ne.
    + intros id'. rewrite Hobj'.
      assert (Hobjs1 : JStr id' ∈ name <$> objectMeshes w1
                <-> JStr id' ∈ name <$> objectMeshes w
                    \/ (id' = id /\ is_Some ((saved !! id) ≫= restored classes))).
      { unfold objectMeshes. rewrite Hm1, List.filter_app, fmap_app, elem_of_app.
        rewrite Hso. cbn [mbind option_bind]. unfold restored.
        destruct (findClass classes (so_clsId so)) as [c|] eqn:Hc.
        - assert (E : name <$> List.filter isObject [made id p (so_args so) w c]
                      = [JStr id]).
          { cbn [List.filter made isObject fmap list_fmap]. f_equal.
            exact (Hname c eq_refl). }
          rewrite E, list_elem_of_singleton.
          split; (intros [?|?]; [by left|right]).
          + split; [congruence|done].
          + destruct H as [-> _]. done.
        - cbn. split; (intros [?|?]; [by left|]).
          + by apply elem_of_nil in H.
          + destruct H as [_ [? ?]]. done. }
      rewrite Hobjs1, elem_of_cons. split.
      * intros [[?|[-> ?]]|[? ?]]; [by left|right|right]; split; try done;
          [by left|by right].
      * intros [?|[[->|?] ?]]; [by left; left|by left; right|by right].
    + intros id' so' c p' [->|Hin]%elem_of_cons Hso' Hc Hp'; [|by eapply Hmade'].
      assert (so' = so) as -> by congruence.
      assert (p' = p) as -> by congruence.
      exists (made id p (so_args so) w c). split; [|split; [by apply Hname|done]].
      apply Hkeep'. rewrite Hm1, Hc. apply elem_of_app. right.
      by apply list_elem_of_singleton.
    + intros m Hm. apply Hkeep'. rewrite Hm1. apply elem_of_app. by left.
    + rewrite Hcon'. unfold w1. rewrite create_console, <- app_assoc. f_equal.
      cbn [omap list_omap]. unfold warningOf at 2. rewrite Hso. cbn.
      by destruct (findClass classes (so_clsId so)).
Qed.

(** X17.  The loop that makes the saved objects again when the editor
    starts, on a scene that has no object yet and no mesh named like a saved
    object, with plain arguments of the classes and of the saved objects
    (they name neither the name nor the position of a mesh, nor its
    [dispose]): it ends, and then the saved objects and the objects of the
    scene agree.  An entry whose class is registered is kept with that
    class, its arguments are those of the class with the saved ones written
    over them, and its mesh stands at the saved coordinates; the entry
    itself no longer holds coordinates.  An entry whose class is not
    registered is taken out of the saved objects, with one warning for
    each, in the order of the keys.  The meshes there were are still there,
    and nothing is selected. *)
Theorem restore_makes_known_objects classes keys w :
  plainClasses classes ->
  (forall id so, objectsData w !! id = Some so -> plain (so_args so) = true) ->
  wellNamed w -> objectMeshes w = [] -> NoDup keys ->
  (forall id, id ∈ keys <-> is_Some (objectsData w !! id)) ->
  (forall id so, objectsData w !! id = Some so -> is_Some (so_xyz so)) ->
  (forall id, id ∈ keys -> JStr id ∉ name <$> meshes w) ->
  exists w', restore classes keys w = Some w'
    /\ consistent w'
    /\ selectedObject w' = None
    /\ (forall id, objectsData w' !! id = (objectsData w !! id) ≫= restored classes)
    /\ (forall id so c p, objectsData w !! id = Some so ->
          findClass classes (so_clsId so) = Some c -> so_xyz so = Some p ->
          exists m, getMeshByName w' id = Some m /\ mesh_position m = p
            /\ props m = Object_assign (args c) (so_args so)
            /\ isObject m = true)
    /\ (forall m, m ∈ meshes w -> m ∈ meshes w')
    /\ console w' = console w ++ omap (warningOf classes (objectsData w)) keys.
Proof.
  intros Hpc Hplain Hw Hnone Hnd Hkeys Hxyz Hfresh.
  destruct (restoreLoop_spec classes (objectsData w) keys w Hpc Hw Hnd)
    as (w' & Hrun & Hw' & Hstr' & Hin & Hout & Hobj & Hmade & Hkeep & Hcon).
  { rewrite Hnone. constructor. }
  { intros id Hid. split; [done|]. split; [by apply Hfresh|].
    destruct (proj1 (Hkeys id) Hid) as [so Hso].
    destruct (Hxyz id so Hso) as [p Hp]. exists so, p.
    split; [done|]. split; [done|]. by eapply Hplain. }
  assert (Hod : forall id, objectsData w' !! id
                           = (objectsData w !! id) ≫= restored classes).
  { intros id. destruct (decide (id ∈ keys)) as [Hid|Hid]; [by apply Hin|].
    rewrite (Hout id Hid).
    destruct (objectsData w !! id) as [so|] eqn:E; [|done].
    exfalso. apply Hid, Hkeys. by rewrite E. }
  exists (cancelSelect w'). split; [unfold restore; by rewrite Hrun|].
  split; [|split; [done|split; [done|split; [|split; [done|done]]]]].
  - split; [done|]. split; [|split; [done|done]]. intros id.
    change (objectsData (cancelSelect w')) with (objectsData w').
    change (objectMeshes (cancelSelect w')) with (objectMeshes w').
    rewrite Hobj, Hnone, Hod. split.
    + intros Hs. right. split; [|done]. apply Hkeys.
      destruct (objectsData w !! id); [done|]. by destruct Hs.
    + intros [Hin'|[_ ?]]; [|done]. by apply elem_of_nil in Hin'.
  - intros id so c p Hso Hc Hp.
    destruct (Hmade id so c p) as (m & Hm & Hname & Hrest); try done.
    { apply Hkeys. by rewrite Hso. }
    exists m. split; [|done].
    destruct Hw' as (_ & _ & Hn). by apply (getMeshByName_found w').
Qed.

Lemma restore_makes_known_objects_witness :
  exists w', restore Samples.editorClasses ["a"; "ghost"] MoreSamples.atStart = Some w'
    /\ objectsData w' !! "ghost" = None
    /\ console w' = ["class 7 is not found! ignoring object #ghost"].
Proof.
  destruct (restore_makes_known_objects Samples.editorClasses ["a"; "ghost"]
              MoreSamples.atStart)
    as (w' & H1 & _ & _ & H2 & _ & _ & H3).
  - apply plainClasses_sample.
  - intros id so. unfold MoreSamples.atStart. cbn [objectsData].
    rewrite !lookup_insert_Some, lookup_empty.
    intros [[_ <-] | [_ [[_ <-] | [_ H]]]]; [done|done|discriminate H].
  - split; [apply NoDup_singleton|]. split; [|apply NoDup_singleton].
    repeat constructor.
  - reflexivity.
  - apply NoDup_cons. split; [|apply NoDup_singleton].
    intros H. apply list_elem_of_singleton in H. discriminate H.
  - intros id. unfold MoreSamples.atStart. cbn [objectsData].
    rewrite !lookup_insert_is_Some, lookup_empty, !elem_of_cons, elem_of_nil.
    split.
    + intros [-> | [-> | []]]; [by left|right]. split; [done|by left].
    + intros [<- | [_ [<- | [_ H]]]]; [by left|right; by left|by destruct H].
  - intros id so. unfold MoreSamples.atStart. cbn [objectsData].
    rewrite !lookup_insert_Some, lookup_empty.
    intros [[_ <-] | [_ [[_ <-] | [_ H]]]]; [done|done|discriminate H].
  - intros id Hid Hin. unfold MoreSamples.atStart in Hin.
    cbn [meshes fmap list_fmap name] in Hin.
    apply list_elem_of_singleton in Hin. injection Hin as ->.
    rewrite !elem_of_cons, elem_of_nil in Hid.
    destruct Hid as [H | [H | []]]; discriminate H.
  - exists w'. split; [exact H1|]. split.
    + rewrite H2. vm_compute. reflexivity.
    + rewrite H3. vm_compute. reflexivity.
Defined.

End EditorMore.
(** ** The brushes of the editor *)

Module BrushMore.
Import Babylon Js Editor EditorProps Brush.

(** *** Counting the cells *)







(** *** A batch of cells *)






(** *** The box of the last selection *)







(** *** Drawing pixels *)

Lemma moves_spec hovers d :
  let d' := fold_left (fun d hv => draw_onMove hv d) hovers d in
  selectedPixel d' = selectedPixel d
  /\ pending (editorHistory d')
     = pending (editorHistory d)
       ++ ((fun hv => SetPixelAction (vx hv) (vz hv) (selectedPixel d)) <$> hovers)
  /\ undone (editorHistory d') = undone (editorHistory d)
  /\ cursor_alpha d' = cursor_alpha d
  /\ scaling (lastSelection d') = scaling (lastSelection d)
  /\ position (lastSelection d')
     = match last hovers with
       | Some hv => add hv half
       | None => position (lastSelection d)
       end.
Proof.
  revert d. induction hovers as [|hv hovers IH]; intros d.
  - cbn. by rewrite app_nil_r.
  - cbn [fold_left]. destruct (IH (draw_onMove hv d)) as (E1 & E2 & E3 & E4 & E5 & E6).
    cbv zeta. rewrite E1, E2, E3, E4, E5, E6.
    cbn [draw_onMove selectedPixel editorHistory push pending undone cursor_alpha
         lastSelection scaling position].
    rewrite <- app_assoc.
    split; [done|]. split; [done|]. split; [done|]. split; [done|]. split; [done|].
    rewrite last_cons. by destruct (last hovers).
Qed.

(** X20.  A drag with ctrl on the panel of brushes is one batch to undo,
    with one cell for the place where the mouse went down and one for every
    move, in that order.  All of them are set to the pixel fixed when the
    mouse went down: its height is the [y] hovered over there plus the
    height selection, also for the cells that are hovered over later at
    another [y].  At the end the cursor is shown again and the box of the
    last selection is the last cell of the stroke. *)
Theorem stroke_is_one_flat_batch t_ h_ getPixel_t hover hovers d :
  pending (editorHistory d) = [] ->
  let pixel := {| t := strokeTile t_ (getPixel_t (vx hover) (vz hover));
                  h := strokeHeight (vy hover) h_ |} in
  let d' := stroke t_ h_ getPixel_t hover hovers d in
  editorHistory d'
  = {| pending := [];
       undone := ((fun hv => SetPixelAction (vx hv) (vz hv) pixel) <$> hover :: hovers)
                 :: undone (editorHistory d);
       redone := [] |}
  /\ selectedPixel d' = pixel
  /\ cursor_alpha d' = 1
  /\ lastSelection d'
     = {| scaling := Vec3 1 1 1; position := add (default hover (last hovers)) half |}.
Proof.
  intros He pixel d'. unfold d', stroke.
  destruct (moves_spec hovers (draw_onDown t_ h_ getPixel_t hover d))
    as (E1 & E2 & E3 & E4 & E5 & E6).
  cbv zeta in *.
  set (dm := fold_left _ hovers _) in *.
  cbn [draw_onDown selectedPixel editorHistory push pending undone cursor_alpha
       lastSelection scaling position] in *.
  fold pixel in E1, E2. rewrite He in E2. cbn [app] in E2.
  split; [|split; [done|split; [done|]]].
  - cbn [draw_onUp editorHistory]. unfold commit. rewrite E2, E3. done.
  - cbn [draw_onUp lastSelection]. destruct (lastSelection dm) as [p s].
    cbn [scaling position] in *. rewrite E5, E6. by destruct (last hovers).
Qed.

Lemma stroke_is_one_flat_batch_witness :
  undone (editorHistory (stroke "2" "+1" (fun _ _ => JNum 0) (Vec3 1 3 1)
                           [Vec3 2 0 1] MoreSamples.blank))
  = [[SetPixelAction 1 1 {| t := JNum 2; h := JNum 4 |};
      SetPixelAction 2 1 {| t := JNum 2; h := JNum 4 |}]].
Proof.
  destruct (stroke_is_one_flat_batch "2" "+1" (fun _ _ => JNum 0) (Vec3 1 3 1)
              [Vec3 2 0 1] MoreSamples.blank) as (H & _).
  - reflexivity.
  - rewrite H. vm_compute. reflexivity.
Defined.

End BrushMore.
(** ** Dragging *)

Module DragMore.
Import Dragable.

Lemma dragRun_app {Evt : Type} (a : Args Evt) es es' s :
  dragRun a (es ++ es') s = dragRun a es' (dragRun a es s).
Proof. unfold dragRun. apply fold_left_app. Qed.

Lemma dragRun_cons {Evt : Type} (a : Args Evt) e es s :
  dragRun a (e :: es) s = dragRun a es (dispatch a s e).
Proof. done. Qed.

Lemma lastOther_snoc {Evt : Type} (calls : list (Call Evt)) c :
  lastOther (calls ++ [c]) = if isMove c then lastOther calls else Some c.
Proof.
  unfold lastOther. rewrite List.filter_app. cbn [List.filter].
  destruct (isMove c); cbn [negb].
  - by rewrite app_nil_r.
  - by rewrite last_snoc.
Qed.

Lemma bracketed_snoc {Evt : Type} (calls : list (Call Evt)) c :
  bracketed calls ->
  (isDown c = false -> exists evt, lastOther calls = Some (OnDown evt)) ->
  bracketed (calls ++ [c]).
Proof.
  intros Hb Hc pre c' post E Hd.
  destruct post as [|c'' post _] using rev_ind.
  - apply app_inj_tail in E as [-> ->]. by apply Hc.
  - rewrite app_comm_cons, app_assoc in E. apply app_inj_tail in E as [-> _].
    by eapply Hb.
Qed.

Lemma dispatch_invariant {Evt : Type} (a : Args Evt) s e :
  dragging s -> bracketed (snd s) ->
  dragging (dispatch a s e) /\ bracketed (snd (dispatch a s e)).
Proof.
  destruct s as [[oe ow] tr]. unfold dragging. cbn [fst snd onWindow onElem].
  intros Hd Hb.
  destruct e as [evt|evt|evt|]; cbn [dispatch fst snd onWindow onElem].
  - destruct oe; [|done]. unfold handleMouseDown.
    destruct (accepted a evt); cbn [fst snd onWindow onElem]; [|done].
    split.
    + intros _. exists evt. by rewrite lastOther_snoc.
    + by apply bracketed_snoc.
  - destruct ow; [|done]. unfold handleMouseMove.
    destruct (hasOnMove a); cbn [fst snd onWindow onElem]; [|done].
    split.
    + intros _. rewrite lastOther_snoc. by apply Hd.
    + apply bracketed_snoc; [done|]. intros _. by apply Hd.
  - destruct ow; [|done]. unfold handleMouseUp.
    destruct (hasOnUp a); cbn [fst snd onWindow onElem]; [|done].
    split; [done|].
    apply bracketed_snoc; [done|]. intros _. by apply Hd.
  - done.
Qed.

Lemma dragRun_invariant {Evt : Type} (a : Args Evt) es s :
  dragging s -> bracketed (snd s) ->
  dragging (dragRun a es s) /\ bracketed (snd (dragRun a es s)).
Proof.
  revert s. induction es as [|e es IH]; intros s Hd Hb; [done|].
  cbn [dragRun fold_left]. destruct (dispatch_invariant a s e Hd Hb).
  by apply IH.
Qed.

(** The calls are made with the events, in their order, and each of them
    is allowed. *)
Lemma dragRun_calls {Evt : Type} (a : Args Evt) es s :
  exists calls, snd (dragRun a es s) = snd s ++ calls
    /\ callEvent <$> calls `sublist_of` omap pageEvent es
    /\ Forall (allowed a) calls.
Proof.
  revert s. induction es as [|e es IH]; intros s.
  - exists []. by rewrite app_nil_r.
  - rewrite dragRun_cons. destruct (IH (dispatch a s e)) as (calls & E & Hsub & Hacc).
    rewrite E. clear E IH.
    assert (Hstep : (snd (dispatch a s e) = snd s)
              \/ exists c, snd (dispatch a s e) = snd s ++ [c]
                   /\ pageEvent e = Some (callEvent c) /\ allowed a c).
    { destruct s as [[oe ow] tr].
      destruct e as [evt|evt|evt|]; cbn [dispatch fst snd onWindow onElem].
      - destruct oe; [|by left]. unfold handleMouseDown.
        destruct (accepted a evt) eqn:Ha; [right|by left]. by exists (OnDown evt).
      - destruct ow; [|by left]. unfold handleMouseMove.
        destruct (hasOnMove a) eqn:Ha; [right|by left]. by exists (OnMove evt).
      - destruct ow; [|by left]. unfold handleMouseUp.
        destruct (hasOnUp a) eqn:Ha; [right|by left]. by exists (OnUp evt).
      - by left. }
    destruct Hstep as [-> | (c & -> & He & Hc)].
    + exists calls. split; [done|]. split; [|done].
      cbn [omap list_omap]. destruct (pageEvent e); [by apply sublist_cons|done].
    + exists (c :: calls). rewrite <- app_assoc. split; [done|]. split.
      * cbn [omap list_omap]. rewrite He, fmap_cons. by apply sublist_skip.
      * by constructor.
Qed.

(** X21.  Whatever happens on the page after [attachDragable], the
    callbacks are called in brackets: every call of [onMove] or [onUp] comes
    after a call of [onDown] with nothing but moves between the two, so a
    move or an end is never reported outside a drag, and [onUp] at most once
    for a drag.  The calls are made with the events of the page, in their
    order; [onDown] is called only with an event that the filter accepts,
    and a callback that was left out is not called. *)
Theorem drag_calls_are_bracketed {Evt : Type} (a : Args Evt) (es : list (PageEvent Evt)) :
  let calls := snd (dragRun a es attachDragable) in
  bracketed calls
  /\ callEvent <$> calls `sublist_of` omap pageEvent es
  /\ Forall (allowed a) calls.
Proof.
  intros calls. split.
  - apply dragRun_invariant; [done|].
    intros pre c post E. by destruct pre.
  - destruct (dragRun_calls a es attachDragable) as (calls' & E & H).
    unfold calls. by rewrite E.
Qed.

Lemma detached_idle {Evt : Type} (a : Args Evt) es s :
  (onElem (fst s) = false -> onWindow (fst s) = false) ->
  onElem (fst (dragRun a es s)) = false -> onWindow (fst (dragRun a es s)) = false.
Proof.
  revert s. induction es as [|e es IH]; intros s Hs; [done|].
  rewrite dragRun_cons. apply IH. destruct s as [[oe ow] tr].
  cbn [fst snd onElem onWindow] in *.
  destruct e as [evt|evt|evt|]; cbn [dispatch fst snd onWindow onElem].
  - destruct oe; [|done]. unfold handleMouseDown. by destruct (accepted a evt).
  - destruct ow; [|done]. unfold handleMouseMove. by destruct (hasOnMove a).
  - destruct ow; [|done]. unfold handleMouseUp. by destruct (hasOnUp a).
  - done.
Qed.

(** After the function returned was called, nothing is called any more. *)
Lemma detached_silent {Evt : Type} (a : Args Evt) es s :
  onElem (fst s) = false -> onWindow (fst s) = false ->
  dragRun a es s = (fst (dragRun a es s), snd s)
  /\ onElem (fst (dragRun a es s)) = false
  /\ onWindow (fst (dragRun a es s)) = false.
Proof.
  revert s. induction es as [|e es IH]; intros [[oe ow] tr] He Hw;
    cbn [fst snd onElem onWindow] in *; subst.
  - done.
  - rewrite dragRun_cons.
    assert (E : dispatch a ({| onElem := false; onWindow := false |}, tr) e
                = ({| onElem := false; onWindow := false |}, tr)).
    { by destruct e. }
    rewrite E. by apply IH.
Qed.

(** X22.  After the function that [attachDragable] returns has been
    called between two events of the page (from outside the callbacks), no
    callback is called any more, whatever happens on the page, also when it
    is called in the middle of a drag. *)
Theorem nothing_called_after_detach {Evt : Type} (a : Args Evt) (es es' : list (PageEvent Evt)) :
  snd (dragRun a (es ++ Detach :: es') attachDragable)
  = snd (dragRun a es attachDragable).
Proof.
  rewrite dragRun_app, dragRun_cons.
  destruct (detached_silent a es' (dispatch a (dragRun a es attachDragable) Detach))
    as (E & _); [done|done|].
  by rewrite E.
Qed.


(** A mousedown that is not accepted ends the drag: nothing is called
    until the next mousedown. *)
Lemma idle_silent {Evt : Type} (a : Args Evt) es s :
  onWindow (fst s) = false -> forallb (fun e => negb (isMouseDown e)) es = true ->
  snd (dragRun a es s) = snd s /\ onWindow (fst (dragRun a es s)) = false.
Proof.
  revert s. induction es as [|e es IH]; intros [[oe ow] tr] Hw Hes;
    cbn [fst snd onElem onWindow] in *; subst; [done|].
  cbn [forallb] in Hes. apply andb_true_iff in Hes as [He Hes].
  rewrite dragRun_cons.
  destruct e as [evt|evt|evt|]; [done| | |]; cbn [dispatch fst snd onWindow onElem];
    by apply IH.
Qed.

(** X23.  A mousedown that the filter does not accept ends a drag that is
    going on, without a call of [onUp]: the listeners of the window are
    taken off before the filter is asked, so the moves and the mouseup that
    follow are not reported, until the next mousedown. *)
Theorem rejected_mousedown_ends_drag {Evt : Type} (a : Args Evt) (es es' : list (PageEvent Evt))
    (evt : Evt) :
  accepted a evt = false ->
  forallb (fun e => negb (isMouseDown e)) es' = true ->
  snd (dragRun a (es ++ MouseDown evt :: es') attachDragable)
  = snd (dragRun a es attachDragable).
Proof.
  intros Hacc Hes. rewrite dragRun_app, dragRun_cons.
  set (s := dragRun a es attachDragable).
  destruct (onElem (fst s)) eqn:E.
  - destruct (idle_silent a es' (dispatch a s (MouseDown evt))) as [-> _]; try done.
    + cbn [dispatch]. rewrite E. unfold handleMouseDown. by rewrite Hacc.
    + cbn [dispatch]. rewrite E. unfold handleMouseDown. by rewrite Hacc.
  - cbn [dispatch]. rewrite E.
    apply idle_silent; [|done]. by apply detached_idle.
Qed.

Lemma rejected_mousedown_ends_drag_witness :
  snd (dragRun MoreSamples.withShift
         ([MouseDown true; MouseMove true]
          ++ MouseDown false :: [MouseMove false; MouseUp false])
         attachDragable)
  = [OnDown true; OnMove true].
Proof.
  rewrite (rejected_mousedown_ends_drag MoreSamples.withShift
             [MouseDown true; MouseMove true] [MouseMove false; MouseUp false] false).
  - reflexivity.
  - reflexivity.
  - reflexivity.
Defined.

End DragMore.
(** ** The names of the classes of a state *)

Module NamesMore.
Import Names.

Lemma string_pair_ind (P : string -> Prop) :
  P EmptyString -> (forall a, P (String a EmptyString)) ->
  (forall a b rest, P rest -> P (String b rest) -> P (String a (String b rest))) ->
  forall s, P s.
Proof.
  intros H0 H1 H2 s.
  assert (H : P s /\ forall a, P (String a s)); [|by destruct H].
  induction s as [|b rest [IH1 IH2]]; [by split|].
  split; [apply IH2|]. intros a. by apply H2.
Qed.

Lemma upper_facts b :
  isUpper b = true ->
  Ascii.eqb b "-" = false /\ Ascii.eqb (toLowerCase b) "-" = false
  /\ toLowerCase (toLowerCase b) = toLowerCase b /\ isLower b = false.
Proof.
  destruct b as [[] [] [] [] [] [] [] []]; vm_compute; intros H;
    try discriminate H; repeat split.
Qed.

Lemma lower_facts a :
  isLower a = true -> Ascii.eqb a "-" = false /\ toLowerCase a = a.
Proof.
  destruct a as [[] [] [] [] [] [] [] []]; vm_compute; intros H;
    try discriminate H; repeat split.
Qed.

Lemma camelCaseToHyphen_hump a b rest :
  isLower a && isUpper b = true ->
  camelCaseToHyphen (String a (String b rest))
  = String a (String "-" (String (toLowerCase b) (camelCaseToHyphen rest))).
Proof. intros H. cbn [camelCaseToHyphen]. by rewrite H. Qed.

Lemma camelCaseToHyphen_flat a b rest :
  isLower a && isUpper b = false ->
  camelCaseToHyphen (String a (String b rest))
  = String a (camelCaseToHyphen (String b rest)).
Proof. intros H. cbn [camelCaseToHyphen]. by rewrite H. Qed.

Lemma humps_upper b rest : isLower b = false -> humps (String b rest) = humps rest.
Proof. intros H. destruct rest as [|c rest]; cbn [humps]; [done|]. by rewrite H. Qed.

Lemma humps_pair a b rest :
  humps (String a (String b rest))
  = ((if isLower a && isUpper b then 1 else 0) + humps (String b rest))%nat.
Proof. done. Qed.

Lemma noHump_pair a b rest :
  noHump (String a (String b rest))
  = negb (isLower a && isUpper b) && noHump (String b rest).
Proof. done. Qed.

(** X24.  [camelCaseToHyphen] only puts hyphens in and makes capital
    letters small: read without hyphens and without case, the result is the
    string given.  Every capital letter that comes right after a small one
    gets its hyphen (the matches never overlap, so none is skipped): the
    result is longer by their number.  A string without such a place, like
    the names of the states of the game, is left as it is. *)
Theorem camel_case_gets_hyphens (str : string) :
  (noHump str = true -> camelCaseToHyphen str = str)
  /\ squash (camelCaseToHyphen str) = squash str
  /\ String.length (camelCaseToHyphen str) = (String.length str + humps str)%nat.
Proof.
  induction str as [|a|a b rest (I1 & I2 & I3) (J1 & J2 & J3)] using string_pair_ind;
    [done|done|].
  destruct (isLower a && isUpper b) eqn:E.
  - rewrite (camelCaseToHyphen_hump _ _ _ E).
    apply andb_true_iff in E as [Ea Eb].
    destruct (upper_facts b Eb) as (B1 & B2 & B3 & B4).
    destruct (lower_facts a Ea) as (A1 & A2).
    split; [|split].
    + rewrite noHump_pair. by rewrite Ea, Eb.
    + cbn [squash]. rewrite A1, B1, B2, B3, I2. cbn. done.
    + cbn [String.length]. rewrite I3, humps_pair, Ea, Eb.
      rewrite (humps_upper _ _ B4). cbn. lia.
  - rewrite (camelCaseToHyphen_flat _ _ _ E). split; [|split].
    + rewrite noHump_pair, E. cbn [negb andb]. intros H. by rewrite J1.
    + cbn [squash]. by rewrite J2.
    + cbn [String.length]. rewrite J3, humps_pair, E.
      cbn [String.length]. lia.
Qed.

End NamesMore.
(** ** Before every frame *)

Module FrameMore.
Import Babylon Js Frame.

Lemma lt_true a b : lt a b = true <-> a < b.
Proof.
  unfold lt. rewrite negb_true_iff. split.
  - intros H. apply Qnot_le_lt. intros Hle. apply Qle_bool_iff in Hle. congruence.
  - intros H. destruct (Qle_bool b a) eqn:E; [|done].
    apply Qle_bool_iff in E. lra.
Qed.

Lemma lt_false a b : lt a b = false <-> b <= a.
Proof.
  unfold lt. rewrite negb_false_iff. apply Qle_bool_iff.
Qed.

Lemma easeUp_held limit x : easeUp limit true x = x.
Proof. unfold easeUp. by rewrite andb_false_r. Qed.

Lemma easeDown_held limit x : easeDown limit true x = x.
Proof. unfold easeDown. by rewrite andb_false_r. Qed.

Lemma easeUp_far limit x :
  x < limit - (1#1000) ->
  easeUp limit false x = x * (9#10) + limit * (1#10).
Proof. intros H. unfold easeUp. by rewrite (proj2 (lt_true _ _) H). Qed.

Lemma easeUp_near limit x : limit - (1#1000) <= x -> easeUp limit false x = x.
Proof. intros H. unfold easeUp. by rewrite (proj2 (lt_false _ _) H). Qed.

Lemma easeDown_far limit x :
  limit + (1#1000) < x ->
  easeDown limit false x = x * (9#10) + limit * (1#10).
Proof. intros H. unfold easeDown. by rewrite (proj2 (lt_true _ _) H). Qed.

Lemma easeDown_near limit x : x <= limit + (1#1000) -> easeDown limit false x = x.
Proof. intros H. unfold easeDown. by rewrite (proj2 (lt_false _ _) H). Qed.

(** Frame after frame, from below: the value grows, stays below the limit,
    and gains a ten-thousandth in every frame until it is near. *)
Lemma easeUp_frames limit (n : nat) x :
  x < limit ->
  let y := Nat.iter n (easeUp limit false) x in
  x <= y /\ y < limit
  /\ (limit - (1#1000) - x <= inject_Z (Z.of_nat n) * (1#10000) ->
      limit - (1#1000) <= y).
Proof.
  revert x. induction n as [|n IH]; intros x Hx.
  - change (inject_Z (Z.of_nat 0)) with 0. cbn. split; [lra|]. split; [done|]. lra.
  - rewrite Nat.iter_succ_r. cbv zeta.
    rewrite Nat2Z.inj_succ. unfold Z.succ. rewrite inject_Z_plus.
    change (inject_Z 1) with 1.
    destruct (Qlt_le_dec x (limit - (1#1000))) as [Hfar|Hnear].
    + rewrite (easeUp_far _ _ Hfar).
      destruct (IH (x * (9#10) + limit * (1#10))) as (H1 & H2 & H3); [lra|].
      split; [lra|]. split; [done|]. intros Hn. apply H3. lra.
    + rewrite (easeUp_near _ _ Hnear).
      destruct (IH x Hx) as (H1 & H2 & H3).
      split; [done|]. split; [done|]. intros _. lra.
Qed.

Lemma easeDown_frames limit (n : nat) x :
  limit < x ->
  let y := Nat.iter n (easeDown limit false) x in
  y <= x /\ limit < y
  /\ (x - (limit + (1#1000)) <= inject_Z (Z.of_nat n) * (1#10000) ->
      y <= limit + (1#1000)).
Proof.
  revert x. induction n as [|n IH]; intros x Hx.
  - change (inject_Z (Z.of_nat 0)) with 0. cbn. split; [lra|]. split; [done|]. lra.
  - rewrite Nat.iter_succ_r. cbv zeta.
    rewrite Nat2Z.inj_succ. unfold Z.succ. rewrite inject_Z_plus.
    change (inject_Z 1) with 1.
    destruct (Qlt_le_dec (limit + (1#1000)) x) as [Hfar|Hnear].
    + rewrite (easeDown_far _ _ Hfar).
      destruct (IH (x * (9#10) + limit * (1#10))) as (H1 & H2 & H3); [lra|].
      split; [lra|]. split; [done|]. intros Hn. apply H3. lra.
    + rewrite (easeDown_near _ _ Hnear).
      destruct (IH x Hx) as (H1 & H2 & H3).
      split; [done|]. split; [done|]. intros _. lra.
Qed.

Lemma playFrame_frames minBeta isKeyDown (n : nat) camera :
  Nat.iter n (playFrame minBeta isKeyDown) camera
  = {| beta := Nat.iter n (easeUp minBeta isKeyDown) (beta camera);
       radius := Nat.iter n (easeDown maxRadius isKeyDown) (radius camera) |}.
Proof.
  induction n as [|n IH]; [by destruct camera|].
  by rewrite !Nat.iter_succ, IH.
Qed.

(** X25.  Before the frames of the panel [play], a camera that looks from
    below the least angle, or from further than 40, is eased towards that
    limit without ever crossing it: in a frame nine tenths of the gap are
    left, so frame after frame the angle grows and stays below the limit,
    and the radius shrinks and stays above 40.  It gets there: every frame
    gains at least a ten-thousandth, so after that many frames the camera
    is within a thousandth of the limit, where it then stays.  While the
    mouse is down on the cursor nothing changes. *)
Theorem camera_eases_without_crossing (minBeta : Q) (camera : Camera) (n : nat) :
  let later := Nat.iter n (playFrame minBeta false) camera in
  Nat.iter n (playFrame minBeta true) camera = camera
  /\ (beta camera < minBeta - (1#1000) ->
      minBeta - beta (playFrame minBeta false camera)
      == (9#10) * (minBeta - beta camera))
  /\ (maxRadius + (1#1000) < radius camera ->
      radius (playFrame minBeta false camera) - maxRadius
      == (9#10) * (radius camera - maxRadius))
  /\ (beta camera < minBeta ->
      beta camera <= beta later /\ beta later < minBeta
      /\ (minBeta - (1#1000) - beta camera <= inject_Z (Z.of_nat n) * (1#10000) ->
          minBeta - (1#1000) <= beta later))
  /\ (maxRadius < radius camera ->
      radius later <= radius camera /\ maxRadius < radius later
      /\ (radius camera - (maxRadius + (1#1000))
            <= inject_Z (Z.of_nat n) * (1#10000) ->
          radius later <= maxRadius + (1#1000)))
  /\ (minBeta <= beta camera -> beta later = beta camera)
  /\ (radius camera <= maxRadius -> radius later = radius camera).
Proof.
  intros later. unfold later. rewrite !playFrame_frames. cbn [beta radius].
  split; [|split; [|split; [|split; [|split; [|split]]]]].
  - destruct camera as [b r]. cbn [beta radius]. f_equal.
    + clear. induction n as [|n IH]; [done|].
      by rewrite Nat.iter_succ, IH, easeUp_held.
    + clear. induction n as [|n IH]; [done|].
      by rewrite Nat.iter_succ, IH, easeDown_held.
  - intros H. unfold playFrame. cbn [beta radius].
    rewrite (easeUp_far _ _ H). ring.
  - intros H. unfold playFrame. cbn [beta radius].
    rewrite (easeDown_far _ _ H). ring.
  - intros H. by apply easeUp_frames.
  - intros H. by apply easeDown_frames.
  - intros H. clear later. induction n as [|n IH]; [done|].
    rewrite Nat.iter_succ, IH. apply easeUp_near. lra.
  - intros H. clear later. induction n as [|n IH]; [done|].
    rewrite Nat.iter_succ, IH. apply easeDown_near. lra.
Qed.

Ltac halves := unfold over, Qdiv in *; change (/ 2) with (1 # 2) in *.

Lemma recenter_over x g s p : over x s p -> recenter x g s p = p.
Proof.
  intros [H1 H2]. unfold recenter.
  apply lt_false in H1. rewrite H1. apply lt_false in H2. by rewrite H2.
Qed.

Lemma recenter_below x g s p :
  0 < g -> g <= s -> x < p - s / 2 ->
  recenter x g s p = p - g /\ x <= p - g + s / 2.
Proof.
  intros Hg Hs H. unfold recenter.
  assert (H2 : x <= p - g + s / 2) by (halves; lra).
  rewrite (proj2 (lt_true _ _) H), (proj2 (lt_false _ _) H2). done.
Qed.

Lemma recenter_above x g s p :
  0 < g -> g <= s -> p + s / 2 < x ->
  recenter x g s p = p + g /\ p + g - s / 2 <= x.
Proof.
  intros Hg Hs H. unfold recenter.
  assert (H1 : p - s / 2 <= x) by (halves; lra).
  rewrite (proj2 (lt_false _ _) H1), (proj2 (lt_true _ _) H).
  split; [done|]. halves; lra.
Qed.

Lemma Qabs_le_both a b : Qabs a <= b <-> - b <= a /\ a <= b.
Proof. apply Qabs_Qle_condition. Qed.

Lemma recenter_reaches x g s (n : nat) p :
  0 < g -> g <= s ->
  Qabs (x - p) - s / 2 <= inject_Z (Z.of_nat n) * g ->
  over x s (Nat.iter n (recenter x g s) p).
Proof.
  intros Hg Hs.
  assert (Hfix : forall k q, over x s q -> Nat.iter k (recenter x g s) q = q).
  { induction k as [|k IH]; intros q Hq; [done|].
    rewrite Nat.iter_succ, IH by done. by apply recenter_over. }
  revert p. induction n as [|n IH]; intros p Hd.
  - change (inject_Z (Z.of_nat 0)) with 0 in Hd.
    change (Nat.iter 0 (recenter x g s) p) with p.
    assert (Hd' : Qabs (x - p) <= s / 2) by (halves; lra).
    apply Qabs_le_both in Hd' as [H1 H2]. halves. split; lra.
  - rewrite Nat.iter_succ_r.
    rewrite Nat2Z.inj_succ in Hd. unfold Z.succ in Hd. rewrite inject_Z_plus in Hd.
    change (inject_Z 1) with 1 in Hd.
    assert (Hd' : Qabs (x - p) <= inject_Z (Z.of_nat n) * g + g + s / 2)
      by (halves; lra).
    apply Qabs_le_both in Hd' as [H1 H2].
    assert (Hn : 0 <= inject_Z (Z.of_nat n) * g).
    { apply Qmult_le_0_compat; [|lra]. change 0 with (inject_Z 0).
      rewrite <- Zle_Qle. lia. }
    destruct (Qlt_le_dec x (p - s / 2)) as [Hlo|Hlo].
    + destruct (recenter_below x g s p Hg Hs Hlo) as [-> Hnear]. apply IH.
      assert (Hgoal : Qabs (x - (p - g)) <= inject_Z (Z.of_nat n) * g + s / 2);
        [|halves; lra].
      apply Qabs_le_both. halves. split; lra.
    + destruct (Qlt_le_dec (p + s / 2) x) as [Hhi|Hhi].
      * destruct (recenter_above x g s p Hg Hs Hhi) as [-> Hnear]. apply IH.
        assert (Hgoal : Qabs (x - (p + g)) <= inject_Z (Z.of_nat n) * g + s / 2);
          [|halves; lra].
        apply Qabs_le_both. halves. split; lra.
      * rewrite recenter_over by done. by rewrite Hfix.
Qed.

(** X26.  While the cursor is shown, the grid follows it by one chunk in a
    frame, along [x] and along [z]: a grid that is already under the point
    hovered over stays, and one that is not moves by the size of a chunk
    towards it.  With a grid at least as wide as a chunk it never jumps over
    the point (the second test reads the position the first has written, and
    does not move it back), so that after as many frames as the point is
    chunks away the grid is under it in both directions.  While the cursor
    is hidden the grid stays. *)
Theorem grid_follows_cursor (hover : Vector3) (g : Q) (grid : Grid) (n : nat) :
  0 < g -> g <= vx (scaling grid) -> g <= vz (scaling grid) ->
  let p := position grid in
  let s := scaling grid in
  let grid' := gridFrame true hover g grid in
  (forall k, Nat.iter k (gridFrame false hover g) grid = grid)
  /\ scaling grid' = s
  /\ (over (vx hover) (vx s) (vx p) -> vx (position grid') = vx p)
  /\ (vx hover < vx p - vx s / 2 ->
      vx (position grid') = vx p - g /\ vx hover <= vx (position grid') + vx s / 2)
  /\ (vx p + vx s / 2 < vx hover ->
      vx (position grid') = vx p + g /\ vx (position grid') - vx s / 2 <= vx hover)
  /\ (Qabs (vx hover - vx p) - vx s / 2 <= inject_Z (Z.of_nat n) * g ->
      Qabs (vz hover - vz p) - vz s / 2 <= inject_Z (Z.of_nat n) * g ->
      let later := Nat.iter n (gridFrame true hover g) grid in
      over (vx hover) (vx s) (vx (position later))
      /\ over (vz hover) (vz s) (vz (position later))).
Proof.
  intros Hg Hx Hz p s grid'.
  split; [|split; [done|split; [|split; [|split]]]].
  - induction k as [|k IH]; [done|]. by rewrite Nat.iter_succ, IH.
  - intros H. unfold grid', gridFrame. cbn [position vx]. by apply recenter_over.
  - intros H. unfold grid', gridFrame. cbn [position vx]. fold p s.
    destruct (recenter_below _ g _ _ Hg Hx H) as [E ?]. fold s in E. by rewrite E.
  - intros H. unfold grid', gridFrame. cbn [position vx]. fold p s.
    destruct (recenter_above _ g _ _ Hg Hx H) as [E ?]. fold s in E. by rewrite E.
  - intros H1 H2 later.
    assert (E : later = {| position := Vec3 (Nat.iter n (recenter (vx hover) g (vx s)) (vx p))
                                            (vy p)
                                            (Nat.iter n (recenter (vz hover) g (vz s)) (vz p));
                           scaling := s |}).
    { unfold later. clear. induction n as [|n IH].
      - unfold p, s. by destruct grid as [[] ?].
      - rewrite !Nat.iter_succ, IH. done. }
    rewrite E. cbn [position vx vz]. split; by apply recenter_reaches.
Qed.

Lemma grid_follows_cursor_witness :
  over 40 32 (vx (position (Nat.iter 2 (gridFrame true (Vec3 40 0 (-20)) 16)
                              MoreSamples.grid)))
  /\ over (-20) 32 (vz (position (Nat.iter 2 (gridFrame true (Vec3 40 0 (-20)) 16)
                                    MoreSamples.grid))).
Proof.
  destruct (grid_follows_cursor (Vec3 40 0 (-20)) 16 MoreSamples.grid 2)
    as (_ & _ & _ & _ & _ & H).
  - reflexivity.
  - vm_compute. discriminate.
  - vm_compute. discriminate.
  - apply H; vm_compute; discriminate.
Defined.

(** *** The buttons that turn the camera *)









End FrameMore.
(** ** The menus *)

Module MenuMore.
Import Menu.

(** *** Finding the first *)

Lemma findIndex_Some {A} (f : A -> bool) xs i :
  findIndex f xs = Some i <->
  (exists x, xs !! i = Some x /\ f x = true)
  /\ (forall j y, (j < i)%nat -> xs !! j = Some y -> f y = false).
Proof.
  revert i. induction xs as [|x xs IH]; intros i; cbn [findIndex].
  - split; [done|]. intros [(y & Hy & _) _]. done.
  - destruct (f x) eqn:E.
    + split.
      * intros [= <-]. split; [by exists x|]. intros j y Hj. lia.
      * intros [(y & Hy & Hfy) Hbefore]. destruct i as [|i]; [done|].
        specialize (Hbefore O x). cbn in Hbefore. rewrite Hbefore in E; [done|lia|done].
    + split.
      * intros H. apply fmap_Some in H as (i' & Hi' & ->).
        apply IH in Hi' as [(y & Hy & Hfy) Hbefore]. split; [by exists y|].
        intros [|j] z Hj Hz.
        -- cbn in Hz. congruence.
        -- apply (Hbefore j); [lia|done].
      * intros [(y & Hy & Hfy) Hbefore]. destruct i as [|i].
        -- cbn in Hy. congruence.
        -- assert (Hi : findIndex f xs = Some i).
           { apply IH. split; [by exists y|]. intros j z Hj Hz.
             apply (Hbefore (S j)); [lia|done]. }
           by rewrite Hi.
Qed.

Lemma findIndex_None {A} (f : A -> bool) xs :
  findIndex f xs = None <-> Forall (fun x => f x = false) xs.
Proof.
  induction xs as [|x xs IH]; cbn [findIndex].
  - split; [constructor|done].
  - destruct (f x) eqn:E.
    + split; [done|]. intros H. apply Forall_cons in H as [H _]. congruence.
    + rewrite fmap_None, IH. split.
      * intros H. by constructor.
      * intros H. by apply Forall_cons in H as [_ H].
Qed.

Lemma filter_isShown_none {A} (f : A -> bool) xs :
  Forall (fun x => f x = false) xs <-> List.filter f xs = [].
Proof.
  induction xs as [|x xs IH]; cbn [List.filter]; [split; [done|constructor]|].
  destruct (f x) eqn:E.
  - split; [|done]. intros H. apply Forall_cons in H as [H _]. congruence.
  - rewrite <- IH. split.
    + intros H. by apply Forall_cons in H as [_ H].
    + intros H. by constructor.
Qed.

(** *** The items of a list *)

Lemma setItem_length b i its : length (setItem b i its) = length its.
Proof. unfold setItem. apply length_alter. Qed.

Lemma setItem_lookup b i its j :
  setItem b i its !! j
  = if decide (i = j)
    then (fun it => {| itemActive := b; itemHidden := itemHidden it |}) <$> its !! j
    else its !! j.
Proof.
  unfold setItem. rewrite list_lookup_alter. by destruct (decide (i = j)) as [->|].
Qed.

Lemma visibleFrom_ext off its its' :
  itemHidden <$> its = itemHidden <$> its' -> visibleFrom off its = visibleFrom off its'.
Proof.
  revert off its'. induction its as [|it its IH]; intros off [|it' its'] E; try done.
  rewrite !fmap_cons in E. injection E as E1 E2.
  cbn [visibleFrom]. rewrite E1. f_equal. by apply IH.
Qed.

Lemma setItem_hidden b i its : itemHidden <$> setItem b i its = itemHidden <$> its.
Proof.
  unfold setItem. revert i. induction its as [|it its IH]; intros [|i]; try done.
  cbn. f_equal. apply IH.
Qed.

Lemma visible_setItem b i its : visible (setItem b i its) = visible its.
Proof. apply visibleFrom_ext, setItem_hidden. Qed.

Lemma visibleFrom_bounds off its v :
  v ∈ visibleFrom off its -> (off <= v < off + length its)%nat.
Proof.
  revert off. induction its as [|it its IH]; intros off; cbn [visibleFrom length].
  - intros H. by apply elem_of_nil in H.
  - rewrite elem_of_app. intros [H|H].
    + destruct (itemHidden it); [by apply elem_of_nil in H|].
      apply list_elem_of_singleton in H. lia.
    + apply IH in H. lia.
Qed.

Lemma visibleFrom_NoDup off its : NoDup (visibleFrom off its).
Proof.
  revert off. induction its as [|it its IH]; intros off; cbn [visibleFrom].
  - apply NoDup_nil_2.
  - apply NoDup_app. split; [|split; [|apply IH]].
    + destruct (itemHidden it); [apply NoDup_nil_2|apply NoDup_singleton].
    + intros v Hv Hv'. apply visibleFrom_bounds in Hv'.
      destruct (itemHidden it); [by apply elem_of_nil in Hv|].
      apply list_elem_of_singleton in Hv. lia.
Qed.

(** *** The place of an entry *)

Lemma indexOfNat_ge xs x : (-1 <= indexOfNat xs x < Z.of_nat (length xs))%Z.
Proof.
  induction xs as [|y xs IH]; cbn [indexOfNat length]; [lia|].
  destruct (decide (y = x)); [lia|].
  destruct (indexOfNat xs x); lia.
Qed.

Lemma indexOfNat_found xs x (k : nat) :
  NoDup xs -> xs !! k = Some x -> indexOfNat xs x = Z.of_nat k.
Proof.
  revert k. induction xs as [|y xs IH]; intros k Hnd Hk; [done|].
  apply NoDup_cons in Hnd as [Hy Hnd]. cbn [indexOfNat].
  destruct k as [|k].
  - injection Hk as ->. by rewrite decide_True.
  - cbn in Hk. rewrite decide_False.
    + rewrite (IH k Hnd Hk). destruct (Z.of_nat k) eqn:E; lia.
    + intros ->. apply Hy. by eapply list_elem_of_lookup_2.
Qed.

Lemma indexOfNat_lookup xs x (k : nat) :
  indexOfNat xs x = Z.of_nat k -> xs !! k = Some x.
Proof.
  revert k. induction xs as [|y xs IH]; intros k; cbn [indexOfNat]; [lia|].
  destruct (decide (y = x)) as [->|Hne].
  - intros H. by replace k with O by lia.
  - pose proof (indexOfNat_ge xs x) as Hge.
    destruct (indexOfNat xs x) as [|p|p] eqn:E; intros H.
    + replace k with 1%nat by lia. cbn. by apply (IH O).
    + destruct k as [|k]; [lia|]. cbn. apply IH. lia.
    + lia.
Qed.

(** *** Counting the active items *)

Lemma countActive_none its :
  countActive its = O <-> Forall (fun it => itemActive it = false) its.
Proof.
  unfold countActive. rewrite filter_isShown_none. split.
  - intros H. by apply nil_length_inv.
  - by intros ->.
Qed.

Lemma setItem_false_first its i :
  (countActive its <= 1)%nat -> findIndex itemActive its = Some i ->
  Forall (fun it => itemActive it = false) (setItem false i its).
Proof.
  unfold countActive, setItem. revert i.
  induction its as [|it its IH]; intros i Hc Hi; [done|].
  cbn [findIndex List.filter] in *. destruct (itemActive it) eqn:E.
  - injection Hi as <-. cbn in *. constructor; [done|].
    apply filter_isShown_none. apply nil_length_inv. lia.
  - apply fmap_Some in Hi as (i' & Hi' & ->). cbn. constructor; [done|].
    by apply IH.
Qed.

Lemma setItem_true_only its j :
  Forall (fun it => itemActive it = false) its ->
  (countActive (setItem true j its) <= 1)%nat
  /\ ((j < length its)%nat -> findIndex itemActive (setItem true j its) = Some j).
Proof.
  unfold countActive, setItem. revert j.
  induction its as [|it its IH]; intros j Hall;
    [destruct j; split; cbn; lia|].
  apply Forall_cons in Hall as [Hit Hall]. destruct j as [|j]; cbn.
  - split; [|done]. apply filter_isShown_none in Hall. rewrite Hall. done.
  - rewrite Hit. destruct (IH j Hall) as [H1 H2]. split; [done|].
    intros Hj. rewrite H2; [done|lia].
Qed.

Lemma setItem_false_le its i :
  (countActive (setItem false i its) <= countActive its)%nat.
Proof.
  unfold countActive, setItem. revert i.
  induction its as [|it its IH]; intros [|i]; cbn; try done.
  - destruct (itemActive it); cbn; lia.
  - specialize (IH i). destruct (itemActive it); cbn; lia.
Qed.

(** *** The lists of a page *)

Lemma findIndex_bools {A} (f : A -> bool) xs :
  findIndex f xs = findIndex (fun b : bool => b) (f <$> xs).
Proof. induction xs as [|x xs IH]; [done|]. cbn. by rewrite IH. Qed.

Lemma filter_bools {A} (f : A -> bool) xs :
  length (List.filter f xs) = length (List.filter (fun b : bool => b) (f <$> xs)).
Proof.
  induction xs as [|x xs IH]; [done|]. cbn. destruct (f x); cbn; by rewrite IH.
Qed.

Lemma findIndex_ext {A} (f g : A -> bool) xs :
  (forall x, f x = g x) -> findIndex f xs = findIndex g xs.
Proof. intros H. induction xs as [|x xs IH]; [done|]. cbn. by rewrite H, IH. Qed.

Lemma setItemOf_lookup b li i page lj :
  setItemOf b li i page !! lj
  = if decide (li = lj)
    then (fun l => {| listActive := listActive l; items := setItem b i (items l) |})
           <$> page !! lj
    else page !! lj.
Proof.
  unfold setItemOf. rewrite list_lookup_alter. by destruct (decide (li = lj)) as [->|].
Qed.

Lemma setItemOf_lists b li i page :
  listActive <$> setItemOf b li i page = listActive <$> page.
Proof.
  unfold setItemOf. revert li. induction page as [|l page IH]; intros [|li]; try done.
  cbn. f_equal. apply IH.
Qed.

Lemma activeList_setItemOf b li i page :
  activeList (setItemOf b li i page) = activeList page.
Proof.
  unfold activeList.
  rewrite (findIndex_bools listActive (setItemOf b li i page)).
  rewrite (findIndex_bools listActive page).
  by rewrite setItemOf_lists.
Qed.

Lemma activeLists_setItemOf b li i page :
  length (List.filter listActive (setItemOf b li i page))
  = length (List.filter listActive page).
Proof.
  rewrite (filter_bools listActive (setItemOf b li i page)).
  rewrite (filter_bools listActive page).
  by rewrite setItemOf_lists.
Qed.

Lemma activeItemFrom_none off page :
  Forall (fun l => listActive l = false) page -> activeItemFrom off page = None.
Proof.
  revert off. induction page as [|l page IH]; intros off H; [done|].
  apply Forall_cons in H as [Hl H]. cbn [activeItemFrom]. rewrite Hl. by apply IH.
Qed.

(** With at most one active list, the active item is the first active
    item of that list. *)
Lemma activeItemFrom_single off page la l :
  (length (List.filter listActive page) <= 1)%nat ->
  activeList page = Some la -> page !! la = Some l ->
  activeItemFrom off page = pair (off + la)%nat <$> findIndex itemActive (items l).
Proof.
  unfold activeList. revert off la.
  induction page as [|l0 page IH]; intros off la Hc Hla Hl; [done|].
  cbn [findIndex List.filter activeItemFrom] in *.
  destruct (listActive l0) eqn:E.
  - injection Hla as <-. injection Hl as ->. rewrite Nat.add_0_r.
    destruct (findIndex itemActive (items l)) as [i|]; [done|].
    cbn. apply activeItemFrom_none, filter_isShown_none, nil_length_inv.
    cbn in Hc. lia.
  - apply fmap_Some in Hla as (la' & Hla' & ->). cbn in Hl.
    rewrite (IH (S off) la' Hc Hla' Hl).
    by replace (S off + la')%nat with (off + S la')%nat by lia.
Qed.

Lemma activeItem_single page la l :
  (length (List.filter listActive page) <= 1)%nat ->
  activeList page = Some la -> page !! la = Some l ->
  activeItem page = pair la <$> findIndex itemActive (items l).
Proof. intros. unfold activeItem. by erewrite activeItemFrom_single. Qed.

(** *** The two operations keep a page tidy *)

Lemma one_list_active (page : Page) la x :
  Forall (fun l => listActive l = false) page ->
  (length (List.filter listActive (<[la := x]> page)) <= 1)%nat.
Proof.
  revert la. induction page as [|l page IH]; intros la H;
    [destruct la; cbn; lia|].
  apply Forall_cons in H as [Hl H]. destruct la as [|la]; cbn.
  - apply filter_isShown_none in H. rewrite H. destruct (listActive x); cbn; lia.
  - rewrite Hl. by apply IH.
Qed.

Lemma activate_tidy l s page : tidy page -> tidy (activate l s page).
Proof.
  intros [_ Hitems]. unfold activate.
  set (page0 := (fun l => {| listActive := false; items := items l |}) <$> page).
  assert (Hoff : Forall (fun l => listActive l = false) page0).
  { unfold page0. apply Forall_fmap. by apply Forall_true. }
  assert (Hitems0 : Forall (fun l => (countActive (items l) <= 1)%nat) page0).
  { unfold page0. apply Forall_fmap. eapply Forall_impl; [exact Hitems|]. done. }
  destruct (l ≫= _) as [[la listElem]|] eqn:E.
  - apply bind_Some in E as (la' & -> & E). apply fmap_Some in E as (l' & Hl & [= -> ->]).
    split; [by apply one_list_active|].
    apply Forall_insert; [done|]. cbn [items].
    assert (Hc : (countActive (items l') <= 1)%nat).
    { rewrite Forall_forall in Hitems0. apply Hitems0.
      by eapply list_elem_of_lookup_2. }
    set (its := match findIndex itemActive (items l') with
                | Some i => setItem false i (items l')
                | None => items l'
                end).
    assert (Hnone : Forall (fun it => itemActive it = false) its).
    { unfold its. destruct (findIndex itemActive (items l')) as [i|] eqn:Ef.
      - by apply setItem_false_first.
      - by apply findIndex_None. }
    match goal with
    | |- (countActive (match ?o with Some i => _ | None => _ end) <= 1)%nat =>
      destruct o as [j|]
    end.
    + by apply setItem_true_only.
    + apply countActive_none in Hnone. lia.
  - split; [|done]. apply filter_isShown_none in Hoff. rewrite Hoff. cbn. lia.
Qed.

Lemma countActive_lookup (page : Page) la l :
  Forall (fun l => (countActive (items l) <= 1)%nat) page -> page !! la = Some l ->
  (countActive (items l) <= 1)%nat.
Proof.
  intros H Hl. rewrite Forall_forall in H. apply H. by eapply list_elem_of_lookup_2.
Qed.

Lemma selectNext_tidy d page : tidy page -> tidy (selectNext d page).
Proof.
  intros [Hlists Hitems]. unfold selectNext.
  destruct (activeList page ≫= _) as [[la l]|] eqn:E; [|done].
  apply bind_Some in E as (la' & Hla & E). apply fmap_Some in E as (l' & Hl & [= -> ->]).
  rewrite (activeItem_single page la' l' Hlists Hla Hl).
  pose proof (countActive_lookup page la' l' Hitems Hl) as Hc.
  destruct (findIndex itemActive (items l')) as [ii|] eqn:Ef; cbn [fmap option_fmap option_map].
  - assert (H1 : tidy (setItemOf false la' ii page)).
    { split; [by rewrite activeLists_setItemOf|].
      unfold setItemOf. apply Forall_alter; [done|]. intros x Hx Hcx. cbn [items].
      pose proof (setItem_false_le (items x) ii). lia. }
    match goal with |- tidy (match ?o with Some i => _ | None => _ end) => destruct o as [jj|] end;
      [|done].
    split; [by rewrite !activeLists_setItemOf|].
    unfold setItemOf at 1. apply Forall_alter; [apply H1|].
    intros x Hx _. cbn [items]. rewrite setItemOf_lookup, decide_True, Hl in Hx by done.
    injection Hx as <-. cbn [items].
    apply setItem_true_only. by apply setItem_false_first.
  - match goal with |- tidy (match ?o with Some i => _ | None => _ end) => destruct o as [jj|] end;
      [|done].
    split; [by rewrite activeLists_setItemOf|].
    unfold setItemOf. apply Forall_alter; [done|].
    intros x Hx _. cbn [items]. rewrite Hl in Hx. injection Hx as <-.
    apply setItem_true_only. by apply findIndex_None.
Qed.

Lemma menuRun_tidy ops page : tidy page -> tidy (menuRun ops page).
Proof.
  revert page. induction ops as [|op ops IH]; intros page H; [done|].
  cbn [menuRun fold_left]. apply IH. destruct op; cbn [menuStep].
  - by apply activate_tidy.
  - by apply selectNext_tidy.
Qed.

(** *** What [activate] leaves *)

Lemma visibleFrom_seq pre its :
  visibleFrom (length pre) its
  = List.filter (isShown (pre ++ its)) (seq (length pre) (length its)).
Proof.
  revert pre. induction its as [|it its IH]; intros pre; [done|].
  cbn [visibleFrom length seq List.filter].
  assert (E : isShown (pre ++ it :: its) (length pre) = negb (itemHidden it)).
  { unfold isShown. by rewrite list_lookup_middle. }
  rewrite E. specialize (IH (pre ++ [it])).
  rewrite length_app, <- app_assoc in IH. cbn [length app] in IH.
  rewrite Nat.add_1_r in IH. rewrite IH. by destruct (itemHidden it).
Qed.

Lemma visible_seq its :
  visible its = List.filter (isShown its) (seq O (length its)).
Proof. apply (visibleFrom_seq [] its). Qed.

Lemma isShown_setItem b i its j : isShown (setItem b i its) j = isShown its j.
Proof.
  unfold isShown. rewrite setItem_lookup.
  destruct (decide (i = j)); [|done]. by destruct (its !! j).
Qed.

Lemma isShown_lt its i : isShown its i = true -> (i < length its)%nat.
Proof.
  unfold isShown. destruct (its !! i) eqn:E; [|done].
  intros _. by eapply lookup_lt_Some.
Qed.

Lemma activate_found (page : Page) la l :
  tidy page -> page !! la = Some l ->
  let page' := activate (Some la) None page in
  activeList page' = Some la
  /\ length (List.filter listActive page') = 1%nat
  /\ exists l', page' !! la = Some l'
       /\ itemHidden <$> items l' = itemHidden <$> items l
       /\ findIndex itemActive (items l')
          = match findIndex itemActive (items l) with
            | Some i => if isShown (items l) i then Some i else head (visible (items l))
            | None => head (visible (items l))
            end.
Proof.
  intros [_ Hitems] Hl page'. unfold page', activate.
  set (page0 := (fun l => {| listActive := false; items := items l |}) <$> page).
  assert (Hoff : Forall (fun l => listActive l = false) page0).
  { unfold page0. apply Forall_fmap. by apply Forall_true. }
  assert (Hl0 : page0 !! la = Some {| listActive := false; items := items l |}).
  { unfold page0. by rewrite list_lookup_fmap, Hl. }
  cbn [mbind option_bind]. rewrite Hl0. cbn [fmap option_fmap option_map items].
  pose proof (countActive_lookup page la l Hitems Hl) as Hc.
  set (lastActive := findIndex itemActive (items l)).
  set (its := match lastActive with
              | Some i => setItem false i (items l)
              | None => items l
              end).
  assert (Hnone : Forall (fun it => itemActive it = false) its).
  { unfold its, lastActive. destruct (findIndex itemActive (items l)) as [i|] eqn:Ef.
    - by apply setItem_false_first.
    - by apply findIndex_None. }
  assert (Hlen : length its = length (items l)).
  { unfold its. destruct lastActive; [apply setItem_length|done]. }
  assert (Hshown : forall j, isShown its j = isShown (items l) j).
  { intros j. unfold its. destruct lastActive; [apply isShown_setItem|done]. }
  assert (Hhid : itemHidden <$> its = itemHidden <$> items l).
  { unfold its. destruct lastActive; [apply setItem_hidden|done]. }
  set (listItem := head (List.filter _ _)).
  assert (Hitem : listItem
                  = match lastActive with
                    | Some i => if isShown (items l) i then Some i
                                else head (visible (items l))
                    | None => head (visible (items l))
                    end).
  { unfold listItem. rewrite List.filter_app, Hlen.
    rewrite (List.filter_ext _ _ Hshown (seq 0 (length (items l)))), <- visible_seq.
    destruct lastActive as [i|]; [|done].
    change (option_list (Some i)) with [i]. cbn [List.filter].
    rewrite Hshown. by destruct (isShown (items l) i). }
  assert (Hlt : forall j, listItem = Some j -> (j < length its)%nat).
  { intros j Hj. unfold listItem in Hj. apply head_Some in Hj as [rest Hj].
    assert (Hin : In j (List.filter (isShown its) (option_list lastActive ++ seq 0 (length its)))).
    { rewrite Hj. by left. }
    apply filter_In in Hin as [_ Hin]. by apply isShown_lt. }
  split; [|split].
  - unfold activeList. apply findIndex_Some. split.
    + eexists. split; [apply list_lookup_insert_eq; by eapply lookup_lt_Some|done].
    + intros j y Hj Hy. rewrite list_lookup_insert_ne in Hy by lia.
      rewrite Forall_forall in Hoff. apply Hoff. by eapply list_elem_of_lookup_2.
  - assert (Hle := one_list_active page0 la
                     {| listActive := true;
                        items := match listItem with
                                 | Some i => setItem true i its
                                 | None => its
                                 end |} Hoff).
    assert (Hin : {| listActive := true;
                     items := match listItem with
                              | Some i => setItem true i its
                              | None => its
                              end |}
                  ∈ List.filter listActive
                      (<[la := {| listActive := true;
                                  items := match listItem with
                                           | Some i => setItem true i its
                                           | None => its
                                           end |}]> page0)).
    { apply list_elem_of_In, filter_In. split; [|done]. apply list_elem_of_In.
      eapply list_elem_of_lookup_2. apply list_lookup_insert_eq. by eapply lookup_lt_Some. }
    destruct (List.filter listActive _) as [|? [|? ?]]; cbn in *; try lia.
    by apply elem_of_nil in Hin.
  - eexists. split; [apply list_lookup_insert_eq; by eapply lookup_lt_Some|].
    cbn [items]. rewrite <- Hitem. destruct listItem as [j|] eqn:Ej.
    + split; [by rewrite setItem_hidden|]. by apply setItem_true_only, Hlt.
    + split; [done|]. by apply findIndex_None.
Qed.

(** *** Going through the items shown *)

Lemma shown_unfold page i :
  shown page = Some i <->
  exists la l ii, activeList page = Some la /\ page !! la = Some l
    /\ findIndex itemActive (items l) = Some ii
    /\ indexOfNat (visible (items l)) ii = Z.of_nat i.
Proof.
  unfold shown. split.
  - intros H. apply bind_Some in H as (la & Hla & H).
    apply bind_Some in H as (l & Hl & H). apply bind_Some in H as (ii & Hii & H).
    exists la, l, ii. split; [done|]. split; [done|]. split; [done|].
    destruct (indexOfNat (visible (items l)) ii) as [|p|p]; [| |done];
      injection H as <-; lia.
  - intros (la & l & ii & Hla & Hl & Hii & Hk).
    rewrite Hla. cbn. rewrite Hl. cbn. rewrite Hii. cbn. rewrite Hk.
    destruct (Z.of_nat i) eqn:E; [| |lia]; f_equal; lia.
Qed.

Lemma selectNext_shown (delta : Z) page i :
  tidy page -> shown page = Some i ->
  (0 <= Z.of_nat i + delta + Z.of_nat (shownCount page))%Z ->
  shown (selectNext delta page)
  = Some (Z.to_nat ((Z.of_nat i + delta) mod Z.of_nat (shownCount page)))
  /\ shownCount (selectNext delta page) = shownCount page.
Proof.
  intros [Hlists Hitems] Hi Hd.
  apply shown_unfold in Hi as (la & l & ii & Hla & Hl & Hii & Hk).
  assert (Hn : shownCount page = length (visible (items l))).
  { unfold shownCount. rewrite Hla. cbn. by rewrite Hl. }
  rewrite Hn in *. set (all := visible (items l)) in *.
  set (n := Z.of_nat (length all)) in *.
  pose proof (indexOfNat_ge all ii) as Hge. fold n in Hge.
  assert (Hpos : (0 < n)%Z) by lia.
  set (k := ((Z.of_nat i + delta) mod n)%Z).
  assert (Hk' : (0 <= k < n)%Z) by (apply Z.mod_pos_bound; lia).
  destruct (lookup_lt_is_Some_2 all (Z.to_nat k)) as [jj Hjj]; [lia|].
  assert (Hsel : selectNext delta page
                 = setItemOf true la jj (setItemOf false la ii page)).
  { unfold selectNext. rewrite Hla. cbn [mbind option_bind]. rewrite Hl.
    cbn [fmap option_fmap option_map].
    rewrite (activeItem_single page la l Hlists Hla Hl), Hii.
    cbn [fmap option_fmap option_map]. rewrite decide_True by done.
    fold all. fold n. rewrite Hk.
    assert (En : (n =? 0)%Z = false) by lia. rewrite En.
    assert (Er : Z.rem (Z.of_nat i + delta + n) n = k).
    { rewrite Z.rem_mod_nonneg by lia. unfold k.
      replace (Z.of_nat i + delta + n)%Z with (Z.of_nat i + delta + 1 * n)%Z by lia.
      apply Z_mod_plus_full. }
    rewrite Er. unfold at_.
    assert (Ek : (k <? 0)%Z = false) by lia. rewrite Ek, Hjj. done. }
  rewrite Hsel.
  assert (Hl2 : setItemOf true la jj (setItemOf false la ii page) !! la
                = Some {| listActive := listActive l;
                          items := setItem true jj (setItem false ii (items l)) |}).
  { rewrite !setItemOf_lookup, !decide_True, Hl by done. done. }
  assert (Hvis : visible (setItem true jj (setItem false ii (items l))) = all).
  { by rewrite !visible_setItem. }
  assert (Hjlt : (jj < length (items l))%nat).
  { apply list_elem_of_lookup_2, visibleFrom_bounds in Hjj. lia. }
  split.
  - apply shown_unfold. eexists la, _, jj.
    split; [by rewrite !activeList_setItemOf|]. split; [exact Hl2|].
    cbn [items]. split.
    + apply setItem_true_only.
      * apply setItem_false_first; [|done]. by eapply countActive_lookup.
      * by rewrite setItem_length.
    + rewrite Hvis. rewrite (indexOfNat_found all jj (Z.to_nat k)); [|apply visibleFrom_NoDup|done].
      done.
  - unfold shownCount. rewrite !activeList_setItemOf, Hla. cbn [mbind option_bind].
    rewrite Hl2. cbn [items]. by rewrite Hvis.
Qed.

Lemma shown_lt page i : shown page = Some i -> (i < shownCount page)%nat.
Proof.
  intros H. apply shown_unfold in H as (la & l & ii & Hla & Hl & Hii & Hk).
  unfold shownCount. rewrite Hla. cbn. rewrite Hl.
  pose proof (indexOfNat_ge (visible (items l)) ii). lia.
Qed.

Lemma selectNext_then (d1 d2 : Z) page i :
  tidy page -> shown page = Some i ->
  (0 <= Z.of_nat i + d1 + Z.of_nat (shownCount page))%Z ->
  (0 <= (Z.of_nat i + d1) mod Z.of_nat (shownCount page) + d2
        + Z.of_nat (shownCount page))%Z ->
  shown (selectNext d2 (selectNext d1 page))
  = Some (Z.to_nat ((Z.of_nat i + d1 + d2) mod Z.of_nat (shownCount page))).
Proof.
  intros Ht Hi H1 H2. pose proof (shown_lt page i Hi) as Hlt.
  destruct (selectNext_shown d1 page i Ht Hi H1) as [Hs Hn].
  set (n := Z.of_nat (shownCount page)) in *.
  assert (Hm : (0 <= (Z.of_nat i + d1) mod n < n)%Z) by (apply Z.mod_pos_bound; lia).
  destruct (selectNext_shown d2 (selectNext d1 page) _ (selectNext_tidy _ _ Ht) Hs)
    as [Hs2 _].
  - rewrite Hn, Z2Nat.id by lia. exact H2.
  - rewrite Hs2, Hn, Z2Nat.id by lia. fold n. by rewrite Zplus_mod_idemp_l.
Qed.

Lemma selectNext_iter (k : nat) page i :
  tidy page -> shown page = Some i ->
  let later := Nat.iter k (selectNext 1) page in
  tidy later /\ shownCount later = shownCount page
  /\ shown later
     = Some (Z.to_nat ((Z.of_nat i + Z.of_nat k) mod Z.of_nat (shownCount page))).
Proof.
  intros Ht Hi. pose proof (shown_lt page i Hi) as Hlt.
  induction k as [|k (IH1 & IH2 & IH3)]; cbv zeta.
  - split; [done|]. split; [done|]. cbn [Nat.iter nat_rect].
    rewrite Z.add_0_r, Z.mod_small by lia. by rewrite Nat2Z.id.
  - rewrite Nat.iter_succ. set (later := Nat.iter k (selectNext 1) page) in *.
    set (n := Z.of_nat (shownCount page)) in *.
    assert (Hm : (0 <= (Z.of_nat i + Z.of_nat k) mod n < n)%Z)
      by (apply Z.mod_pos_bound; lia).
    destruct (selectNext_shown 1 later _ IH1 IH3) as [Hs Hn].
    { rewrite IH2, Z2Nat.id by lia. fold n. lia. }
    split; [by apply selectNext_tidy|]. split; [by rewrite Hn|].
    rewrite Hs, IH2, Z2Nat.id by lia. fold n. rewrite Zplus_mod_idemp_l.
    replace (Z.of_nat (S k)) with (Z.of_nat k + 1)%Z by lia.
    by rewrite Z.add_assoc.
Qed.

(** X28.  [selectNext] goes round the items shown of the active list: on a
    page with one active list, each list with at most one active item, and
    the active item of the active list shown at the place [i] among the [n]
    items shown, [selectNext(delta)] makes the item at [i + delta] modulo
    [n] the active one, as long as [i + delta + n] is not negative (hidden
    items are passed over, and are never made active).  So a step forward
    and a step back undo each other, at the ends of the list too, and [n]
    steps forward come back to the same item. *)
Theorem select_next_goes_round (delta : Z) page i :
  tidy page -> shown page = Some i ->
  let n := Z.of_nat (shownCount page) in
  ((0 <= Z.of_nat i + delta + n)%Z ->
   shown (selectNext delta page) = Some (Z.to_nat ((Z.of_nat i + delta) mod n))
   /\ shownCount (selectNext delta page) = shownCount page)
  /\ shown (selectNext (-1) (selectNext 1 page)) = Some i
  /\ shown (selectNext 1 (selectNext (-1) page)) = Some i
  /\ shown (Nat.iter (shownCount page) (selectNext 1) page) = Some i.
Proof.
  intros Ht Hi n. pose proof (shown_lt page i Hi) as Hlt.
  assert (Hback : forall x : Z, (x mod n = Z.of_nat i)%Z ->
                    Some (Z.to_nat (x mod n)) = Some i).
  { intros x ->. by rewrite Nat2Z.id. }
  split; [|split; [|split]].
  - intros Hd. by apply selectNext_shown.
  - rewrite (selectNext_then 1 (-1) page i Ht Hi); fold n.
    + apply Hback. replace (Z.of_nat i + 1 + -1)%Z with (Z.of_nat i) by lia.
      apply Z.mod_small. lia.
    + lia.
    + pose proof (Z.mod_pos_bound (Z.of_nat i + 1) n). lia.
  - rewrite (selectNext_then (-1) 1 page i Ht Hi); fold n.
    + apply Hback. replace (Z.of_nat i + -1 + 1)%Z with (Z.of_nat i) by lia.
      apply Z.mod_small. lia.
    + lia.
    + pose proof (Z.mod_pos_bound (Z.of_nat i + -1) n). lia.
  - destruct (selectNext_iter (shownCount page) page i Ht Hi) as (_ & _ & ->).
    fold n. apply Hback.
    replace (Z.of_nat i + n)%Z with (Z.of_nat i + 1 * n)%Z by lia.
    rewrite Z_mod_plus_full. apply Z.mod_small. lia.
Qed.

Lemma select_next_goes_round_witness :
  shown (selectNext 1 MoreSamples.menu) = Some 1%nat
  /\ shown (selectNext (-1) (selectNext 1 MoreSamples.menu)) = Some O.
Proof.
  destruct (select_next_goes_round 1 MoreSamples.menu O) as (H1 & H2 & _).
  - split; [vm_compute; lia|]. repeat constructor.
  - reflexivity.
  - split; [|exact H2]. apply H1. vm_compute. discriminate.
Defined.

(** X29.  The menus stay tidy: on a page with at most one active list and
    at most one active item in every list, whatever is activated and
    selected afterwards leaves such a page.  [activate] for a list that is
    not found leaves no list active.  For a list of the page, without a
    selector for the item, it leaves that list the only active one, and it
    remembers the item: the item that was active in the list stays the
    active one when it is shown, and else the first item shown is made
    active (none when all are hidden); no item is hidden or shown by it. *)
Theorem menu_stays_tidy (ops : list MenuOp) (page : Page) la l :
  tidy page ->
  let now := menuRun ops page in
  tidy now
  /\ (forall sel, activeList (activate None sel now) = None)
  /\ (now !! la = Some l ->
      let page' := activate (Some la) None now in
      activeList page' = Some la
      /\ length (List.filter listActive page') = 1%nat
      /\ exists l', page' !! la = Some l'
           /\ itemHidden <$> items l' = itemHidden <$> items l
           /\ findIndex itemActive (items l')
              = match findIndex itemActive (items l) with
                | Some i =>
                  if isShown (items l) i then Some i else head (visible (items l))
                | None => head (visible (items l))
                end).
Proof.
  intros Ht now. pose proof (menuRun_tidy ops page Ht) as Hnow. fold now in Hnow.
  split; [done|]. split.
  - intros sel. unfold activate. cbn [mbind option_bind]. unfold activeList.
    apply findIndex_None, Forall_fmap. by apply Forall_true.
  - intros Hl. by apply activate_found.
Qed.

Lemma menu_stays_tidy_witness :
  tidy (menuRun [Activate (Some O) None; SelectNext 1] MoreSamples.menu).
Proof.
  apply (menu_stays_tidy [Activate (Some O) None; SelectNext 1] MoreSamples.menu O
           {| listActive := true; items := [] |}).
  split; [vm_compute; lia|]. repeat constructor.
Defined.

End MenuMore.
